(** * BakeLang: a shallow embedding of the interpreter [BakeLangInterpret.py]

    The development follows the program: the lexer [tokenize], the
    recursive-descent [Parser], the tree-walking evaluator (the [eval]
    methods of the AST classes) and the runner [run_file].

    Modelling conventions.
    - Python [int] is unbounded: [Z], and [str] of an [int] is its decimal
      numeral.  The limit recent CPython versions put on the number of
      digits of a numeral is left out of [tokenize] and of the evaluator;
      [tokenize_limited] and [eval_limited] are the lexer and the
      evaluation of an expression with it.  Python [str] is [string]; the
      model covers program text and input in ASCII, where the classes [\d]
      and [\w] of the lexer and [str.lower] are the ASCII ones.
    - A Python exception is a value of type [exn]; a computation that may
      raise returns a [result].
    - A dictionary used as an environment is a [gmap string Value].  The
      one dictionary that is shared between frames, the recipe table that
      every frame stores under the key ["__recipes__"], is kept apart from
      the frames and the value [VRecipes] is the reference to it: the table
      is complete before the first statement runs and never changes
      afterwards.
    - Whatever depends on the Python runtime rather than on this program
      ([int(raw)], the [str] of a dictionary, [%]-formatting of a [str]) is
      a field of the record [Host].
    - Recipes may call themselves without end; the number of nested calls
      the Python stack admits is the parameter [depth] of the evaluator.
      The stack is taken to be deep enough for the nesting of a syntax
      tree itself, except in [eval_limited], which counts the frames of an
      expression.
    - The loops and the recursion of the lexer and of the parser are
      bounded by a counter; a result [None] means that the counter was too
      small, and the last section shows which counter is enough. *)

From Stdlib Require Import ZArith String Ascii List Bool Lia.
From stdpp Require Import base option list strings gmap pretty.

Import ListNotations.
Set Warnings "-register-all".
Local Open Scope string_scope.
Local Open Scope Z_scope.

(** ** Tokens *)

(** [Token(type_, value)].  The lexer builds six shapes of tokens; a symbol
    token has its own character as type and as value, [EOF] has value
    [None]. *)
Inductive Token : Type :=
  | NUMBER (v : Z)
  | STRING (v : string)
  | ID (v : string)
  | OP (v : string)
  | SYM (c : ascii)
  | EOF.

(** The [value] attribute of a token: an [int], a [str] or [None]. *)
Inductive TokenValue : Type :=
  | IntValue (n : Z)
  | StrValue (s : string)
  | NoneValue.

Definition type_ (t : Token) : string :=
  match t with
  | NUMBER _ => "NUMBER"
  | STRING _ => "STRING"
  | ID _ => "ID"
  | OP _ => "OP"
  | SYM c => String c EmptyString
  | EOF => "EOF"
  end.

Definition value (t : Token) : TokenValue :=
  match t with
  | NUMBER v => IntValue v
  | STRING v | ID v | OP v => StrValue v
  | SYM c => StrValue (String c EmptyString)
  | EOF => NoneValue
  end.

(** [tok.type == s] *)
Definition type_is (t : Token) (s : string) : bool := String.eqb (type_ t) s.

(** [tok.value == s] for a string [s] *)
Definition value_is (t : Token) (s : string) : bool :=
  match value t with
  | StrValue v => String.eqb v s
  | _ => false
  end.

(** ** Abstract syntax *)

(** [Number], [String], [Var], [BinOp(left, op, right)].  The class
    [String] is [StringLit] here, [String] being the constructor of
    [string]. *)
Inductive Expr : Type :=
  | Number (v : Z)
  | StringLit (v : string)
  | Var (n : string)
  | BinOp (left : Expr) (op : string) (right : Expr).

(** The statement classes.  [else_s] is [None] when the statement has no
    else branch. *)
Inductive Stmt : Type :=
  | IngredientDecl (name : string) (_type : string)
  | MixStmt (expr : Expr) (target : string)
  | ServeStmt (expr : Expr)
  | AskStmt (prompt : Expr) (target : string)
  | IfStmt (cond : Expr) (then_s : list Stmt) (else_s : option (list Stmt))
  | RepeatStmt (start end_ : Expr) (body : list Stmt)
  | MakeStmt (name : string) (args : list Expr).

Record RecipeDef : Type := mkRecipeDef {
  rd_name : string;
  rd_params : list string;
  rd_body : list Stmt
}.

Record Program : Type := mkProgram {
  recipes : list RecipeDef;
  main : list Stmt
}.

(** ** Exceptions and results *)

Inductive exn : Type :=
  (* SyntaxError "Unexpected character: {source[pos]!r}" *)
  | UnexpectedCharacter (c : ascii)
  (* SyntaxError "Expected {ttype} {tval}, got {tok.type} {tok.value!r}" *)
  | ParseExpected (ttype : string) (tval : option string) (got : Token)
  (* SyntaxError "Unknown statement {tok.value!r}" *)
  | ParseUnknownStatement (got : Token)
  (* SyntaxError "Unexpected token {t}" *)
  | ParseUnexpectedToken (got : Token)
  (* SyntaxError "Unknown operator {op}" *)
  | UnknownOperator (op : string)
  (* NameError "'{n}' undefined/uninitialized" *)
  | UndefinedVariable (n : string)
  (* NameError "Recipe '{name}' not found" *)
  | RecipeNotFound (name : string)
  (* TypeError "{name} expects {len(params)} args, got {len(args)}" *)
  | ArityMismatch (name : string) (nparams nargs : nat)
  (* exceptions raised by the Python runtime itself; [FormatError] stands
     for the TypeError, ValueError or KeyError of a failed [%]-formatting *)
  | TypeError
  | FormatError
  | ValueError
  | ZeroDivisionError
  | IndexError
  | KeyError (key : string)
  | EOFError
  | RecursionError.

Inductive result (A : Type) : Type :=
  | Ok (a : A)
  | Raise (e : exn).
Arguments Ok {A} a.
Arguments Raise {A} e.

Definition bind {A B : Type} (r : result A) (k : A -> result B) : result B :=
  match r with
  | Ok a => k a
  | Raise e => Raise e
  end.

Notation "'letr' x <- r ; k" := (bind r (fun x => k))
  (at level 10, x name, r at level 100, k at level 200,
   format "'[v' 'letr'  x  <-  r ; '/' k ']'").
Notation "'letr' ' p <- r ; k" := (bind r (fun x => match x with p => k end))
  (at level 10, p pattern, r at level 100, k at level 200,
   format "'[v' 'letr'  ' p  <-  r ; '/' k ']'").

(** ** Values, environments, the recipe table *)

(** What a dictionary slot of a frame can hold: [None] (a declared
    ingredient), an [int], a [str], or the reference to the recipe table. *)
Inductive Value : Type :=
  | VNone
  | VInt (n : Z)
  | VStr (s : string)
  | VRecipes.

(** The dictionary [env['__recipes__']]: name -> (params, body). *)
Abbreviation Recipes := (gmap string (list string * list Stmt)).

(** A frame: the dictionary [env] (or [local]). *)
Abbreviation Env := (gmap string Value).

Definition recipes_key : string := "__recipes__".

(** The part of the Python runtime the interpreter relies on. *)
Record Host : Type := mkHost {
  (* [int(raw)]: [None] stands for [ValueError] *)
  host_int : string -> option Z;
  (* [str(d)] of the recipe table *)
  host_str_recipes : Recipes -> string;
  (* [s % v], printf-style formatting of the string [s]: [None] stands
     for the exception of a format that does not fit the value *)
  host_format : Recipes -> string -> Value -> option string
}.

Section Evaluator.

Variable H : Host.
(** The recipe table; it is filled by [Program.eval] before any statement
    runs and no statement changes it. *)
Variable R : Recipes.

(** [str(v)] *)
Definition py_str (v : Value) : string :=
  match v with
  | VNone => "None"
  | VInt n => pretty n
  | VStr s => s
  | VRecipes => host_str_recipes H R
  end.

(** [bool(v)], the test of an [if] *)
Definition py_bool (v : Value) : bool :=
  match v with
  | VNone => false
  | VInt n => negb (n =? 0)
  | VStr s => negb (String.eqb s "")
  | VRecipes => negb (bool_decide (R = ∅))
  end.

(** [a == b] *)
Definition py_eq (a b : Value) : bool :=
  match a, b with
  | VNone, VNone => true
  | VInt x, VInt y => x =? y
  | VStr s, VStr t => String.eqb s t
  | VRecipes, VRecipes => true
  | _, _ => false
  end.

Definition is_str (v : Value) : bool :=
  match v with VStr _ => true | _ => false end.

(** [a + b] on operands that are not both covered by the string case *)
Definition py_add (a b : Value) : result Value :=
  match a, b with
  | VInt x, VInt y => Ok (VInt (x + y))
  | _, _ => Raise TypeError
  end.

(** [a % b] *)
Definition py_mod (a b : Value) : result Value :=
  match a, b with
  | VInt x, VInt y =>
      if y =? 0 then Raise ZeroDivisionError else Ok (VInt (x `mod` y))
  | VStr s, _ =>
      match host_format H R s b with
      | Some s' => Ok (VStr s')
      | None => Raise FormatError
      end
  | _, _ => Raise TypeError
  end.

(** The body of [BinOp.eval] once both operands are evaluated. *)
Definition apply_op (op : string) (a b : Value) : result Value :=
  if String.eqb op "+" then
    if is_str a || is_str b then Ok (VStr (py_str a +:+ py_str b))
    else py_add a b
  else if String.eqb op "%" then py_mod a b
  else if String.eqb op "==" then Ok (VInt (if py_eq a b then 1 else 0))
  else Raise (UnknownOperator op).

(** [Number.eval], [String.eval], [Var.eval], [BinOp.eval] *)
Fixpoint eval (e : Expr) (env : Env) : result Value :=
  match e with
  | Number v => Ok (VInt v)
  | StringLit v => Ok (VStr v)
  | Var n =>
      match env !! n with
      | None | Some VNone => Raise (UndefinedVariable n)
      | Some v => Ok v
      end
  | BinOp lhs op rhs =>
      letr a <- eval lhs env;
      letr b <- eval rhs env;
      apply_op op a b
  end.

End Evaluator.

(** ** Statements *)

(** What the program writes: a line printed by [print], or the prompt
    written by [input]. *)
Inductive Event : Type :=
  | Printed (line : string)
  | Prompted (text : string).

(** A frame together with the two streams: the lines still to be read from
    standard input and what has been written so far. *)
Record World : Type := mkWorld {
  w_env : Env;
  w_in : list string;
  w_out : list Event
}.

Definition set_var (n : string) (v : Value) (w : World) : World :=
  mkWorld (<[n := v]> (w_env w)) (w_in w) (w_out w).

Definition write (ev : Event) (w : World) : World :=
  mkWorld (w_env w) (w_in w) (w_out w ++ [ev]).

(** The outcome of a statement: it returns, or it raises; in both cases
    the frame and the streams are as the statement left them. *)
Inductive outcome : Type :=
  | Done (w : World)
  | Raised (e : exn) (w : World).

(** [for s in stmts: s.eval(env)] *)
Definition exec_block (exec : Stmt -> World -> outcome)
  : list Stmt -> World -> outcome :=
  fix go (stmts : list Stmt) (w : World) : outcome :=
    match stmts with
    | [] => Done w
    | s :: rest =>
        match exec s w with
        | Done w' => go rest w'
        | Raised e w' => Raised e w'
        end
    end.

(** [range(lo, hi)] *)
Definition py_range (lo hi : Z) : list Z := seqZ lo (hi - lo).

(** [for i in r: env['i'] = i; <body>] *)
Definition for_range (body : World -> outcome) : list Z -> World -> outcome :=
  fix go (r : list Z) (w : World) : outcome :=
    match r with
    | [] => Done w
    | i :: rest =>
        match body (set_var "i" (VInt i) w) with
        | Done w' => go rest w'
        | Raised e w' => Raised e w'
        end
    end.

(** [name in s] for a string [s]: substring test *)
Definition py_contains (name s : string) : bool :=
  match String.index 0 name s with
  | Some _ => true
  | None => false
  end.

(** The frame [{'__recipes__': recipes}] every run and every call starts
    from. *)
Definition fresh_env : Env := {[ recipes_key := VRecipes ]}.

(** [for pname, arg in zip(params, args): local[pname] = arg.eval(env)] *)
Fixpoint bind_args (H : Host) (R : Recipes) (env : Env)
    (pas : list (string * Expr)) (local : Env) : result Env :=
  match pas with
  | [] => Ok local
  | (pname, arg) :: rest =>
      letr v <- eval H R arg env;
      bind_args H R env rest (<[pname := v]> local)
  end.

Section Statements.

Variable H : Host.
Variable R : Recipes.
(** [call body w]: run the statements of a recipe body in the frame [w];
    see [call_recipe] below. *)
Variable call : list Stmt -> World -> outcome.

(** [MakeStmt.eval] from the arity test on, for the table entry
    [(params, body)]. *)
Definition invoke (name : string) (params : list string) (body : list Stmt)
    (args : list Expr) (w : World) : outcome :=
  if negb (Nat.eqb (length params) (length args)) then
    Raised (ArityMismatch name (length params) (length args)) w
  else
    match bind_args H R (w_env w) (combine params args) fresh_env with
    | Raise e => Raised e w
    | Ok local =>
        match call body (mkWorld local (w_in w) (w_out w)) with
        | Done wl => Done (mkWorld (w_env w) (w_in wl) (w_out wl))
        | Raised e wl => Raised e (mkWorld (w_env w) (w_in wl) (w_out wl))
        end
    end.

(** The [eval] methods of the statement classes. *)
Fixpoint exec_stmt (s : Stmt) (w : World) : outcome :=
  match s with
  | IngredientDecl name _ => Done (set_var name VNone w)
  | MixStmt expr target =>
      match eval H R expr (w_env w) with
      | Raise e => Raised e w
      | Ok v => Done (set_var target v w)
      end
  | ServeStmt expr =>
      match eval H R expr (w_env w) with
      | Raise e => Raised e w
      | Ok v => Done (write (Printed (py_str H R v)) w)
      end
  | AskStmt prompt target =>
      match eval H R prompt (w_env w) with
      | Raise e => Raised e w
      | Ok p =>
          let w1 := write (Prompted (py_str H R p +:+ " ")) w in
          match w_in w1 with
          | [] => Raised EOFError w1
          | raw :: rest =>
              let val := match host_int H raw with
                         | Some n => VInt n
                         | None => VStr raw
                         end in
              Done (set_var target val (mkWorld (w_env w1) rest (w_out w1)))
          end
      end
  | IfStmt cond then_s else_s =>
      match eval H R cond (w_env w) with
      | Raise e => Raised e w
      | Ok c =>
          if py_bool R c then exec_block exec_stmt then_s w
          else
            match else_s with
            | Some ((_ :: _) as else_b) => exec_block exec_stmt else_b w
            | _ => Done w
            end
      end
  | RepeatStmt start end_ body =>
      match eval H R start (w_env w) with
      | Raise e => Raised e w
      | Ok lo =>
          match eval H R end_ (w_env w) with
          | Raise e => Raised e w
          | Ok hi =>
              match lo, hi with
              | VInt lo, VInt hi =>
                  for_range (exec_block exec_stmt body)
                            (py_range lo (hi + 1)) w
              | _, _ => Raised TypeError w
              end
          end
      end
  | MakeStmt name args =>
      match w_env w !! recipes_key with
      | None => Raised (KeyError recipes_key) w
      | Some VRecipes =>
          match R !! name with
          | None => Raised (RecipeNotFound name) w
          | Some (params, body) => invoke name params body args w
          end
      | Some (VStr s) =>
          if py_contains name s then Raised TypeError w
          else Raised (RecipeNotFound name) w
      | Some (VInt _) | Some VNone => Raised TypeError w
      end
  end.

End Statements.

(** Running a recipe body.  [depth] is the number of nested recipe calls
    the Python stack still admits; past it the interpreter raises
    [RecursionError]. *)
Fixpoint call_recipe (H : Host) (R : Recipes) (depth : nat)
    (body : list Stmt) (w : World) : outcome :=
  match depth with
  | O => Raised RecursionError w
  | S d => exec_block (exec_stmt H R (call_recipe H R d)) body w
  end.

(** [RecipeDef.eval]: [env['__recipes__'][self.name] = (params, body)] *)
Definition register (R : Recipes) (r : RecipeDef) : Recipes :=
  <[rd_name r := (rd_params r, rd_body r)]> R.

(** [Program.eval] *)
Definition Program_eval (H : Host) (depth : nat) (p : Program)
    (stdin : list string) : outcome :=
  let R := foldl register ∅ (recipes p) in
  exec_block (exec_stmt H R (call_recipe H R depth)) (main p)
             (mkWorld fresh_env stdin []).

(** ** The lexer *)

(** The character classes of the token patterns, on ASCII text: a digit
    ([\d]), a letter or underscore, a word character ([\w]), a blank (space,
    tab or newline), one of the seven symbols, and any character but the
    backslash (92) and the double quote (34). *)
Definition is_digit (c : ascii) : bool :=
  let n := nat_of_ascii c in ((48 <=? n) && (n <=? 57))%nat.

Definition is_name_start (c : ascii) : bool :=
  let n := nat_of_ascii c in
  (((65 <=? n) && (n <=? 90)) || ((97 <=? n) && (n <=? 122)) || (n =? 95))%nat.

Definition is_word (c : ascii) : bool := is_name_start c || is_digit c.

Definition is_space (c : ascii) : bool :=
  let n := nat_of_ascii c in ((n =? 32) || (n =? 9) || (n =? 10))%nat.

Definition is_symbol (c : ascii) : bool :=
  let n := nat_of_ascii c in
  ((n =? 59) || (n =? 58) || (n =? 123) || (n =? 125)
   || (n =? 40) || (n =? 41) || (n =? 44))%nat.

Definition is_string_char (c : ascii) : bool :=
  let n := nat_of_ascii c in negb ((n =? 92) || (n =? 34))%nat.

Definition quote : ascii := ascii_of_nat 34.

(** The longest prefix of characters of a class, and what follows it: the
    match of a greedy [c+] or [c*]. *)
Fixpoint span (p : ascii -> bool) (s : string) : string * string :=
  match s with
  | EmptyString => (EmptyString, EmptyString)
  | String c s' =>
      if p c then let (run, rest) := span p s' in (String c run, rest)
      else (EmptyString, s)
  end.

(** [int(val)] for a run of decimal digits (without the limit CPython puts
    on the length of a numeral). *)
Definition int_of_digits (val : string) : Z :=
  fold_left (fun acc c => 10 * acc + Z.of_nat (nat_of_ascii c - 48))
            (list_ascii_of_string val) 0.

(** The loop of [tokenize] on the text from [pos] on.  The alternatives of
    the pattern are tried in the order NUM, STR, NAME, OPS, SYM, SKIP; the
    first character decides which one can match.  [fuel] bounds the number
    of turns and [None] means that it was too small. *)
Fixpoint scan (fuel : nat) (source : string) (tokens : list Token)
  : option (result (list Token)) :=
  match fuel with
  | O => None
  | S fuel' =>
      match source with
      | EmptyString => Some (Ok (tokens ++ [EOF])%list)
      | String c after =>
          if is_digit c then
            let (val, rest) := span is_digit source in
            scan fuel' rest (tokens ++ [NUMBER (int_of_digits val)])%list
          else if Ascii.eqb c quote then
            let (body, rest) := span is_string_char after in
            match rest with
            | String c' rest' =>
                if Ascii.eqb c' quote
                then scan fuel' rest' (tokens ++ [STRING body])%list
                else Some (Raise (UnexpectedCharacter c))
            | EmptyString => Some (Raise (UnexpectedCharacter c))
            end
          else if is_name_start c then
            let (val, rest) := span is_word source in
            scan fuel' rest (tokens ++ [ID val])%list
          else if Ascii.eqb c "=" then
            match after with
            | String c' rest =>
                if Ascii.eqb c' "="
                then scan fuel' rest (tokens ++ [OP "=="])%list
                else Some (Raise (UnexpectedCharacter c))
            | EmptyString => Some (Raise (UnexpectedCharacter c))
            end
          else if Ascii.eqb c "%" then
            scan fuel' after (tokens ++ [OP "%"])%list
          else if Ascii.eqb c "+" then
            scan fuel' after (tokens ++ [OP "+"])%list
          else if is_symbol c then scan fuel' after (tokens ++ [SYM c])%list
          else if is_space c then
            let (_, rest) := span is_space source in
            scan fuel' rest tokens
          else Some (Raise (UnexpectedCharacter c))
      end
  end.

(** [tokenize]; every turn consumes a character, so one turn per character
    and one for the end suffice. *)
Definition tokenize (source : string) : option (result (list Token)) :=
  scan (S (String.length source)) source [].

(** ** The parser *)

(** The parser state is [self.tokens] and [self.pos]; what the methods read
    is the list of tokens from [pos] on, so a method is a function from
    that list to its result and the remaining list.  The methods call each
    other recursively and loop; [gas] bounds both, and [None] means that
    the bound was too small (no exception corresponds to it). *)
Definition presult (A : Type) : Type := option (result (A * list Token)).

Definition pbind {A B : Type} (r : presult A)
    (k : A -> list Token -> presult B) : presult B :=
  match r with
  | None => None
  | Some (Raise e) => Some (Raise e)
  | Some (Ok (a, ts)) => k a ts
  end.

Notation "'letp' ( x , ts ) <- r ; k" := (pbind r (fun x ts => k))
  (at level 10, x name, ts name, r at level 100, k at level 200,
   format "'[v' 'letp'  ( x ,  ts )  <-  r ; '/' k ']'").

Definition pure {A : Type} (a : A) (ts : list Token) : presult A :=
  Some (Ok (a, ts)).

Definition fail {A : Type} (e : exn) : presult A := Some (Raise e).

(** [str.lower] on ASCII text *)
Definition lower_ascii (c : ascii) : ascii :=
  let n := nat_of_ascii c in
  if ((65 <=? n) && (n <=? 90))%nat then ascii_of_nat (n + 32) else c.

Fixpoint lower (s : string) : string :=
  match s with
  | EmptyString => EmptyString
  | String c s' => String (lower_ascii c) (lower s')
  end.

(** The [str] a token of type ID, OP or STRING carries as its [value]. *)
Definition value_str (t : Token) : string :=
  match value t with
  | StrValue s => s
  | _ => ""
  end.

(** [Parser.eat]; [self.cur()] on an exhausted list raises [IndexError]. *)
Definition eat (ttype : string) (tval : option string) (ts : list Token)
  : presult Token :=
  match ts with
  | [] => fail IndexError
  | tok :: rest =>
      if type_is tok ttype
         && match tval with None => true | Some v => value_is tok v end
      then pure tok rest
      else fail (ParseExpected ttype tval tok)
  end.

Section Expressions.

(** [self.parse_expr()] as called for a parenthesised expression. *)
Variable parse_sub : list Token -> presult Expr.

(** [Parser.parse_primary] *)
Definition parse_primary (ts : list Token) : presult Expr :=
  match ts with
  | [] => fail IndexError
  | t :: _ =>
      if type_is t "NUMBER" then
        letp (_, ts1) <- eat "NUMBER" None ts;
        match value t with
        | IntValue v => pure (Number v) ts1
        | _ => fail TypeError (* a token of type NUMBER carries an int *)
        end
      else if type_is t "STRING" then
        letp (_, ts1) <- eat "STRING" None ts;
        pure (StringLit (value_str t)) ts1
      else if type_is t "ID" then
        letp (_, ts1) <- eat "ID" None ts;
        pure (Var (value_str t)) ts1
      else if value_is t "(" then
        letp (_, ts1) <- eat "(" None ts;
        letp (node, ts2) <- parse_sub ts1;
        letp (_, ts3) <- eat ")" None ts2;
        pure node ts3
      else fail (ParseUnexpectedToken t)
  end.

(** The loop shared by [parse_eq], [parse_add] and [parse_mod]:
    [while cur.type=='OP' and cur.value==opv:
       op = eat('OP').value; node = BinOp(node, op, operand())] *)
Fixpoint binop_loop (opv : string) (operand : list Token -> presult Expr)
    (gas : nat) (node : Expr) (ts : list Token) : presult Expr :=
  match gas with
  | O => None
  | S g =>
      match ts with
      | [] => fail IndexError
      | t :: _ =>
          if type_is t "OP" && value_is t opv then
            letp (optok, ts1) <- eat "OP" None ts;
            letp (rhs, ts2) <- operand ts1;
            binop_loop opv operand g (BinOp node (value_str optok) rhs) ts2
          else pure node ts
      end
  end.

(** [Parser.parse_mod] *)
Definition parse_mod (gas : nat) (ts : list Token) : presult Expr :=
  letp (node, ts1) <- parse_primary ts;
  binop_loop "%" parse_primary gas node ts1.

(** [Parser.parse_add] *)
Definition parse_add (gas : nat) (ts : list Token) : presult Expr :=
  letp (node, ts1) <- parse_mod gas ts;
  binop_loop "+" (parse_mod gas) gas node ts1.

(** [Parser.parse_eq] *)
Definition parse_eq (gas : nat) (ts : list Token) : presult Expr :=
  letp (node, ts1) <- parse_add gas ts;
  binop_loop "==" (parse_add gas) gas node ts1.

End Expressions.

(** [Parser.parse_expr] *)
Fixpoint parse_expr (gas : nat) (ts : list Token) : presult Expr :=
  match gas with
  | O => None
  | S g => parse_eq (parse_expr g) g ts
  end.

(** [self.eat('ID').value] *)
Definition eat_name (ts : list Token) : presult string :=
  letp (tok, ts1) <- eat "ID" None ts;
  pure (value_str tok) ts1.

Section StatementParsers.

Variable gas : nat.
(** [self.parse_block()] as called from the statement parsers. *)
Variable parse_block : list Token -> presult (list Stmt).

(** [Parser.parse_decl] *)
Definition parse_decl (ts : list Token) : presult Stmt :=
  letp (_, ts1) <- eat "ID" None ts;
  letp (name, ts2) <- eat_name ts1;
  letp (_, ts3) <- eat ":" None ts2;
  letp (_t, ts4) <- eat_name ts3;
  letp (_, ts5) <- eat ";" None ts4;
  pure (IngredientDecl name _t) ts5.

(** [Parser.parse_mix] *)
Definition parse_mix (ts : list Token) : presult Stmt :=
  letp (_, ts1) <- eat "ID" None ts;
  letp (expr, ts2) <- parse_expr gas ts1;
  letp (_, ts3) <- eat "ID" None ts2;
  letp (targ, ts4) <- eat_name ts3;
  letp (_, ts5) <- eat ";" None ts4;
  pure (MixStmt expr targ) ts5.

(** [Parser.parse_serve] *)
Definition parse_serve (ts : list Token) : presult Stmt :=
  letp (_, ts1) <- eat "ID" None ts;
  letp (expr, ts2) <- parse_expr gas ts1;
  letp (_, ts3) <- eat ";" None ts2;
  pure (ServeStmt expr) ts3.

(** [Parser.parse_ask] *)
Definition parse_ask (ts : list Token) : presult Stmt :=
  letp (_, ts1) <- eat "ID" None ts;
  letp (prompt, ts2) <- parse_expr gas ts1;
  letp (_, ts3) <- eat "ID" None ts2;
  letp (name, ts4) <- eat_name ts3;
  letp (_, ts5) <- eat ";" None ts4;
  pure (AskStmt prompt name) ts5.

(** [Parser.parse_if] *)
Definition parse_if (ts : list Token) : presult Stmt :=
  letp (_, ts1) <- eat "ID" None ts;
  letp (_, ts2) <- eat "(" None ts1;
  letp (cond, ts3) <- parse_expr gas ts2;
  letp (_, ts4) <- eat ")" None ts3;
  letp (_, ts5) <- eat "ID" None ts4;
  letp (then_b, ts6) <- parse_block ts5;
  match ts6 with
  | [] => fail IndexError
  | t :: _ =>
      if type_is t "ID" && String.eqb (lower (value_str t)) "else" then
        letp (_, ts7) <- eat "ID" None ts6;
        letp (else_b, ts8) <- parse_block ts7;
        pure (IfStmt cond then_b (Some else_b)) ts8
      else pure (IfStmt cond then_b None) ts6
  end.

(** [Parser.parse_repeat] *)
Definition parse_repeat (ts : list Token) : presult Stmt :=
  letp (_, ts1) <- eat "ID" None ts;
  letp (start, ts2) <- parse_expr gas ts1;
  letp (_, ts3) <- eat "ID" None ts2;
  letp (end_, ts4) <- parse_expr gas ts3;
  letp (body, ts5) <- parse_block ts4;
  pure (RepeatStmt start end_ body) ts5.

(** The loop of [parse_make]:
    [while cur.value==',': eat(','); args.append(parse_expr())] *)
Fixpoint args_loop (n : nat) (args : list Expr) (ts : list Token)
  : presult (list Expr) :=
  match n with
  | O => None
  | S n' =>
      match ts with
      | [] => fail IndexError
      | t :: _ =>
          if value_is t "," then
            letp (_, ts1) <- eat "," None ts;
            letp (arg, ts2) <- parse_expr gas ts1;
            args_loop n' (args ++ [arg]) ts2
          else pure args ts
      end
  end.

(** [Parser.parse_make] *)
Definition parse_make (ts : list Token) : presult Stmt :=
  letp (_, ts1) <- eat "ID" None ts;
  letp (name, ts2) <- eat_name ts1;
  letp (_, ts3) <- eat "(" None ts2;
  letp (args, ts4) <-
    match ts3 with
    | [] => fail IndexError
    | t :: _ =>
        if type_is t "NUMBER" || type_is t "STRING" || type_is t "ID"
           || type_is t "("
        then
          letp (arg, ts') <- parse_expr gas ts3;
          args_loop gas [arg] ts'
        else pure [] ts3
    end;
  letp (_, ts5) <- eat ")" None ts4;
  letp (_, ts6) <- eat ";" None ts5;
  pure (MakeStmt name args) ts6.

End StatementParsers.

Section Blocks.

(** [self.parse_stmt()] as called from [parse_block]. *)
Variable parse_stmt : list Token -> presult Stmt.

(** The loop of [parse_block]:
    [while cur.value != '}': stmts.append(parse_stmt())] *)
Fixpoint block_loop (n : nat) (stmts : list Stmt) (ts : list Token)
  : presult (list Stmt) :=
  match n with
  | O => None
  | S n' =>
      match ts with
      | [] => fail IndexError
      | t :: _ =>
          if negb (value_is t "}") then
            letp (s, ts1) <- parse_stmt ts;
            block_loop n' (stmts ++ [s]) ts1
          else pure stmts ts
      end
  end.

(** [Parser.parse_block] *)
Definition parse_block (n : nat) (ts : list Token) : presult (list Stmt) :=
  letp (_, ts1) <- eat "{" None ts;
  letp (stmts, ts2) <- block_loop n [] ts1;
  letp (_, ts3) <- eat "}" None ts2;
  pure stmts ts3.

End Blocks.

(** [Parser.parse_stmt] *)
Fixpoint parse_stmt (gas : nat) (ts : list Token) : presult Stmt :=
  match gas with
  | O => None
  | S g =>
      let block := parse_block (parse_stmt g) g in
      match ts with
      | [] => fail IndexError
      | tok :: _ =>
          if type_is tok "ID" then
            let kw := lower (value_str tok) in
            if String.eqb kw "mix" || String.eqb kw "fold"
            then parse_mix g ts
            else if String.eqb kw "serve" then parse_serve g ts
            else if String.eqb kw "ask" then parse_ask g ts
            else if String.eqb kw "if" then parse_if g block ts
            else if String.eqb kw "repeat" then parse_repeat g block ts
            else if String.eqb kw "make" then parse_make g ts
            else if String.eqb kw "ingredient" then parse_decl ts
            else fail (ParseUnknownStatement tok)
          else fail (ParseUnknownStatement tok)
      end
  end.

(** The loop of [parse_recipe]:
    [while cur.value==',': eat(','); params.append(eat('ID').value)] *)
Fixpoint params_loop (n : nat) (params : list string) (ts : list Token)
  : presult (list string) :=
  match n with
  | O => None
  | S n' =>
      match ts with
      | [] => fail IndexError
      | t :: _ =>
          if value_is t "," then
            letp (_, ts1) <- eat "," None ts;
            letp (p, ts2) <- eat_name ts1;
            params_loop n' (params ++ [p]) ts2
          else pure params ts
      end
  end.

(** [Parser.parse_recipe] *)
Definition parse_recipe (gas : nat) (ts : list Token) : presult RecipeDef :=
  letp (_, ts1) <- eat "ID" None ts;
  letp (name, ts2) <- eat_name ts1;
  letp (_, ts3) <- eat "(" None ts2;
  letp (params, ts4) <-
    match ts3 with
    | [] => fail IndexError
    | t :: _ =>
        if type_is t "ID" then
          letp (p, ts') <- eat_name ts3;
          params_loop gas [p] ts'
        else pure [] ts3
    end;
  letp (_, ts5) <- eat ")" None ts4;
  letp (body, ts6) <- parse_block (parse_stmt gas) gas ts5;
  pure (mkRecipeDef name params body) ts6.

(** The loop of [Parser.parse]. *)
Fixpoint parse_loop (gas : nat) (rs : list RecipeDef) (ms : list Stmt)
    (ts : list Token) : option (result Program) :=
  match gas with
  | O => None
  | S g =>
      match ts with
      | [] => Some (Raise IndexError)
      | t :: _ =>
          if negb (type_is t "EOF") then
            if type_is t "ID" && String.eqb (lower (value_str t)) "recipe"
            then
              match parse_recipe g ts with
              | None => None
              | Some (Raise e) => Some (Raise e)
              | Some (Ok (r, ts1)) => parse_loop g (rs ++ [r]) ms ts1
              end
            else
              match parse_stmt g ts with
              | None => None
              | Some (Raise e) => Some (Raise e)
              | Some (Ok (s, ts1)) => parse_loop g rs (ms ++ [s]) ts1
              end
          else Some (Ok (mkProgram rs ms))
      end
  end.

(** [Parser(tokens).parse()] *)
Definition parse (gas : nat) (tokens : list Token) : option (result Program) :=
  parse_loop gas [] [] tokens.

(** [Parser(tokenize(code)).parse()] *)
Definition parse_text (gas : nat) (code : string) : option (result Program) :=
  match tokenize code with
  | None => None
  | Some (Raise e) => Some (Raise e)
  | Some (Ok tokens) => parse gas tokens
  end.

(** [run_file] on the text of the file: tokenize, parse, evaluate.  The
    result is [None] when [gas] is too small for the parser. *)
Definition run_file (H : Host) (gas depth : nat) (code : string)
    (stdin : list string) : option (result outcome) :=
  match parse_text gas code with
  | None => None
  | Some (Raise e) => Some (Raise e)
  | Some (Ok ast) => Some (Ok (Program_eval H depth ast stdin))
  end.

(** ** Notions used to state the properties *)

Global Instance Value_eq_dec : EqDecision Value.
Proof. solve_decision. Defined.

(** The world an outcome ends in. *)
Definition outcome_world (o : outcome) : World :=
  match o with
  | Done w => w
  | Raised _ w => w
  end.

(** [assigns x s]: some statement of [s], executed in the frame of [s],
    may store into the name [x].  A recipe called from [s] runs in a frame
    of its own, so [MakeStmt] assigns nothing. *)
Fixpoint assigns (x : string) (s : Stmt) : bool :=
  match s with
  | IngredientDecl name _ => String.eqb name x
  | MixStmt _ target => String.eqb target x
  | ServeStmt _ => false
  | AskStmt _ target => String.eqb target x
  | IfStmt _ then_s else_s =>
      existsb (assigns x) then_s
      || match else_s with
         | Some else_b => existsb (assigns x) else_b
         | None => false
         end
  | RepeatStmt _ _ body => String.eqb "i" x || existsb (assigns x) body
  | MakeStmt _ _ => false
  end.

(** The iterations of a counting loop, told one index at a time: nothing
    for an empty range; otherwise bind [i] to the first index, run the
    body, and go on from the next index unless the body raised. *)
Inductive repeat_runs (body : World -> outcome)
  : Z -> Z -> World -> outcome -> Prop :=
  | runs_none lo hi w :
      hi < lo -> repeat_runs body lo hi w (Done w)
  | runs_next lo hi w w1 o :
      lo <= hi ->
      body (set_var "i" (VInt lo) w) = Done w1 ->
      repeat_runs body (lo + 1) hi w1 o ->
      repeat_runs body lo hi w o
  | runs_abort lo hi w e w1 :
      lo <= hi ->
      body (set_var "i" (VInt lo) w) = Raised e w1 ->
      repeat_runs body lo hi w (Raised e w1).

(** The expression grammar, one relation per precedence level: a token
    list and the tree it stands for.
      Eq      := Add ("==" Add)*
      Add     := Mod ("+" Mod)*
      Mod     := Primary ("%" Primary)*
      Primary := NUMBER | STRING | ID | "(" Eq ")"
    each operator level grouping to the left. *)
Inductive G_Primary : list Token -> Expr -> Prop :=
  | G_number n : G_Primary [NUMBER n] (Number n)
  | G_string s : G_Primary [STRING s] (StringLit s)
  | G_id x : G_Primary [ID x] (Var x)
  | G_paren ts e :
      G_Eq ts e -> G_Primary (SYM "(" :: ts ++ [SYM ")"]) e
with G_Mod : list Token -> Expr -> Prop :=
  | G_mod_operand ts e : G_Primary ts e -> G_Mod ts e
  | G_mod_op ts1 e1 ts2 e2 :
      G_Mod ts1 e1 -> G_Primary ts2 e2 ->
      G_Mod (ts1 ++ OP "%" :: ts2) (BinOp e1 "%" e2)
with G_Add : list Token -> Expr -> Prop :=
  | G_add_operand ts e : G_Mod ts e -> G_Add ts e
  | G_add_op ts1 e1 ts2 e2 :
      G_Add ts1 e1 -> G_Mod ts2 e2 ->
      G_Add (ts1 ++ OP "+" :: ts2) (BinOp e1 "+" e2)
with G_Eq : list Token -> Expr -> Prop :=
  | G_eq_operand ts e : G_Add ts e -> G_Eq ts e
  | G_eq_op ts1 e1 ts2 e2 :
      G_Eq ts1 e1 -> G_Add ts2 e2 ->
      G_Eq (ts1 ++ OP "==" :: ts2) (BinOp e1 "==" e2).

(** A parser is sound for a level of the grammar when the tree it returns
    is derived at that level from the tokens it consumed. *)
Definition sound_for (G : list Token -> Expr -> Prop)
    (p : list Token -> presult Expr) : Prop :=
  forall ts e rest,
    p ts = Some (Ok (e, rest)) ->
    exists pre, ts = (pre ++ rest)%list /\ G pre e.

(** [follows ops rest]: the input goes on after an expression, with a token
    that is none of the operators [ops]. *)
Definition follows (ops : list string) (rest : list Token) : Prop :=
  exists t rest', rest = t :: rest' /\ forall v, v ∈ ops -> t <> OP v.

(** A parser is complete for a level of the grammar, on inputs of at most
    [m] tokens followed by none of [ops], when it returns the tree of every
    derivation and stops right after its tokens. *)
Definition complete_for (G : list Token -> Expr -> Prop) (ops : list string)
    (m : nat) (p : list Token -> presult Expr) : Prop :=
  forall pre e rest,
    G pre e -> (length pre <= m)%nat -> follows ops rest ->
    p (pre ++ rest)%list = Some (Ok (e, rest)).

(** A parser consumes when a successful call leaves fewer tokens than it
    was given, shrinks when it leaves no more, and answers up to [m] when
    its bound is enough for every input of at most [m] tokens. *)
Definition consumes {A : Type} (p : list Token -> presult A) : Prop :=
  forall ts a rest,
    p ts = Some (Ok (a, rest)) -> (length rest < length ts)%nat.

Definition shrinks {A : Type} (p : list Token -> presult A) : Prop :=
  forall ts a rest,
    p ts = Some (Ok (a, rest)) -> (length rest <= length ts)%nat.

Definition answers {A : Type} (m : nat) (p : list Token -> presult A) : Prop :=
  forall ts, (length ts <= m)%nat -> p ts <> None.

(** The three operators. *)
Definition operators : list string := ["=="; "+"; "%"].

(** The tree of a token that is an expression by itself. *)
Definition atom (t : Token) : option Expr :=
  match t with
  | NUMBER v => Some (Number v)
  | STRING v => Some (StringLit v)
  | ID v => Some (Var v)
  | _ => None
  end.

(** How tightly an operator binds: [%] before [+] before [==]. *)
Definition binding (op : string) : nat :=
  if String.eqb op "%" then 3 else if String.eqb op "+" then 2 else 1.

(** The tree of [a o1 b o2 c] by these bindings, operators of one level
    grouping to the left. *)
Definition tree3 (a : Expr) (o1 : string) (b : Expr) (o2 : string)
    (c : Expr) : Expr :=
  if (binding o1 <? binding o2)%nat
  then BinOp a o1 (BinOp b o2 c)
  else BinOp (BinOp a o1 b) o2 c.

(** The tokens of [a o1 b o2 c]. *)
Definition infix3 (ta : Token) (o1 : string) (tb : Token) (o2 : string)
    (tc : Token) : list Token :=
  [ta; OP o1; tb; OP o2; tc].

(** ** Sample host and programs *)

(** A host for running examples: [int] reads an optional minus sign and
    decimal digits, the recipe table prints as a fixed text, and
    [%]-formatting is not available. *)
Fixpoint digits_value (acc : Z) (s : string) : option Z :=
  match s with
  | EmptyString => Some acc
  | String c s' =>
      let n := nat_of_ascii c in
      if ((48 <=? n) && (n <=? 57))%nat
      then digits_value (10 * acc + Z.of_nat (n - 48)) s'
      else None
  end.

Definition sample_int (s : string) : option Z :=
  match s with
  | EmptyString => None
  | String "-" ((String _ _) as ds) => Z.opp <$> digits_value 0 ds
  | _ => digits_value 0 s
  end.

Definition sample_host : Host :=
  mkHost sample_int (fun _ => "{...}") (fun _ _ _ => None).

Definition start_world (stdin : list string) : World :=
  mkWorld fresh_env stdin [].

(** The text of a string literal. *)
Definition lit (body : string) : string :=
  String quote body +:+ String quote "".

Definition text_mix_banana : string := "mix 1 banana x;".
Definition text_repeat_until : string := "repeat 1 until 2 { }".
Definition text_if_maybe : string := "if (1) maybe { }".
Definition text_ask_in : string := "ask 0 in n;".

Definition text_if_empty_string : string :=
  "if (" +:+ lit "" +:+ ") then { serve 1; } else { serve 2; }".

Definition text_rebind_then_make : string :=
  "mix " +:+ lit "x" +:+ " into __recipes__; make Foo(); recipe Foo() { }".

Definition text_rebind_then_short_make : string :=
  "recipe Foo(a) { serve a; } mix " +:+ lit "x"
  +:+ " into __recipes__; make Foo();".

Definition text_overwrite_table : string :=
  "mix 1 into __recipes__; make F(); recipe F() { }".

Definition text_make_before_recipe : string :=
  "make Foo(7); recipe Foo(n) { serve n; }".

Definition text_sum : string := "mix 2 + 3 into x; serve x;".
Definition text_concat : string :=
  "mix " +:+ lit "a" +:+ " + 1 into x; serve x;".
Definition text_mod : string := "mix 7 % 2 into y; serve y;".
Definition text_eq_3_3 : string := "mix 3 == 3 into z; serve z;".
Definition text_eq_3_4 : string := "mix 3 == 4 into z; serve z;".
Definition text_precedence : string := "serve 1 + 7 % 4 == 4;".

Definition text_repeat_1_3 : string := "repeat 1 to 3 { serve i; }".
Definition text_repeat_5_1 : string := "repeat 5 to 1 { serve i; }".

(** What a run printed, when it returned. *)
Definition printed (r : option (result outcome)) : option (list Event) :=
  match r with
  | Some (Ok (Done w)) => Some (w_out w)
  | _ => None
  end.

(** ** The command line *)

(** [s.endswith(suffix)] *)
Fixpoint ends_with (s suffix : string) : bool :=
  String.eqb s suffix
  || match s with
     | EmptyString => false
     | String _ s' => ends_with s' suffix
     end.

Definition usage : string := "Usage: python BakeLangInterpret.py <recipe>.bl".

(** What [main] comes to: the usage line is printed and the process exits
    with a status; or [open(path)] raises [OSError]; or [run_file] runs on
    the text of the file. *)
Inductive MainResult : Type :=
  | UsageExit (printed : string) (status : Z)
  | OpenFailed (path : string)
  | Ran (r : option (result outcome)).

(** [main], for the argument vector [argv] ([sys.argv], the script name
    first) and the files [files] (the text of the file at a path, if it
    can be opened and read). *)
Definition cli_main (H : Host) (gas depth : nat)
    (files : string -> option string) (argv : list string)
    (stdin : list string) : MainResult :=
  match argv with
  | [_; path] =>
      if ends_with path ".bl" then
        match files path with
        | Some code => Ran (run_file H gas depth code stdin)
        | None => OpenFailed path
        end
      else UsageExit usage 1
  | _ => UsageExit usage 1
  end.

(** ** Notions used to state the properties of whole runs *)

(** The outcome is the [RecursionError] of a call nested too deeply. *)
Definition raised_RecursionError (o : outcome) : bool :=
  match o with
  | Raised RecursionError _ => true
  | _ => false
  end.

(** [asks s]: the statement [s] contains an [ask]. *)
Fixpoint asks (s : Stmt) : bool :=
  match s with
  | AskStmt _ _ => true
  | IfStmt _ then_s else_s =>
      existsb asks then_s
      || match else_s with
         | Some else_b => existsb asks else_b
         | None => false
         end
  | RepeatStmt _ _ body => existsb asks body
  | _ => false
  end.

(** The exception is the [KeyError] of a dictionary lookup. *)
Definition is_KeyError (e : exn) : bool :=
  match e with
  | KeyError _ => true
  | _ => false
  end.


(** *** The limits of the runtime

    Two limits of CPython reach the interpreter.  A conversion between
    [int] and [str] raises [ValueError] when the numeral has more digits
    than [sys.get_int_max_str_digits()] allows: 4300 unless the runtime is
    configured otherwise, and 0 for no limit.  A call raises
    [RecursionError] when no frame is left on the stack.  The definitions
    above leave both out; the ones below follow them. *)

(** A numeral of [len] digits is over the limit [max_str_digits]. *)
Definition exceeds (max_str_digits len : nat) : bool :=
  ((0 <? max_str_digits) && (max_str_digits <? len))%nat.

(** The number of decimal digits of an [int] (the sign is not counted). *)
Definition digits (n : Z) : nat := String.length (pretty (Z.abs_N n)).

(** [str(v)] under the limit *)
Definition str_limited (H : Host) (R : Recipes) (max_str_digits : nat)
    (v : Value) : result string :=
  match v with
  | VInt n =>
      if exceeds max_str_digits (digits n) then Raise ValueError
      else Ok (py_str H R v)
  | _ => Ok (py_str H R v)
  end.

(** The body of [BinOp.eval] under the limit: [str(a) + str(b)] converts
    both operands. *)
Definition apply_op_limited (H : Host) (R : Recipes) (max_str_digits : nat)
    (op : string) (a b : Value) : result Value :=
  if String.eqb op "+" then
    if is_str a || is_str b then
      letr s <- str_limited H R max_str_digits a;
      letr t <- str_limited H R max_str_digits b;
      Ok (VStr (s +:+ t))
    else py_add a b
  else if String.eqb op "%" then py_mod H R a b
  else if String.eqb op "==" then Ok (VInt (if py_eq a b then 1 else 0))
  else Raise (UnknownOperator op).

(** [Number.eval], [String.eval], [Var.eval], [BinOp.eval] under both
    limits: [stack] is the number of frames left, and every call of an
    [eval] method takes one. *)
Fixpoint eval_limited (H : Host) (R : Recipes) (max_str_digits stack : nat)
    (e : Expr) (env : Env) : result Value :=
  match stack with
  | O => Raise RecursionError
  | S stack' =>
      match e with
      | Number v => Ok (VInt v)
      | StringLit v => Ok (VStr v)
      | Var n =>
          match env !! n with
          | None | Some VNone => Raise (UndefinedVariable n)
          | Some v => Ok v
          end
      | BinOp lhs op rhs =>
          letr a <- eval_limited H R max_str_digits stack' lhs env;
          letr b <- eval_limited H R max_str_digits stack' rhs env;
          apply_op_limited H R max_str_digits op a b
      end
  end.

(** The frames the evaluation of an expression takes at its deepest. *)
Fixpoint height (e : Expr) : nat :=
  match e with
  | BinOp lhs _ rhs => S (Nat.max (height lhs) (height rhs))
  | _ => 1
  end.

(** The number of prompts among the events written. *)
Fixpoint prompts (out : list Event) : nat :=
  match out with
  | [] => 0
  | Prompted _ :: out' => S (prompts out')
  | Printed _ :: out' => prompts out'
  end.

(** [io_step w o]: from the world [w] to the outcome [o], lines were taken
    from the front of the input and events were added at the end of the
    output, one prompt for each line taken; when the outcome is the
    [EOFError] of an [ask], the input is used up and the prompt of that
    [ask] was written as well. *)
Definition io_step (w : World) (o : outcome) : Prop :=
  exists used more,
    w_in w = (used ++ w_in (outcome_world o))%list
    /\ w_out (outcome_world o) = (w_out w ++ more)%list
    /\ match o with
       | Raised EOFError w' => prompts more = S (length used) /\ w_in w' = []
       | _ => prompts more = length used
       end.

(** The frame has an entry for the recipe table. *)
Definition has_table (w : World) : Prop :=
  is_Some (w_env w !! recipes_key).

(** ** Notions used to state the properties of the lexer *)

(** Which alternative of the token pattern can match at a character, the
    alternatives being tried in their order: a digit starts a number, a
    double quote a string, a letter or underscore a name, and so on;
    [Other] is a character no alternative starts with. *)
Inductive CharKind : Type :=
  | Digit | Quote | NameStart | Equals | Percent | Plus | Symbol | Space
  | Other.

Definition classify (c : ascii) : CharKind :=
  if is_digit c then Digit
  else if Ascii.eqb c quote then Quote
  else if is_name_start c then NameStart
  else if Ascii.eqb c "=" then Equals
  else if Ascii.eqb c "%" then Percent
  else if Ascii.eqb c "+" then Plus
  else if is_symbol c then Symbol
  else if is_space c then Space
  else Other.

(** A character that by itself never stops the lexer: everything but the
    double quote, the equals sign and the characters of no token. *)
Definition lexable (c : ascii) : bool :=
  match classify c with
  | Quote | Equals | Other => false
  | _ => true
  end.

(** The characters of a string. *)
Definition chars (s : string) : list ascii := list_ascii_of_string s.

(** The tokens [tokenize] builds before the final [EOF]: a number that is
    not negative, a string without backslash and double quote, a name, one
    of the three operators, one of the seven symbols. *)
Definition token_ok (t : Token) : bool :=
  match t with
  | NUMBER v => 0 <=? v
  | STRING v => forallb is_string_char (chars v)
  | ID EmptyString => false
  | ID (String c s) => is_name_start c && forallb is_word (chars s)
  | OP v => String.eqb v "==" || String.eqb v "%" || String.eqb v "+"
  | SYM c => is_symbol c
  | EOF => false
  end.

(** *** The lexer under the digit limit *)

(** [int(val)] for a run of decimal digits, under the limit. *)
Definition int_limited (max_str_digits : nat) (val : string) : result Z :=
  if exceeds max_str_digits (String.length val) then Raise ValueError
  else Ok (int_of_digits val).

(** The loop of [tokenize] with that [int(val)]. *)
Fixpoint scan_limited (max_str_digits fuel : nat) (source : string)
    (tokens : list Token) : option (result (list Token)) :=
  match fuel with
  | O => None
  | S fuel' =>
      match source with
      | EmptyString => Some (Ok (tokens ++ [EOF])%list)
      | String c after =>
          if is_digit c then
            let (val, rest) := span is_digit source in
            match int_limited max_str_digits val with
            | Ok n =>
                scan_limited max_str_digits fuel' rest
                  (tokens ++ [NUMBER n])%list
            | Raise e => Some (Raise e)
            end
          else if Ascii.eqb c quote then
            let (body, rest) := span is_string_char after in
            match rest with
            | String c' rest' =>
                if Ascii.eqb c' quote
                then scan_limited max_str_digits fuel' rest'
                       (tokens ++ [STRING body])%list
                else Some (Raise (UnexpectedCharacter c))
            | EmptyString => Some (Raise (UnexpectedCharacter c))
            end
          else if is_name_start c then
            let (val, rest) := span is_word source in
            scan_limited max_str_digits fuel' rest (tokens ++ [ID val])%list
          else if Ascii.eqb c "=" then
            match after with
            | String c' rest =>
                if Ascii.eqb c' "="
                then scan_limited max_str_digits fuel' rest
                       (tokens ++ [OP "=="])%list
                else Some (Raise (UnexpectedCharacter c))
            | EmptyString => Some (Raise (UnexpectedCharacter c))
            end
          else if Ascii.eqb c "%" then
            scan_limited max_str_digits fuel' after (tokens ++ [OP "%"])%list
          else if Ascii.eqb c "+" then
            scan_limited max_str_digits fuel' after (tokens ++ [OP "+"])%list
          else if is_symbol c then
            scan_limited max_str_digits fuel' after (tokens ++ [SYM c])%list
          else if is_space c then
            let (_, rest) := span is_space source in
            scan_limited max_str_digits fuel' rest tokens
          else Some (Raise (UnexpectedCharacter c))
      end
  end.

Definition tokenize_limited (max_str_digits : nat) (source : string)
  : option (result (list Token)) :=
  scan_limited max_str_digits (S (String.length source)) source [].

(** The length of the run of characters of a class a text starts with,
    and of the longest such run in the text. *)
Fixpoint prefix_run (p : ascii -> bool) (s : string) : nat :=
  match s with
  | String c s' => if p c then S (prefix_run p s') else 0
  | EmptyString => 0
  end.

Fixpoint longest_run (p : ascii -> bool) (s : string) : nat :=
  match s with
  | String c s' => Nat.max (prefix_run p s) (longest_run p s')
  | EmptyString => 0
  end.

(** A text of [n] times the character [c]. *)
Fixpoint replicate_char (n : nat) (c : ascii) : string :=
  match n with
  | O => EmptyString
  | S n' => String c (replicate_char n' c)
  end.

(** ** Notions used to state the properties of the parser *)


(** The tokens of [( pre )]. *)
Definition parenthesised (pre : list Token) : list Token :=
  (SYM "(" :: pre ++ [SYM ")"])%list.

(** The operators of an expression are among [+], [%] and [==]; of a
    statement, of a program: those of all its expressions. *)
Definition known_op (op : string) : bool :=
  String.eqb op "+" || String.eqb op "%" || String.eqb op "==".

Fixpoint known_ops (e : Expr) : bool :=
  match e with
  | BinOp lhs op rhs => known_op op && known_ops lhs && known_ops rhs
  | _ => true
  end.

Fixpoint stmt_known_ops (s : Stmt) : bool :=
  match s with
  | IngredientDecl _ _ => true
  | MixStmt e _ | ServeStmt e | AskStmt e _ => known_ops e
  | IfStmt cond then_s else_s =>
      known_ops cond && forallb stmt_known_ops then_s
      && match else_s with
         | Some else_b => forallb stmt_known_ops else_b
         | None => true
         end
  | RepeatStmt start end_ body =>
      known_ops start && known_ops end_ && forallb stmt_known_ops body
  | MakeStmt _ args => forallb known_ops args
  end.

Definition program_known_ops (p : Program) : bool :=
  forallb (fun r => forallb stmt_known_ops (rd_body r)) (recipes p)
  && forallb stmt_known_ops (main p).

(** [post C E Q r]: the result [r] of a parser is such that the tokens it
    leaves satisfy [C] and its value satisfies [Q], or the exception it
    raises satisfies [E].  [keeps C E Q p]: the parser [p] gives such
    results on all tokens that satisfy [C]. *)
Definition post {A : Type} (C : list Token -> Prop) (E : exn -> Prop)
    (Q : A -> Prop) (r : presult A) : Prop :=
  match r with
  | None => True
  | Some (Raise e) => E e
  | Some (Ok (a, rest)) => C rest /\ Q a
  end.

Definition keeps {A : Type} (C : list Token -> Prop) (E : exn -> Prop)
    (Q : A -> Prop) (p : list Token -> presult A) : Prop :=
  forall ts, C ts -> post C E Q (p ts).

(** The token list ends with [EOF]. *)
Definition ends_with_EOF (ts : list Token) : Prop := last ts = Some EOF.

(** ** The concrete syntax, written out *)

(** The text of a token, and the text of a list of tokens, a space after
    each. *)
Definition render_token (t : Token) : string :=
  match t with
  | NUMBER v => pretty v
  | STRING v => String quote (v +:+ String quote "")
  | ID v => v
  | OP v => v
  | SYM c => String c ""
  | EOF => ""
  end.

Fixpoint render (ts : list Token) : string :=
  match ts with
  | [] => ""
  | t :: ts' => render_token t +:+ String " " (render ts')
  end.

(** The tokens of an expression: an operand that is itself an operation
    is written in parentheses. *)
Definition wrap (e : Expr) (ts : list Token) : list Token :=
  match e with
  | BinOp _ _ _ => parenthesised ts
  | _ => ts
  end.

Fixpoint expr_tokens (e : Expr) : list Token :=
  match e with
  | Number v => [NUMBER v]
  | StringLit v => [STRING v]
  | Var n => [ID n]
  | BinOp lhs op rhs =>
      (wrap lhs (expr_tokens lhs) ++ OP op :: wrap rhs (expr_tokens rhs))%list
  end.

(** Items with a comma before each but the first. *)
Definition comma_separated (items : list (list Token)) : list Token :=
  match items with
  | [] => []
  | first :: more => (first ++ flat_map (fun ts => SYM "," :: ts) more)%list
  end.

(** The tokens of a block, of a statement, of a recipe, of a program: the
    recipes first, then the statements, then [EOF]. *)
Definition block_of (tokens_of : Stmt -> list Token) (l : list Stmt)
  : list Token :=
  (SYM "{" :: flat_map tokens_of l ++ [SYM "}"])%list.

Fixpoint stmt_tokens (s : Stmt) : list Token :=
  match s with
  | IngredientDecl name t =>
      [ID "ingredient"; ID name; SYM ":"; ID t; SYM ";"]
  | MixStmt e target =>
      (ID "mix" :: expr_tokens e ++ [ID "into"; ID target; SYM ";"])%list
  | ServeStmt e => (ID "serve" :: expr_tokens e ++ [SYM ";"])%list
  | AskStmt p target =>
      (ID "ask" :: expr_tokens p ++ [ID "into"; ID target; SYM ";"])%list
  | IfStmt cond then_s else_s =>
      (ID "if" :: SYM "(" :: expr_tokens cond
       ++ SYM ")" :: ID "then" :: block_of stmt_tokens then_s
       ++ match else_s with
          | Some else_b => ID "else" :: block_of stmt_tokens else_b
          | None => []
          end)%list
  | RepeatStmt start end_ body =>
      (ID "repeat" :: expr_tokens start
       ++ ID "to" :: expr_tokens end_ ++ block_of stmt_tokens body)%list
  | MakeStmt name args =>
      (ID "make" :: ID name :: SYM "("
       :: comma_separated (map expr_tokens args) ++ [SYM ")"; SYM ";"])%list
  end.

Definition recipe_tokens (r : RecipeDef) : list Token :=
  (ID "recipe" :: ID (rd_name r) :: SYM "("
   :: comma_separated (map (fun p => [ID p]) (rd_params r))
   ++ SYM ")" :: block_of stmt_tokens (rd_body r))%list.

Definition body_tokens (p : Program) : list Token :=
  (flat_map recipe_tokens (recipes p) ++ flat_map stmt_tokens (main p))%list.

Definition program_tokens (p : Program) : list Token :=
  (body_tokens p ++ [EOF])%list.

(** What stands at top level: a recipe or a statement.  The tokens of a
    list of them in any order, and the recipes and the statements among
    them. *)
Definition item_tokens (i : RecipeDef + Stmt) : list Token :=
  match i with
  | inl r => recipe_tokens r
  | inr s => stmt_tokens s
  end.

Definition item_known_ops (i : RecipeDef + Stmt) : bool :=
  match i with
  | inl r => forallb stmt_known_ops (rd_body r)
  | inr s => stmt_known_ops s
  end.

Fixpoint recipes_of (items : list (RecipeDef + Stmt)) : list RecipeDef :=
  match items with
  | [] => []
  | inl r :: items' => r :: recipes_of items'
  | inr _ :: items' => recipes_of items'
  end.

Fixpoint statements_of (items : list (RecipeDef + Stmt)) : list Stmt :=
  match items with
  | [] => []
  | inl _ :: items' => statements_of items'
  | inr s :: items' => s :: statements_of items'
  end.

(** The tokens go on, and not with the word [else]. *)
Definition no_else (rest : list Token) : Prop :=
  match rest with
  | [] => False
  | t :: _ =>
      type_is t "ID" && String.eqb (lower (value_str t)) "else" = false
  end.

(** A statement parses back from its tokens, with any bound above their
    number and whatever follows, bar the word [else]. *)
Definition parses_back (s : Stmt) : Prop :=
  forall gas rest,
    (length (stmt_tokens s) < gas)%nat -> no_else rest ->
    parse_stmt gas (stmt_tokens s ++ rest)%list = Some (Ok (s, rest)).

(** * Properties *)

(** ** Values and operators *)

Lemma py_eq_spec a b : py_eq a b = true <-> a = b.
Proof.
  destruct a, b; simpl; split; try congruence; try done.
  - intros E%Z.eqb_eq. by subst.
  - intros [= ->]. apply Z.eqb_refl.
  - intros E%String.eqb_eq. by subst.
  - intros [= ->]. apply String.eqb_refl.
Qed.

Lemma py_eq_decide a b : py_eq a b = bool_decide (a = b).
Proof.
  destruct (py_eq a b) eqn:E.
  - apply py_eq_spec in E. by rewrite bool_decide_eq_true_2.
  - rewrite bool_decide_eq_false_2; [done|].
    intros E'. apply py_eq_spec in E'. congruence.
Qed.

Lemma apply_op_add_int H R x y :
  apply_op H R "+" (VInt x) (VInt y) = Ok (VInt (x + y)).
Proof. reflexivity. Qed.

Lemma apply_op_add_str H R a b :
  is_str a || is_str b = true ->
  apply_op H R "+" a b = Ok (VStr (py_str H R a +:+ py_str H R b)).
Proof. intros E. unfold apply_op. simpl. by rewrite E. Qed.

Lemma apply_op_eq H R a b :
  apply_op H R "==" a b = Ok (VInt (if decide (a = b) then 1 else 0)).
Proof.
  unfold apply_op. simpl. rewrite py_eq_decide.
  case_bool_decide; case_decide; done.
Qed.

(** C3. Once both operands of a [BinOp] are evaluated: [+] of two integers
    is their sum; [+] with a string on either side is the concatenation of
    the texts of the two operands, the text of an integer being its
    decimal numeral and the text of a string the string itself; [==] is 1
    when the two values are equal and 0 otherwise.  So [2 + 3] is 5,
    ["a" + 1] is ["a1"] and [3 == 3] is 1. *)
Theorem BinOp_eval_add_and_eq H R lhs rhs env a b :
  eval H R lhs env = Ok a ->
  eval H R rhs env = Ok b ->
  (forall x y, a = VInt x -> b = VInt y ->
     eval H R (BinOp lhs "+" rhs) env = Ok (VInt (x + y)))
  /\ ((exists s, a = VStr s) \/ (exists s, b = VStr s) ->
      eval H R (BinOp lhs "+" rhs) env
      = Ok (VStr (py_str H R a +:+ py_str H R b)))
  /\ (forall n, py_str H R (VInt n) = pretty n)
  /\ (forall s, py_str H R (VStr s) = s)
  /\ eval H R (BinOp lhs "==" rhs) env
     = Ok (VInt (if decide (a = b) then 1 else 0))
  /\ eval H R (BinOp (Number 2) "+" (Number 3)) env = Ok (VInt 5)
  /\ eval H R (BinOp (StringLit "a") "+" (Number 1)) env = Ok (VStr "a1")
  /\ eval H R (BinOp (Number 3) "==" (Number 3)) env = Ok (VInt 1)
  /\ eval H R (BinOp (Number 3) "==" (Number 4)) env = Ok (VInt 0).
Proof.
  intros Ha Hb. cbn [eval]. rewrite Ha, Hb. cbn [bind].
  repeat split.
  - intros x y -> ->. apply apply_op_add_int.
  - intros Hs. apply apply_op_add_str.
    destruct Hs as [[s ->]|[s ->]]; [done|]. apply orb_true_r.
  - apply apply_op_eq.
Qed.

Lemma BinOp_eval_add_and_eq_witness :
  eval sample_host ∅ (BinOp (StringLit "a") "+" (Number 1)) fresh_env
  = Ok (VStr "a1").
Proof.
  destruct (BinOp_eval_add_and_eq sample_host ∅ (StringLit "a") (Number 1)
              fresh_env (VStr "a") (VInt 1) eq_refl eq_refl)
    as (_ & Hs & _).
  rewrite Hs; [reflexivity|]. left. by exists "a".
Defined.

(** ** Reading variables *)

Lemma eval_Var_unbound H R env n :
  env !! n = None -> eval H R (Var n) env = Raise (UndefinedVariable n).
Proof. intros E. simpl. by rewrite E. Qed.

Lemma eval_Var_declared H R env n :
  env !! n = Some VNone -> eval H R (Var n) env = Raise (UndefinedVariable n).
Proof. intros E. simpl. by rewrite E. Qed.

(** An expression never evaluates to the sentinel [None], and the operators
    build integers and strings only. *)
Lemma apply_op_int_or_str H R op a b v :
  apply_op H R op a b = Ok v ->
  (exists n, v = VInt n) \/ (exists s, v = VStr s).
Proof.
  unfold apply_op.
  destruct (String.eqb op "+").
  { destruct (is_str a || is_str b).
    - intros [= <-]. right. eauto.
    - destruct a, b; simpl; try discriminate. intros [= <-]. left. eauto. }
  destruct (String.eqb op "%").
  { destruct a, b; simpl; try discriminate;
      try (destruct (host_format H R _ _); [|discriminate];
           intros [= <-]; right; eauto).
    destruct (_ =? 0); [discriminate|]. intros [= <-]. left. eauto. }
  destruct (String.eqb op "=="); [|discriminate].
  intros [= <-]. left. eauto.
Qed.

Lemma eval_value_shape H R e env v :
  eval H R e env = Ok v ->
  (exists n, v = VInt n) \/ (exists s, v = VStr s)
  \/ (v = VRecipes /\ exists x, e = Var x /\ env !! x = Some VRecipes).
Proof.
  destruct e as [n|s|x|l op r]; simpl.
  - intros [= <-]. left. eauto.
  - intros [= <-]. right. left. eauto.
  - destruct (env !! x) as [[| | |]|] eqn:E; try discriminate;
      intros [= <-]; eauto 10.
  - destruct (eval H R l env) as [a|]; [|discriminate].
    destruct (eval H R r env) as [b|]; [|discriminate]. simpl.
    intros Hop%apply_op_int_or_str. tauto.
Qed.

Lemma eval_not_None H R e env : eval H R e env <> Ok VNone.
Proof.
  intros E. apply eval_value_shape in E.
  destruct E as [[? ?]|[[? ?]|[? _]]]; discriminate.
Qed.

(** The exceptions an expression can raise. *)
Lemma apply_op_raises H R op a b ex :
  apply_op H R op a b = Raise ex ->
  ex = TypeError \/ ex = FormatError \/ ex = ZeroDivisionError
  \/ ex = UnknownOperator op.
Proof.
  unfold apply_op.
  destruct (String.eqb op "+").
  { destruct (is_str a || is_str b); [discriminate|].
    destruct a, b; simpl; try discriminate; intros [= <-]; auto. }
  destruct (String.eqb op "%").
  { destruct a, b; simpl;
      try (destruct (host_format H R _ _); [discriminate|]);
      try (destruct (_ =? 0)); try discriminate; intros [= <-]; auto. }
  destruct (String.eqb op "=="); [discriminate|]. intros [= <-]. auto.
Qed.

Lemma eval_raises H R e env ex :
  eval H R e env = Raise ex ->
  (exists n, ex = UndefinedVariable n) \/ ex = TypeError \/ ex = FormatError
  \/ ex = ZeroDivisionError \/ (exists op, ex = UnknownOperator op).
Proof.
  induction e as [n|s|x|l IHl op r IHr]; simpl; try discriminate.
  - destruct (env !! x) as [[| | |]|]; try discriminate;
      intros [= <-]; eauto.
  - destruct (eval H R l env) as [a|]; simpl; [|by auto].
    destruct (eval H R r env) as [b|]; simpl; [|by auto].
    intros Hop%apply_op_raises.
    destruct Hop as [->|[->|[->| ->]]]; eauto 10.
Qed.

Lemma bind_args_raises H R env pas local ex :
  bind_args H R env pas local = Raise ex ->
  exists arg, arg ∈ pas.*2 /\ eval H R arg env = Raise ex.
Proof.
  revert local. induction pas as [|[p a] pas IH]; intros local; simpl;
    [discriminate|].
  destruct (eval H R a env) as [v|e] eqn:E; simpl.
  - intros (arg & Hin & Harg)%IH. exists arg. split; [|done].
    apply elem_of_cons. by right.
  - intros [= <-]. exists a. split; [|done]. apply elem_of_cons. by left.
Qed.

(** ** Induction on statements, through the blocks they contain *)

Lemma Stmt_nested_ind (P : Stmt -> Prop) :
  (forall name t, P (IngredientDecl name t)) ->
  (forall expr target, P (MixStmt expr target)) ->
  (forall expr, P (ServeStmt expr)) ->
  (forall prompt target, P (AskStmt prompt target)) ->
  (forall cond then_s else_s,
     Forall P then_s ->
     match else_s with Some else_b => Forall P else_b | None => True end ->
     P (IfStmt cond then_s else_s)) ->
  (forall start end_ body, Forall P body -> P (RepeatStmt start end_ body)) ->
  (forall name args, P (MakeStmt name args)) ->
  forall s, P s.
Proof.
  intros P_decl P_mix P_serve P_ask P_if P_repeat P_make.
  fix IH 1. intros s.
  assert (forall l : list Stmt, Forall P l) as all.
  { induction l as [|s' l' IHl]; constructor; [apply IH|exact IHl]. }
  destruct s as [name t|expr target|expr|prompt target
                |cond then_s else_s|start end_ body|name args].
  - apply P_decl.
  - apply P_mix.
  - apply P_serve.
  - apply P_ask.
  - apply P_if; [apply all|]. destruct else_s; [apply all|exact I].
  - apply P_repeat. apply all.
  - apply P_make.
Qed.

(** ** What a statement leaves untouched *)

Lemma exec_block_cons exec s rest w :
  exec_block exec (s :: rest) w
  = match exec s w with
    | Done w' => exec_block exec rest w'
    | Raised e w' => Raised e w'
    end.
Proof. reflexivity. Qed.

Lemma exec_block_app exec l1 l2 w :
  exec_block exec (l1 ++ l2) w
  = match exec_block exec l1 w with
    | Done w' => exec_block exec l2 w'
    | Raised e w' => Raised e w'
    end.
Proof.
  revert w. induction l1 as [|s l1 IH]; intros w; [done|].
  rewrite <- app_comm_cons, !exec_block_cons.
  destruct (exec s w); [apply IH|done].
Qed.

Lemma exec_block_frame (exec : Stmt -> World -> outcome) x l :
  Forall (fun s => forall w, assigns x s = false ->
            w_env (outcome_world (exec s w)) !! x = w_env w !! x) l ->
  existsb (assigns x) l = false ->
  forall w, w_env (outcome_world (exec_block exec l w)) !! x = w_env w !! x.
Proof.
  induction 1 as [|s l Hs _ IH]; intros Hx w; [done|].
  simpl in Hx. apply orb_false_elim in Hx as [Hx1 Hx2].
  rewrite exec_block_cons. specialize (Hs w Hx1).
  destruct (exec s w) as [w'|e w']; simpl in *; [|done].
  by rewrite IH.
Qed.

Lemma for_range_frame (body : World -> outcome) x r :
  x <> "i" ->
  (forall w, w_env (outcome_world (body w)) !! x = w_env w !! x) ->
  forall w, w_env (outcome_world (for_range body r w)) !! x = w_env w !! x.
Proof.
  intros Hx Hbody. induction r as [|i r IH]; intros w; [done|].
  simpl. specialize (Hbody (set_var "i" (VInt i) w)).
  destruct (body _) as [w'|e w']; simpl in *.
  - rewrite IH, Hbody. by apply lookup_insert_ne.
  - rewrite Hbody. by apply lookup_insert_ne.
Qed.

Lemma invoke_env H R call name params body args w :
  w_env (outcome_world (invoke H R call name params body args w)) = w_env w.
Proof.
  unfold invoke. destruct (negb _); [done|].
  destruct (bind_args _ _ _ _ _); [|done].
  by destruct (call _ _).
Qed.

Lemma exec_MakeStmt_env H R call name args w :
  w_env (outcome_world (exec_stmt H R call (MakeStmt name args) w)) = w_env w.
Proof.
  simpl. destruct (w_env w !! recipes_key) as [[| |s|]|]; try done.
  - by destruct (py_contains name s).
  - destruct (R !! name) as [[params body]|]; [|done]. apply invoke_env.
Qed.

(** A statement that does not assign [x] leaves the binding of [x] as it
    was, whether it returns or raises. *)
Lemma exec_stmt_frame H R call x s :
  forall w, assigns x s = false ->
  w_env (outcome_world (exec_stmt H R call s w)) !! x = w_env w !! x.
Proof.
  induction s as [name t|expr target|expr|prompt target
                 |cond then_s else_s IHt IHe|start end_ body IHb|name args]
    using Stmt_nested_ind; intros w Hx; cbn [assigns] in Hx.
  - apply String.eqb_neq in Hx. simpl. by apply lookup_insert_ne.
  - apply String.eqb_neq in Hx. simpl.
    destruct (eval _ _ _ _); simpl; [by apply lookup_insert_ne|done].
  - simpl. by destruct (eval _ _ _ _).
  - apply String.eqb_neq in Hx. simpl.
    destruct (eval _ _ _ _); simpl; [|done].
    destruct (w_in w); simpl; [done|]. by apply lookup_insert_ne.
  - apply orb_false_elim in Hx as [Hx1 Hx2]. simpl.
    destruct (eval _ _ _ _); [|done].
    destruct (py_bool R a).
    + by apply exec_block_frame.
    + destruct else_s as [[|s0 else_b]|]; [done| |done].
      by apply exec_block_frame.
  - apply orb_false_elim in Hx as [Hx1 Hx2]. simpl.
    destruct (eval H R start _) as [[| lo | |]|]; try done;
      destruct (eval H R end_ _) as [[| hi | |]|]; try done.
    apply for_range_frame.
    + apply String.eqb_neq in Hx1. congruence.
    + intros w'. by apply exec_block_frame.
  - by rewrite exec_MakeStmt_env.
Qed.

Lemma exec_main_frame H R call x l w :
  forallb (fun s => negb (assigns x s)) l = true ->
  w_env (outcome_world (exec_block (exec_stmt H R call) l w)) !! x
  = w_env w !! x.
Proof.
  intros Hl. apply exec_block_frame.
  - apply Forall_forall. intros s _ w'. apply exec_stmt_frame.
  - clear w. induction l as [|s l IH]; [done|]. simpl in *.
    apply andb_true_iff in Hl as [Hs Hl]. apply negb_true_iff in Hs.
    by rewrite Hs, IH.
Qed.

(** C9. Reading a variable that has no binding, or whose binding is the
    sentinel left by [ingredient], raises [UndefinedVariable]; no default
    value is produced.  This is still so after any statements that follow
    an [ingredient] declaration (or start from a frame without the name)
    and do not assign the variable. *)
Theorem Var_eval_unset_raises H R call :
  (forall env n, env !! n = None ->
     eval H R (Var n) env = Raise (UndefinedVariable n))
  /\ (forall env n, env !! n = Some VNone ->
        eval H R (Var n) env = Raise (UndefinedVariable n))
  /\ (forall name t stmts w,
        forallb (fun s => negb (assigns name s)) stmts = true ->
        let w' := outcome_world
                    (exec_block (exec_stmt H R call)
                       (IngredientDecl name t :: stmts) w) in
        w_env w' !! name = Some VNone
        /\ eval H R (Var name) (w_env w') = Raise (UndefinedVariable name))
  /\ (forall name stmts w,
        w_env w !! name = None ->
        forallb (fun s => negb (assigns name s)) stmts = true ->
        let w' := outcome_world
                    (exec_block (exec_stmt H R call) stmts w) in
        eval H R (Var name) (w_env w') = Raise (UndefinedVariable name)).
Proof.
  split; [apply eval_Var_unbound|].
  split; [apply eval_Var_declared|].
  split.
  - intros name t stmts w Hs w'.
    assert (w_env w' !! name = Some VNone) as E.
    { unfold w'. rewrite exec_block_cons. cbn [exec_stmt].
      rewrite exec_main_frame by done. apply lookup_insert_eq. }
    split; [done|]. by apply eval_Var_declared.
  - intros name stmts w Hw Hs w'. apply eval_Var_unbound.
    unfold w'. by rewrite exec_main_frame.
Qed.

Lemma Var_eval_unset_raises_witness :
  eval sample_host ∅ (Var "x")
    (w_env (outcome_world
       (exec_block (exec_stmt sample_host ∅ (call_recipe sample_host ∅ 1))
          [IngredientDecl "x" "Number"; MixStmt (Number 2) "y"]
          (start_world []))))
  = Raise (UndefinedVariable "x").
Proof.
  destruct (Var_eval_unset_raises sample_host ∅
              (call_recipe sample_host ∅ 1)) as (_ & _ & Hdecl & _).
  apply (Hdecl "x" "Number" [MixStmt (Number 2) "y"] (start_world [])).
  reflexivity.
Defined.

(** ** Conditionals *)

(** C1, as the code has it.  The test of an [if] is the truth value Python
    gives to the value of the condition: an integer is true unless it
    is 0, a string is true unless it is empty, and the recipe table is true
    unless it has no entry.  A true condition runs the then-block; a false
    one runs the else-block, or nothing when there is none. *)
Theorem IfStmt_eval_by_truth_value H R call cond then_s else_s w c :
  eval H R cond (w_env w) = Ok c ->
  let truthy := match c with
                | VInt n => n <> 0
                | VStr s => s <> ""
                | VRecipes => R <> ∅
                | VNone => False
                end in
  (truthy ->
     exec_stmt H R call (IfStmt cond then_s else_s) w
     = exec_block (exec_stmt H R call) then_s w)
  /\ (~ truthy ->
        exec_stmt H R call (IfStmt cond then_s else_s) w
        = match else_s with
          | Some else_b => exec_block (exec_stmt H R call) else_b w
          | None => Done w
          end).
Proof.
  intros Hc truthy. cbn [exec_stmt]. rewrite Hc.
  assert (py_bool R c = true <-> truthy) as Ht.
  { unfold truthy. destruct c; simpl.
    - split; [discriminate|tauto].
    - rewrite negb_true_iff, Z.eqb_neq. tauto.
    - rewrite negb_true_iff, String.eqb_neq. tauto.
    - rewrite negb_true_iff, bool_decide_eq_false. tauto. }
  split; intros Hyp.
  - apply Ht in Hyp. by rewrite Hyp.
  - destruct (py_bool R c); [tauto|].
    by destruct else_s as [[|s0 else_b]|].
Qed.

Lemma IfStmt_eval_by_truth_value_witness :
  exec_stmt sample_host ∅ (call_recipe sample_host ∅ 1)
    (IfStmt (StringLit "no") [ServeStmt (Number 1)]
            (Some [ServeStmt (Number 2)])) (start_world [])
  = Done (write (Printed "1") (start_world [])).
Proof.
  destruct (IfStmt_eval_by_truth_value sample_host ∅
              (call_recipe sample_host ∅ 1) (StringLit "no")
              [ServeStmt (Number 1)] (Some [ServeStmt (Number 2)])
              (start_world []) (VStr "no") eq_refl) as [Hthen _].
  rewrite Hthen; [reflexivity|discriminate].
Defined.

(** C1 as stated fails: the empty string is a string and is not the
    integer 0, yet [if ("") then { serve 1; } else { serve 2; }] runs the
    else-block. *)
Lemma IfStmt_empty_string_runs_else :
  VStr "" <> VInt 0
  /\ parse_text 20 text_if_empty_string
     = Some (Ok (mkProgram []
                   [IfStmt (StringLit "") [ServeStmt (Number 1)]
                           (Some [ServeStmt (Number 2)])]))
  /\ printed (run_file sample_host 20 8 text_if_empty_string [])
     = Some [Printed "2"]
  /\ exec_stmt sample_host ∅ (call_recipe sample_host ∅ 8)
       (IfStmt (StringLit "") [ServeStmt (Number 1)]
               (Some [ServeStmt (Number 2)])) (start_world [])
     <> exec_block (exec_stmt sample_host ∅ (call_recipe sample_host ∅ 8))
          [ServeStmt (Number 1)] (start_world []).
Proof.
  split; [discriminate|]. split; [reflexivity|]. split; [reflexivity|].
  discriminate.
Qed.

(** ** The values of expressions and the name [__recipes__] *)

(** C10, as the code has it.  A binding holds the sentinel, an integer, a
    string or the recipe table; every fresh frame binds the table under
    the variable name [__recipes__].  An expression that evaluates yields
    an integer or a string, or the recipe table when the expression is a
    variable whose binding holds the table; it never yields the sentinel. *)
Theorem eval_yields_int_str_or_table H R e env v :
  eval H R e env = Ok v ->
  ((exists n, v = VInt n) \/ (exists s, v = VStr s)
   \/ (v = VRecipes /\ exists x, e = Var x /\ env !! x = Some VRecipes))
  /\ v <> VNone
  /\ fresh_env !! "__recipes__" = Some VRecipes
  /\ eval H R (Var "__recipes__") fresh_env = Ok VRecipes.
Proof.
  intros Hv. split; [by eapply eval_value_shape|].
  split; [|done]. intros ->. by eapply eval_not_None.
Qed.

Lemma eval_yields_int_str_or_table_witness :
  (exists n, VInt 5 = VInt n) \/ (exists s, VInt 5 = VStr s)
  \/ (VInt 5 = VRecipes
      /\ exists x, BinOp (Number 2) "+" (Number 3) = Var x
                   /\ fresh_env !! x = Some VRecipes).
Proof.
  exact (proj1 (eval_yields_int_str_or_table sample_host ∅
                  (BinOp (Number 2) "+" (Number 3)) fresh_env (VInt 5)
                  eq_refl)).
Defined.

(** C10 as stated fails: in the frame a program starts with, the
    expression [__recipes__] evaluates to the recipe table, which is
    neither an integer nor a string; and in
    [mix 1 into __recipes__; make F(); recipe F() { }] the assignment
    replaces the frame's reference to the table, after which [make F();]
    raises a [TypeError] although [F] is a recipe of the program. *)
Lemma recipes_name_is_a_variable :
  tokenize "__recipes__" = Some (Ok [ID "__recipes__"; EOF])
  /\ eval sample_host ∅ (Var "__recipes__") (w_env (start_world []))
     = Ok VRecipes
  /\ (forall n, VRecipes <> VInt n)
  /\ (forall s, VRecipes <> VStr s)
  /\ parse_text 20 text_overwrite_table
     = Some (Ok (mkProgram [mkRecipeDef "F" [] []]
                   [MixStmt (Number 1) "__recipes__"; MakeStmt "F" []]))
  /\ exists w,
       run_file sample_host 20 8 text_overwrite_table []
       = Some (Ok (Raised TypeError w))
       /\ w_env w !! "__recipes__" = Some (VInt 1).
Proof.
  split; [reflexivity|]. split; [reflexivity|].
  split; [discriminate|]. split; [discriminate|]. split; [reflexivity|].
  eexists. split; reflexivity.
Qed.

(** ** Recipe calls *)

Lemma exec_MakeStmt_lookup H R call name args w params body :
  w_env w !! recipes_key = Some VRecipes ->
  R !! name = Some (params, body) ->
  exec_stmt H R call (MakeStmt name args) w
  = invoke H R call name params body args w.
Proof. intros Hk Hn. cbn [exec_stmt]. by rewrite Hk, Hn. Qed.

(** C7, as the code has it.  When the frame's [__recipes__] entry is the
    recipe table and the table has the recipe, a call whose number of
    arguments differs from the number of parameters raises [ArityMismatch]
    and leaves frame, input and output as they were: nothing of the body
    runs and no argument is evaluated, whatever running a body would do. *)
Theorem MakeStmt_eval_arity_mismatch H R call name args w params body :
  w_env w !! recipes_key = Some VRecipes ->
  R !! name = Some (params, body) ->
  length params <> length args ->
  exec_stmt H R call (MakeStmt name args) w
  = Raised (ArityMismatch name (length params) (length args)) w.
Proof.
  intros Hk Hn Hlen. rewrite (exec_MakeStmt_lookup _ _ _ _ _ _ _ _ Hk Hn).
  unfold invoke.
  destruct (Nat.eqb (length params) (length args)) eqn:E; [|done].
  apply Nat.eqb_eq in E. contradiction.
Qed.

Lemma MakeStmt_eval_arity_mismatch_witness :
  exec_stmt sample_host {[ "Foo" := (["a"], [ServeStmt (Var "a")]) ]}
    (call_recipe sample_host {[ "Foo" := (["a"], [ServeStmt (Var "a")]) ]} 3)
    (MakeStmt "Foo" []) (start_world [])
  = Raised (ArityMismatch "Foo" 1 0) (start_world []).
Proof.
  apply (MakeStmt_eval_arity_mismatch sample_host
           {[ "Foo" := (["a"], [ServeStmt (Var "a")]) ]} _ "Foo" []
           (start_world []) ["a"] [ServeStmt (Var "a")]).
  - reflexivity.
  - reflexivity.
  - simpl. lia.
Defined.

(** C7 as stated fails: in
    [recipe Foo(a) { serve a; } mix "x" into __recipes__; make Foo();]
    the recipe [Foo] is registered with one parameter and is called with
    no argument, and the call raises [RecipeNotFound], not
    [ArityMismatch]. *)
Lemma MakeStmt_after_rebinding_not_arity :
  let p := mkProgram [mkRecipeDef "Foo" ["a"] [ServeStmt (Var "a")]]
             [MixStmt (StringLit "x") "__recipes__"; MakeStmt "Foo" []] in
  parse_text 20 text_rebind_then_short_make = Some (Ok p)
  /\ foldl register ∅ (recipes p) !! "Foo"
     = Some (["a"], [ServeStmt (Var "a")])
  /\ exists w,
       run_file sample_host 20 8 text_rebind_then_short_make []
       = Some (Ok (Raised (RecipeNotFound "Foo") w)).
Proof.
  split; [reflexivity|]. split; [reflexivity|]. eexists. reflexivity.
Qed.

Lemma bind_args_spec H R env pas local local' :
  bind_args H R env pas local = Ok local' <->
  exists vals,
    Forall2 (fun pa v => eval H R pa.2 env = Ok v) pas vals
    /\ local' = foldl (fun m pv => <[pv.1.1 := pv.2]> m) local (zip pas vals).
Proof.
  revert local. induction pas as [|[p a] pas IH]; intros local; simpl.
  - split.
    + intros [= <-]. exists []. split; [constructor|done].
    + intros (vals & Hv & ->). by inversion Hv.
  - destruct (eval H R a env) as [v|e] eqn:E; simpl.
    + rewrite IH. split.
      * intros (vals & Hv & ->). exists (v :: vals). split; [|done].
        by constructor.
      * intros (vals & Hv & ->). inversion Hv as [|? v' ? vals' Hv1 Hv2];
          subst. simpl in Hv1. assert (v' = v) as -> by congruence.
        by exists vals'.
    + split; [discriminate|].
      intros (vals & Hv & _). inversion Hv; subst. simpl in *. congruence.
Qed.

Lemma bind_args_only_params H R env pas local local' x :
  bind_args H R env pas local = Ok local' ->
  x ∉ pas.*1 -> local' !! x = local !! x.
Proof.
  revert local. induction pas as [|[p a] pas IH]; intros local; simpl.
  - by intros [= <-].
  - destruct (eval H R a env) as [v|e]; simpl; [|discriminate].
    intros Hb Hx. apply not_elem_of_cons in Hx as [Hxp Hx].
    rewrite (IH _ Hb Hx). by apply lookup_insert_ne.
Qed.

(** C6. A recipe call that returns leaves the caller's frame as it was.
    The call found the recipe with as many parameters as arguments,
    evaluated every argument in the caller's frame, and ran the body in a
    frame built from the fresh frame by binding the parameters to these
    values: beside the table entry [__recipes__] that frame binds the
    parameters and nothing else, so whatever the body declares or assigns
    is stored there and dropped when the call returns. *)
Theorem MakeStmt_eval_keeps_caller_frame H R call name args w w' :
  exec_stmt H R call (MakeStmt name args) w = Done w' ->
  w_env w' = w_env w
  /\ exists params body vals local wl,
       R !! name = Some (params, body)
       /\ length params = length args
       /\ Forall2 (fun arg v => eval H R arg (w_env w) = Ok v) args vals
       /\ local = foldl (fun m pv => <[pv.1 := pv.2]> m) fresh_env
                    (zip params vals)
       /\ (forall x, x ∉ params -> x <> recipes_key -> local !! x = None)
       /\ call body (mkWorld local (w_in w) (w_out w)) = Done wl
       /\ w' = mkWorld (w_env w) (w_in wl) (w_out wl).
Proof.
  intros Hex. split.
  { rewrite <- (exec_MakeStmt_env H R call name args w). by rewrite Hex. }
  cbn [exec_stmt] in Hex.
  destruct (w_env w !! recipes_key) as [[| |s|]|]; try discriminate.
  { by destruct (py_contains name s). }
  destruct (R !! name) as [[params body]|]; [|discriminate].
  unfold invoke in Hex.
  destruct (Nat.eqb (length params) (length args)) eqn:Hlen;
    [|discriminate]. apply Nat.eqb_eq in Hlen. simpl in Hex.
  destruct (bind_args H R (w_env w) (combine params args) fresh_env)
    as [local|] eqn:Hb; [|discriminate].
  destruct (call body _) as [wl|] eqn:Hc; [|discriminate].
  injection Hex as <-.
  pose proof Hb as Hb'. apply bind_args_spec in Hb' as (vals & Hv & Hl).
  assert (length vals = length args) as Hvl.
  { apply Forall2_length in Hv. rewrite List.length_combine in Hv. lia. }
  exists params, body, vals, local, wl.
  split; [done|]. split; [done|]. split.
  { clear Hl Hb Hc. revert args vals Hlen Hvl Hv.
    induction params as [|p params IH]; intros [|a args] [|v vals];
      simpl; try discriminate; try lia; intros Hlen Hvl Hv.
    - constructor.
    - inversion Hv; subst. constructor; [done|]. apply IH; [lia|lia|done]. }
  split.
  { rewrite Hl. clear Hl Hb Hc. generalize fresh_env.
    revert args vals Hlen Hvl Hv.
    induction params as [|p params IH]; intros [|a args] [|v vals];
      simpl; try discriminate; try lia; intros Hlen Hvl Hv m; [done|].
    inversion Hv; subst. apply IH; [lia|lia|done]. }
  split; [|done].
  intros x Hx Hk. rewrite (bind_args_only_params _ _ _ _ _ _ x Hb).
  - by apply lookup_singleton_ne.
  - intros Hin. apply Hx. apply list_elem_of_fmap in Hin as [[p a] [-> Hin]].
    apply list_elem_of_In in Hin. apply in_combine_l in Hin.
    by apply list_elem_of_In.
Qed.

Lemma MakeStmt_eval_keeps_caller_frame_witness :
  let R : Recipes := {[ "Foo" := (["n"], [MixStmt (Number 9) "x";
                                          ServeStmt (Var "n")]) ]} in
  let w := set_var "x" (VInt 1) (start_world []) in
  exists w',
    exec_stmt sample_host R (call_recipe sample_host R 3)
      (MakeStmt "Foo" [Var "x"]) w = Done w'
    /\ w_out w' = [Printed "1"]
    /\ w_env w' = w_env w.
Proof.
  intros R w. eexists. split; [reflexivity|]. split; [reflexivity|].
  exact (proj1 (MakeStmt_eval_keeps_caller_frame sample_host R
                  (call_recipe sample_host R 3) "Foo" [Var "x"] w _
                  eq_refl)).
Defined.

(** A call that found its recipe reports [RecipeNotFound] only when that
    is raised while the body runs. *)
Lemma invoke_RecipeNotFound H R call name params body args w n w2 :
  invoke H R call name params body args w = Raised (RecipeNotFound n) w2 ->
  exists local wl,
    bind_args H R (w_env w) (combine params args) fresh_env = Ok local
    /\ call body (mkWorld local (w_in w) (w_out w))
       = Raised (RecipeNotFound n) wl.
Proof.
  unfold invoke. destruct (negb _); [discriminate|].
  destruct (bind_args _ _ _ _ _) as [local|ex] eqn:Hb.
  - destruct (call body _) as [wl|ex wl] eqn:Hc; [discriminate|].
    intros [= -> _]. eauto.
  - intros [= -> _]. apply bind_args_raises in Hb as (arg & _ & Harg).
    apply eval_raises in Harg.
    destruct Harg as [[? ?]|[?|[?|[?|[? ?]]]]]; discriminate.
Qed.

(** ** Registration before execution *)

Lemma foldl_register_lookup rs R0 name :
  (exists d, d ∈ rs /\ rd_name d = name) ->
  exists d, d ∈ rs /\ rd_name d = name
    /\ foldl register R0 rs !! name = Some (rd_params d, rd_body d).
Proof.
  induction rs as [|d rs IH] using rev_ind; intros (d0 & Hin & Hname).
  - by apply elem_of_nil in Hin.
  - rewrite foldl_app. simpl. unfold register at 1.
    destruct (decide (rd_name d = name)) as [E|E].
    + exists d. split.
      { apply elem_of_app. right. by apply list_elem_of_singleton. }
      split; [done|]. rewrite E. apply lookup_insert_eq.
    + apply elem_of_app in Hin as [Hin|Hin].
      * destruct IH as (d1 & Hin1 & Hn1 & Hl1); [by eauto|].
        exists d1. split; [apply elem_of_app; by left|]. split; [done|].
        by rewrite lookup_insert_ne.
      * apply list_elem_of_singleton in Hin. congruence.
Qed.

(** C5, as the code has it.  [Program.eval] registers every recipe of the
    program before the first top-level statement runs.  So when a
    top-level [make Foo(...)] is reached, wherever [recipe Foo] stands in
    the text, and the statements run before it have not assigned the name
    [__recipes__], the lookup of [Foo] succeeds: the call goes on to the
    arity test and the body of a definition of [Foo] in the program, the
    program continues from the outcome of that call, and the call reports
    [RecipeNotFound] only if running the body of [Foo] raised it. *)
Theorem Program_eval_make_finds_recipe H depth p stdin pre name args post w :
  main p = (pre ++ MakeStmt name args :: post)%list ->
  (exists d, d ∈ recipes p /\ rd_name d = name) ->
  forallb (fun s => negb (assigns recipes_key s)) pre = true ->
  let R := foldl register ∅ (recipes p) in
  let call := call_recipe H R depth in
  exec_block (exec_stmt H R call) pre (start_world stdin) = Done w ->
  exists d, d ∈ recipes p /\ rd_name d = name
    /\ R !! name = Some (rd_params d, rd_body d)
    /\ exec_stmt H R call (MakeStmt name args) w
       = invoke H R call name (rd_params d) (rd_body d) args w
    /\ Program_eval H depth p stdin
       = match invoke H R call name (rd_params d) (rd_body d) args w with
         | Done w' => exec_block (exec_stmt H R call) post w'
         | Raised e w' => Raised e w'
         end
    /\ (forall n w2,
          exec_stmt H R call (MakeStmt name args) w
          = Raised (RecipeNotFound n) w2 ->
          exists local wl,
            call (rd_body d) (mkWorld local (w_in w) (w_out w))
            = Raised (RecipeNotFound n) wl).
Proof.
  intros Hmain Hdef Hpre R call Hrun.
  destruct (foldl_register_lookup (recipes p) ∅ name Hdef)
    as (d & Hin & Hname & Hlook).
  assert (w_env w !! recipes_key = Some VRecipes) as Hk.
  { pose proof (exec_main_frame H R call recipes_key pre (start_world stdin)
                  Hpre) as Hf.
    rewrite Hrun in Hf. simpl in Hf. rewrite Hf. reflexivity. }
  assert (exec_stmt H R call (MakeStmt name args) w
          = invoke H R call name (rd_params d) (rd_body d) args w) as Hmake.
  { by apply exec_MakeStmt_lookup. }
  exists d. split; [done|]. split; [done|]. split; [done|]. split; [done|].
  split.
  - unfold Program_eval. fold R. fold call. rewrite Hmain.
    rewrite exec_block_app. fold (start_world stdin). rewrite Hrun.
    rewrite exec_block_cons. by rewrite Hmake.
  - intros n w2. rewrite Hmake.
    intros (local & wl & _ & Hbody)%invoke_RecipeNotFound. eauto.
Qed.

Lemma Program_eval_make_finds_recipe_witness :
  exists p w,
    parse_text 20 text_make_before_recipe = Some (Ok p)
    /\ main p = [MakeStmt "Foo" [Number 7]]
    /\ Program_eval sample_host 8 p [] = Done w
    /\ w_out w = [Printed "7"].
Proof.
  eexists. eexists. split; [reflexivity|]. split; [reflexivity|].
  destruct (Program_eval_make_finds_recipe sample_host 8
              (mkProgram [mkRecipeDef "Foo" ["n"] [ServeStmt (Var "n")]]
                         [MakeStmt "Foo" [Number 7]])
              [] [] "Foo" [Number 7] [] (start_world []))
    as (d & _ & _ & _ & _ & Hrun & _).
  - reflexivity.
  - eexists. split; [apply list_elem_of_singleton; reflexivity|reflexivity].
  - reflexivity.
  - reflexivity.
  - split; reflexivity.
Defined.

(** C5 as stated fails: in
    [mix "x" into __recipes__; make Foo(); recipe Foo() { }]
    the call stands before the definition, both at top level, and it
    raises [RecipeNotFound]. *)
Lemma make_after_rebinding_not_found :
  exists p w,
    tokenize text_rebind_then_make
    = Some (Ok [ID "mix"; STRING "x"; ID "into"; ID "__recipes__"; SYM ";";
                ID "make"; ID "Foo"; SYM "("; SYM ")"; SYM ";";
                ID "recipe"; ID "Foo"; SYM "("; SYM ")";
                SYM "{"; SYM "}"; EOF])
    /\ parse_text 20 text_rebind_then_make = Some (Ok p)
    /\ recipes p = [mkRecipeDef "Foo" [] []]
    /\ main p = [MixStmt (StringLit "x") "__recipes__"; MakeStmt "Foo" []]
    /\ Program_eval sample_host 8 p [] = Raised (RecipeNotFound "Foo") w.
Proof. do 2 eexists. repeat split; reflexivity. Qed.

(** ** Counting loops *)

Lemma for_range_runs body lo hi w :
  repeat_runs body lo hi w (for_range body (py_range lo (hi + 1)) w).
Proof.
  unfold py_range.
  remember (Z.to_nat (hi + 1 - lo)) as k eqn:Hk.
  revert lo w Hk. induction k as [|k IH]; intros lo w Hk.
  - assert (hi < lo) by lia.
    replace (seqZ lo (hi + 1 - lo)) with (@nil Z).
    + by constructor.
    + symmetry. apply seqZ_nil. lia.
  - assert (lo <= hi) by lia.
    rewrite seqZ_cons by lia. simpl.
    destruct (body (set_var "i" (VInt lo) w)) as [w1|e w1] eqn:Hb.
    + eapply runs_next; [done|exact Hb|].
      replace (Z.pred (hi + 1 - lo)) with (hi + 1 - (lo + 1)) by lia.
      replace (Z.succ lo) with (lo + 1) by lia.
      apply IH. lia.
    + by eapply runs_abort.
Qed.

Lemma repeat_runs_empty body lo hi w o :
  repeat_runs body lo hi w o -> hi < lo -> o = Done w.
Proof. destruct 1; [done|lia|lia]. Qed.

Lemma repeat_runs_last_index body lo hi w o w' :
  repeat_runs body lo hi w o ->
  (forall w0, w_env (outcome_world (body w0)) !! "i" = w_env w0 !! "i") ->
  lo <= hi -> o = Done w' -> w_env w' !! "i" = Some (VInt hi).
Proof.
  intros Hruns Hbody. induction Hruns as [lo hi w Hlt|lo hi w w1 o Hle Hb Hr IH
                                         |lo hi w e w1 Hle Hb];
    intros Hle' Ho; [lia| |discriminate].
  destruct (decide (lo = hi)) as [->|Hne].
  - assert (o = Done w1) as Ho1 by (eapply repeat_runs_empty; [done|lia]).
    assert (w' = w1) as -> by congruence.
    specialize (Hbody (set_var "i" (VInt hi) w)). rewrite Hb in Hbody.
    simpl in Hbody. rewrite Hbody. apply lookup_insert_eq.
  - apply IH; [lia|done].
Qed.

(** A loop over [serve i;] prints its indices, one line each, in order. *)
Lemma for_range_serve H R call r : forall w,
  exists w',
    for_range (exec_block (exec_stmt H R call) [ServeStmt (Var "i")]) r w
    = Done w'
    /\ w_out w' = (w_out w ++ ((fun i => Printed (pretty i)) <$> r))%list.
Proof.
  induction r as [|i r IH]; intros w.
  - exists w. split; [done|]. simpl. by rewrite app_nil_r.
  - cbn [for_range exec_block exec_stmt eval set_var w_env].
    rewrite lookup_insert_eq.
    destruct (IH (write (Printed (py_str H R (VInt i)))
                        (set_var "i" (VInt i) w))) as (w' & Hrun & Hout).
    exists w'. split; [exact Hrun|].
    rewrite Hout. simpl. by rewrite <- app_assoc.
Qed.

(** C4. When the bounds of a [repeat] evaluate to the integers [lo] and
    [hi], the statement runs the body once for each index from [lo] up to
    [hi], in ascending order, each time in the frame the previous
    iteration left with [i] bound to the index; a body that raises ends
    the loop.  With [hi < lo] nothing runs and the frame is untouched.
    The loop does not restore [i]: after a loop of at least one iteration
    whose body does not assign [i], the name [i] holds [hi].  With the
    body [serve i;] the loop prints the integers from [lo] to [hi], one
    line each, in ascending order. *)
Theorem RepeatStmt_eval_iterates H R call start end_ body w lo hi :
  eval H R start (w_env w) = Ok (VInt lo) ->
  eval H R end_ (w_env w) = Ok (VInt hi) ->
  let o := exec_stmt H R call (RepeatStmt start end_ body) w in
  repeat_runs (exec_block (exec_stmt H R call) body) lo hi w o
  /\ (hi < lo -> o = Done w)
  /\ (forall w', lo <= hi -> existsb (assigns "i") body = false ->
        o = Done w' -> w_env w' !! "i" = Some (VInt hi))
  /\ (body = [ServeStmt (Var "i")] ->
      exists w',
        o = Done w'
        /\ w_out w'
           = (w_out w
              ++ ((fun i => Printed (pretty i)) <$> seqZ lo (hi + 1 - lo)))%list).
Proof.
  intros Hlo Hhi o.
  assert (repeat_runs (exec_block (exec_stmt H R call) body) lo hi w o)
    as Hruns.
  { unfold o. cbn [exec_stmt]. rewrite Hlo, Hhi. apply for_range_runs. }
  split; [done|]. split; [|split].
  - intros Hlt. by eapply repeat_runs_empty.
  - intros w' Hle Hbody Ho. eapply repeat_runs_last_index; try done.
    intros w0. apply exec_block_frame; [|done].
    apply Forall_forall. intros s _ w1. apply exec_stmt_frame.
  - intros ->. unfold o. cbn [exec_stmt]. rewrite Hlo, Hhi.
    apply for_range_serve.
Qed.

Lemma RepeatStmt_eval_iterates_witness :
  exists w',
    exec_stmt sample_host ∅ (call_recipe sample_host ∅ 1)
      (RepeatStmt (Number 1) (Number 3) [ServeStmt (Var "i")])
      (start_world []) = Done w'
    /\ w_out w' = [Printed "1"; Printed "2"; Printed "3"]
    /\ w_env w' !! "i" = Some (VInt 3).
Proof.
  eexists. split; [reflexivity|]. split; [reflexivity|].
  destruct (RepeatStmt_eval_iterates sample_host ∅
              (call_recipe sample_host ∅ 1) (Number 1) (Number 3)
              [ServeStmt (Var "i")] (start_world []) 1 3 eq_refl eq_refl)
    as (_ & _ & Hlast & _).
  apply Hlast; [lia|reflexivity|reflexivity].
Defined.

(** [repeat 1 to 3 { serve i; }] prints 1, 2, 3 and
    [repeat 5 to 1 { serve i; }] prints nothing. *)
Example repeat_1_to_3_serves :
  printed (run_file sample_host 20 8 text_repeat_1_3 [])
  = Some [Printed "1"; Printed "2"; Printed "3"].
Proof. reflexivity. Qed.

Example repeat_5_to_1_serves_nothing :
  printed (run_file sample_host 20 8 text_repeat_5_1 []) = Some [].
Proof. reflexivity. Qed.

(** ** The parser, token by token *)

Lemma type_is_SYM_long c a b s :
  type_is (SYM c) (String a (String b s)) = false.
Proof.
  unfold type_is. cbn -[Ascii.eqb]. destruct (Ascii.eqb c a); reflexivity.
Qed.

Lemma type_is_SYM c d : type_is (SYM c) (String d "") = Ascii.eqb c d.
Proof.
  unfold type_is. cbn -[Ascii.eqb]. destruct (Ascii.eqb c d); reflexivity.
Qed.

Lemma value_is_SYM c d : value_is (SYM c) (String d "") = Ascii.eqb c d.
Proof.
  unfold value_is. cbn -[Ascii.eqb]. destruct (Ascii.eqb c d); reflexivity.
Qed.

Lemma type_is_SYM_inv t c : type_is t (String c "") = true -> t = SYM c.
Proof.
  destruct t as [v|v|v|v|c'|]; try (unfold type_is; cbn -[Ascii.eqb];
    destruct (Ascii.eqb _ c); discriminate).
  rewrite type_is_SYM. by intros ->%Ascii.eqb_eq.
Qed.

Lemma eat_ok ttype ts tok rest :
  eat ttype None ts = Some (Ok (tok, rest)) ->
  ts = tok :: rest /\ type_is tok ttype = true.
Proof.
  destruct ts as [|t ts']; [discriminate|]. unfold eat.
  destruct (type_is t ttype) eqn:E; simpl; [|discriminate].
  by intros [= <- <-].
Qed.

(** [parse_primary] by the shape of the current token. *)
Lemma parse_primary_view sub ts :
  parse_primary sub ts =
  match ts with
  | [] => fail IndexError
  | NUMBER v :: ts' => pure (Number v) ts'
  | STRING v :: ts' => pure (StringLit v) ts'
  | ID v :: ts' => pure (Var v) ts'
  | OP v :: ts' =>
      if String.eqb v "(" then fail (ParseExpected "(" None (OP v))
      else fail (ParseUnexpectedToken (OP v))
  | SYM c :: ts' =>
      if Ascii.eqb c "(" then
        letp (node, ts2) <- sub ts';
        letp (_, ts3) <- eat ")" None ts2;
        pure node ts3
      else fail (ParseUnexpectedToken (SYM c))
  | EOF :: _ => fail (ParseUnexpectedToken EOF)
  end.
Proof.
  destruct ts as [|[v|v|v|v|c|] ts']; try reflexivity.
  unfold parse_primary, eat.
  rewrite !type_is_SYM_long, value_is_SYM, type_is_SYM.
  by destruct (Ascii.eqb c "(").
Qed.

(** One turn of an operator loop by the shape of the current token. *)
Lemma binop_loop_view opv operand g node ts :
  binop_loop opv operand (S g) node ts =
  match ts with
  | [] => fail IndexError
  | OP v :: ts' =>
      if String.eqb v opv then
        letp (rhs, ts2) <- operand ts';
        binop_loop opv operand g (BinOp node v rhs) ts2
      else pure node ts
  | _ :: _ => pure node ts
  end.
Proof.
  destruct ts as [|[v|v|v|v|c|] ts']; try reflexivity.
  cbn [binop_loop]. by rewrite type_is_SYM_long.
Qed.

(** ** The parser returns trees of the grammar *)

Lemma parse_primary_sound sub :
  sound_for G_Eq sub -> sound_for G_Primary (parse_primary sub).
Proof.
  intros Hsub ts e rest. rewrite parse_primary_view.
  destruct ts as [|[v|v|v|v|c|] ts']; try discriminate.
  - intros [= <- <-]. exists [NUMBER v]. split; [done|constructor].
  - intros [= <- <-]. exists [STRING v]. split; [done|constructor].
  - intros [= <- <-]. exists [ID v]. split; [done|constructor].
  - by destruct (String.eqb v "(").
  - destruct (Ascii.eqb c "(") eqn:Ec; [|discriminate].
    apply Ascii.eqb_eq in Ec as ->.
    destruct (sub ts') as [[[node ts2]|]|] eqn:Es; try discriminate.
    cbn [pbind].
    destruct (eat ")" None ts2) as [[[tok ts3]|]|] eqn:Ee; try discriminate.
    cbn [pbind]. intros [= <- <-].
    apply Hsub in Es as (pre & -> & Hpre).
    apply eat_ok in Ee as [Hts Htok]. apply type_is_SYM_inv in Htok as ->.
    exists (SYM "(" :: pre ++ [SYM ")"]). split; [|by constructor].
    simpl. rewrite <- app_assoc. simpl. by rewrite Hts.
Qed.

Section Level_sound.

Variables (Glow Gup : list Token -> Expr -> Prop) (opv : string).
Variable operand : list Token -> presult Expr.
Hypothesis G_operand : forall ts e, Glow ts e -> Gup ts e.
Hypothesis G_step : forall ts1 e1 ts2 e2,
  Gup ts1 e1 -> Glow ts2 e2 ->
  Gup (ts1 ++ OP opv :: ts2)%list (BinOp e1 opv e2).
Hypothesis operand_sound : sound_for Glow operand.

Lemma binop_loop_sound gas : forall node ts pre0 e rest,
  Gup pre0 node ->
  binop_loop opv operand gas node ts = Some (Ok (e, rest)) ->
  exists pre, ts = (pre ++ rest)%list /\ Gup (pre0 ++ pre)%list e.
Proof.
  induction gas as [|g IH]; intros node ts pre0 e rest Hnode; [discriminate|].
  rewrite binop_loop_view.
  assert (pure node ts = Some (Ok (e, rest)) ->
          exists pre, ts = (pre ++ rest)%list /\ Gup (pre0 ++ pre)%list e)
    as Hstop.
  { intros [= <- <-]. exists []. by rewrite app_nil_r. }
  destruct ts as [|[v|v|v|v|c|] ts']; try discriminate; try exact Hstop.
  destruct (String.eqb v opv) eqn:Ev; [|exact Hstop].
  apply String.eqb_eq in Ev as ->.
  destruct (operand ts') as [[[rhs ts2]|]|] eqn:Eo; try discriminate.
  cbn [pbind]. intros Hloop.
  apply operand_sound in Eo as (pre1 & -> & Hrhs).
  apply (IH _ _ (pre0 ++ OP opv :: pre1)%list) in Hloop
    as (pre2 & -> & He); [|by apply G_step].
  exists (OP opv :: pre1 ++ pre2)%list. split.
  - simpl. by rewrite <- app_assoc.
  - by rewrite <- app_assoc in He.
Qed.

Lemma level_sound gas :
  sound_for Gup (fun ts =>
    letp (node, ts1) <- operand ts; binop_loop opv operand gas node ts1).
Proof.
  intros ts e rest.
  destruct (operand ts) as [[[node ts1]|]|] eqn:Eo; try discriminate.
  cbn [pbind]. intros Hloop.
  apply operand_sound in Eo as (pre1 & -> & Hnode).
  apply (binop_loop_sound _ _ _ pre1) in Hloop as (pre2 & -> & He);
    [|by apply G_operand].
  exists (pre1 ++ pre2)%list. split; [by rewrite <- app_assoc|done].
Qed.

End Level_sound.

Lemma parse_expr_sound gas : sound_for G_Eq (parse_expr gas).
Proof.
  induction gas as [|g IH]; [by intros ts e rest|].
  cbn [parse_expr]. unfold parse_eq.
  apply (level_sound G_Add G_Eq); [by constructor|by constructor|].
  unfold parse_add.
  apply (level_sound G_Mod G_Add); [by constructor|by constructor|].
  unfold parse_mod.
  apply (level_sound G_Primary G_Mod); [by constructor|by constructor|].
  by apply parse_primary_sound.
Qed.

(** ** The parser finds every tree of the grammar *)

Lemma follows_weaken ops ops' rest :
  (forall v, v ∈ ops' -> v ∈ ops) -> follows ops rest -> follows ops' rest.
Proof.
  intros Hsub (t & rest' & -> & Ht). exists t, rest'. split; [done|]. auto.
Qed.

Lemma follows_OP ops v rest : v ∉ ops -> follows ops (OP v :: rest).
Proof.
  intros Hv. exists (OP v), rest. split; [done|].
  intros v' Hv' [= ->]. contradiction.
Qed.

Lemma follows_not_OP ops t rest :
  type_is t "OP" = false -> follows ops (t :: rest).
Proof.
  intros Ht. exists t, rest. split; [done|]. intros v _ ->. discriminate.
Qed.

Lemma parse_primary_complete m sub :
  (forall pre e rest, G_Eq pre e -> (length pre + 2 <= m)%nat ->
     follows operators rest ->
     sub (pre ++ rest)%list = Some (Ok (e, rest))) ->
  forall pre e rest, G_Primary pre e -> (length pre <= m)%nat ->
    parse_primary sub (pre ++ rest)%list = Some (Ok (e, rest)).
Proof.
  intros Hsub pre e rest Hp Hlen. rewrite parse_primary_view.
  destruct Hp as [n|s|x|ts e He]; try reflexivity.
  cbn [app]. rewrite Ascii.eqb_refl.
  rewrite length_cons, length_app in Hlen. simpl in Hlen.
  rewrite <- app_assoc. cbn [app].
  rewrite (Hsub ts e (SYM ")" :: rest) He); [reflexivity|lia|].
  by apply follows_not_OP.
Qed.

Section Level_complete.

Variables (Glow Gup : list Token -> Expr -> Prop) (opv : string).
Variable ops : list string.
Variable operand : list Token -> presult Expr.
Variable m : nat.
Hypothesis Gup_cases : forall P : list Token -> Expr -> Prop,
  (forall ts e, Glow ts e -> P ts e) ->
  (forall ts1 e1 ts2 e2, Gup ts1 e1 -> P ts1 e1 -> Glow ts2 e2 ->
     P (ts1 ++ OP opv :: ts2)%list (BinOp e1 opv e2)) ->
  forall ts e, Gup ts e -> P ts e.
Hypothesis opv_fresh : opv ∉ ops.
Hypothesis operand_complete : complete_for Glow ops m operand.

(** Parsing the first operand of [pre] and looping [n] more turns than
    needed afterwards is looping from the tree of [pre]. *)
Lemma binop_loop_complete pre e :
  Gup pre e -> (length pre <= m)%nat ->
  exists n, (n <= length pre)%nat /\
    forall k rest, follows ops rest ->
      (letp (node, ts1) <- operand (pre ++ rest)%list;
       binop_loop opv operand (n + k) node ts1)
      = binop_loop opv operand k e rest.
Proof.
  intros Hg. induction Hg as [ts e Hlow|ts1 e1 ts2 e2 _ IH Hlow]
    using Gup_cases; intros Hlen.
  - exists O. split; [lia|]. intros k rest Hrest.
    by rewrite (operand_complete ts e rest).
  - rewrite length_app, length_cons in Hlen.
    destruct IH as (n & Hn & IH); [lia|].
    exists (S n). split; [rewrite length_app, length_cons; lia|].
    intros k rest Hrest. rewrite <- app_assoc.
    replace (S n + k)%nat with (n + S k)%nat by lia.
    rewrite IH by (by apply follows_OP).
    rewrite binop_loop_view. cbn [app]. rewrite String.eqb_refl.
    rewrite (operand_complete ts2 e2 rest); [reflexivity|done|lia|done].
Qed.

Lemma level_complete gas :
  (m + 1 <= gas)%nat ->
  complete_for Gup (opv :: ops) m
    (fun ts => letp (node, ts1) <- operand ts;
               binop_loop opv operand gas node ts1).
Proof.
  intros Hgas pre e rest Hg Hlen Hrest.
  destruct (binop_loop_complete pre e Hg Hlen) as (n & Hn & Hloop).
  replace gas with (n + S (gas - n - 1))%nat by lia.
  rewrite Hloop.
  - destruct Hrest as (t & rest' & -> & Ht). rewrite binop_loop_view.
    destruct t as [v|v|v|v|c|]; try reflexivity.
    destruct (String.eqb v opv) eqn:Ev; [|reflexivity].
    apply String.eqb_eq in Ev as ->.
    exfalso. apply (Ht opv); [apply elem_of_cons; by left|done].
  - eapply follows_weaken; [|exact Hrest]. intros v Hv.
    apply elem_of_cons. by right.
Qed.

End Level_complete.

Lemma parse_eq_complete m sub gas :
  (forall pre e rest, G_Eq pre e -> (length pre + 2 <= m)%nat ->
     follows operators rest ->
     sub (pre ++ rest)%list = Some (Ok (e, rest))) ->
  (m + 1 <= gas)%nat ->
  complete_for G_Eq operators m (parse_eq sub gas).
Proof.
  intros Hsub Hgas. unfold parse_eq, operators.
  apply (level_complete G_Add G_Eq); [apply G_Eq_ind| | |done].
  { rewrite !elem_of_cons, elem_of_nil. intros [|[|[]]]; discriminate. }
  unfold parse_add.
  apply (level_complete G_Mod G_Add); [apply G_Add_ind| | |done].
  { rewrite !elem_of_cons, elem_of_nil. intros [|[]]; discriminate. }
  unfold parse_mod.
  apply (level_complete G_Primary G_Mod);
    [apply G_Mod_ind|apply not_elem_of_nil| |done].
  intros pre e rest Hp Hlen _. by apply (parse_primary_complete m).
Qed.

Lemma parse_expr_complete m : forall gas,
  (m + 2 <= gas)%nat -> complete_for G_Eq operators m (parse_expr gas).
Proof.
  induction m as [|m IH]; intros [|g] Hgas; try lia; cbn [parse_expr].
  - apply parse_eq_complete; [|lia]. intros; lia.
  - apply parse_eq_complete; [|lia].
    intros pre e rest He Hlen Hrest. apply (IH g); [lia|done|lia|done].
Qed.

Lemma follows_EOF ops : follows ops [EOF].
Proof. by apply follows_not_OP. Qed.

Lemma G_Eq_unambiguous pre e e' : G_Eq pre e -> G_Eq pre e' -> e = e'.
Proof.
  intros He He'.
  pose proof (parse_expr_complete (length pre) (length pre + 2)
                ltac:(lia) pre e [EOF] He ltac:(lia) (follows_EOF _)) as H1.
  pose proof (parse_expr_complete (length pre) (length pre + 2)
                ltac:(lia) pre e' [EOF] He' ltac:(lia) (follows_EOF _)) as H2.
  congruence.
Qed.

(** ** Three operands and two operators *)

Lemma G_atom t a : atom t = Some a -> G_Primary [t] a.
Proof. destruct t; intros [= <-]; constructor. Qed.

Lemma G_Mod_2 ta tb a b :
  atom ta = Some a -> atom tb = Some b ->
  G_Mod [ta; OP "%"; tb] (BinOp a "%" b).
Proof.
  intros Ha Hb. apply (G_mod_op [ta] a [tb] b); [constructor|];
    by apply G_atom.
Qed.

Lemma G_Add_2 op ta tb a b :
  op = "+" \/ op = "%" ->
  atom ta = Some a -> atom tb = Some b ->
  G_Add [ta; OP op; tb] (BinOp a op b).
Proof.
  intros [->| ->] Ha Hb.
  - apply (G_add_op [ta] a [tb] b); repeat constructor; by apply G_atom.
  - constructor. by apply G_Mod_2.
Qed.

Lemma G_Eq_2 op ta tb a b :
  op ∈ operators ->
  atom ta = Some a -> atom tb = Some b ->
  G_Eq [ta; OP op; tb] (BinOp a op b).
Proof.
  unfold operators. rewrite !elem_of_cons, elem_of_nil.
  intros [->|[->|[->|[]]]] Ha Hb.
  - apply (G_eq_op [ta] a [tb] b); repeat constructor; by apply G_atom.
  - constructor. apply G_Add_2; auto.
  - constructor. apply G_Add_2; auto.
Qed.

Lemma G_Eq_infix3 ta o1 tb o2 tc a b c :
  atom ta = Some a -> atom tb = Some b -> atom tc = Some c ->
  o1 ∈ operators -> o2 ∈ operators ->
  G_Eq (infix3 ta o1 tb o2 tc) (tree3 a o1 b o2 c).
Proof.
  intros Ha Hb Hc Ho1 Ho2. unfold infix3.
  pose proof (G_atom _ _ Ha) as Ga. pose proof (G_atom _ _ Hc) as Gc.
  pose proof Ho1 as Ho1'. pose proof Ho2 as Ho2'.
  unfold operators in Ho1', Ho2'.
  rewrite !elem_of_cons, elem_of_nil in Ho1'.
  rewrite !elem_of_cons, elem_of_nil in Ho2'.
  destruct Ho2' as [->|[->|[->|[]]]].
  - (* ... == c *)
    replace (tree3 a o1 b "==" c) with (BinOp (BinOp a o1 b) "==" c)
      by (by destruct Ho1' as [->|[->|[->|[]]]]).
    apply (G_eq_op [ta; OP o1; tb] (BinOp a o1 b) [tc] c).
    + by apply G_Eq_2.
    + by repeat constructor.
  - (* ... + c *)
    destruct Ho1' as [->|[->|[->|[]]]].
    + apply (G_eq_op [ta] a [tb; OP "+"; tc] (BinOp b "+" c)).
      * by repeat constructor.
      * apply G_Add_2; auto.
    + constructor.
      apply (G_add_op [ta; OP "+"; tb] (BinOp a "+" b) [tc] c).
      * apply G_Add_2; auto.
      * by constructor.
    + constructor.
      apply (G_add_op [ta; OP "%"; tb] (BinOp a "%" b) [tc] c).
      * apply G_Add_2; auto.
      * by constructor.
  - (* ... % c *)
    destruct Ho1' as [->|[->|[->|[]]]].
    + apply (G_eq_op [ta] a [tb; OP "%"; tc] (BinOp b "%" c)).
      * by repeat constructor.
      * apply G_Add_2; auto.
    + constructor.
      apply (G_add_op [ta] a [tb; OP "%"; tc] (BinOp b "%" c)).
      * by repeat constructor.
      * by apply G_Mod_2.
    + do 2 constructor.
      apply (G_mod_op [ta; OP "%"; tb] (BinOp a "%" b) [tc] c).
      * by apply G_Mod_2.
      * done.
Qed.

(** C2. The parser and the three-level grammar agree.  Every expression
    the parser accepts is the tree of a derivation of the tokens it
    consumed, in which the operands of [%] are primaries, the operands of
    [+] are [%]-chains and the operands of [==] are [+]-chains, each chain
    grouping to the left; conversely the parser returns the tree of every
    derivation, and a token list has at most one tree.  For two operators
    between three operands the second operator takes the middle operand
    exactly when it binds tighter than the first, [%] before [+] before
    [==]; so [a + b % c] is [BinOp(a, '+', BinOp(b, '%', c))]. *)
Theorem parse_expr_precedence :
  (forall gas, sound_for G_Eq (parse_expr gas))
  /\ (forall pre e rest gas,
        G_Eq pre e -> follows operators rest ->
        (length pre + 2 <= gas)%nat ->
        parse_expr gas (pre ++ rest)%list = Some (Ok (e, rest)))
  /\ (forall pre e e', G_Eq pre e -> G_Eq pre e' -> e = e')
  /\ (forall ta tb tc a b c o1 o2 rest gas,
        atom ta = Some a -> atom tb = Some b -> atom tc = Some c ->
        o1 ∈ operators -> o2 ∈ operators ->
        follows operators rest -> (7 <= gas)%nat ->
        parse_expr gas (infix3 ta o1 tb o2 tc ++ rest)%list
        = Some (Ok (tree3 a o1 b o2 c, rest)))
  /\ (forall a b c,
        tree3 a "+" b "%" c = BinOp a "+" (BinOp b "%" c)
        /\ tree3 a "%" b "+" c = BinOp (BinOp a "%" b) "+" c
        /\ tree3 a "==" b "+" c = BinOp a "==" (BinOp b "+" c)
        /\ tree3 a "+" b "==" c = BinOp (BinOp a "+" b) "==" c
        /\ tree3 a "%" b "%" c = BinOp (BinOp a "%" b) "%" c
        /\ tree3 a "+" b "+" c = BinOp (BinOp a "+" b) "+" c
        /\ tree3 a "==" b "==" c = BinOp (BinOp a "==" b) "==" c).
Proof.
  split; [apply parse_expr_sound|].
  split.
  { intros pre e rest gas He Hrest Hgas.
    by apply (parse_expr_complete (length pre) gas). }
  split; [apply G_Eq_unambiguous|].
  split.
  { intros ta tb tc a b c o1 o2 rest gas Ha Hb Hc Ho1 Ho2 Hrest Hgas.
    apply (parse_expr_complete 5 gas); [lia| |done|done].
    by apply G_Eq_infix3. }
  intros a b c. repeat split.
Qed.

Lemma parse_expr_precedence_witness :
  parse_expr 7 [ID "a"; OP "+"; ID "b"; OP "%"; ID "c"; SYM ";"]
  = Some (Ok (BinOp (Var "a") "+" (BinOp (Var "b") "%" (Var "c")),
              [SYM ";"])).
Proof.
  destruct parse_expr_precedence as (_ & _ & _ & Hinfix & _).
  apply (Hinfix (ID "a") (ID "b") (ID "c") (Var "a") (Var "b") (Var "c")
           "+" "%" [SYM ";"] 7%nat); try reflexivity.
  - unfold operators. rewrite !elem_of_cons. auto.
  - unfold operators. rewrite !elem_of_cons. auto.
  - by apply follows_not_OP.
Defined.

(** ** The words [into], [to] and [then] *)

Lemma eat_ID_view tval_free ts :
  tval_free = @None string ->
  eat "ID" tval_free ts =
  match ts with
  | [] => fail IndexError
  | tok :: rest =>
      if type_is tok "ID" then pure tok rest
      else fail (ParseExpected "ID" None tok)
  end.
Proof.
  intros ->. destruct ts as [|tok rest]; [done|]. unfold eat.
  by rewrite andb_true_r.
Qed.

(** What the parser does where [into] (after the expression of a [mix],
    [fold] or [ask]), [to] (after the first bound of a [repeat]) or
    [then] (after the parenthesised condition of an [if]) belongs.  The
    call there is [eat('ID')], without the word: the parser goes on with
    the rest of the statement when the token is of type ID, whatever its
    value, and raises the [SyntaxError] that names the expected type ID
    and the token found when the token is of any other type. *)
Lemma keyword_positions_take_any_ID gas block kw ts expr tok rest :
  parse_expr gas ts = Some (Ok (expr, tok :: rest)) ->
  parse_mix gas (ID kw :: ts)
  = (if type_is tok "ID" then
       letp (targ, ts4) <- eat_name rest;
       letp (_, ts5) <- eat ";" None ts4;
       pure (MixStmt expr targ) ts5
     else fail (ParseExpected "ID" None tok))
  /\ parse_ask gas (ID kw :: ts)
     = (if type_is tok "ID" then
          letp (name, ts4) <- eat_name rest;
          letp (_, ts5) <- eat ";" None ts4;
          pure (AskStmt expr name) ts5
        else fail (ParseExpected "ID" None tok))
  /\ parse_repeat gas block (ID kw :: ts)
     = (if type_is tok "ID" then
          letp (end_, ts4) <- parse_expr gas rest;
          letp (body, ts5) <- block ts4;
          pure (RepeatStmt expr end_ body) ts5
        else fail (ParseExpected "ID" None tok))
  /\ (forall tok' rest',
        rest = tok' :: rest' -> tok = SYM ")" ->
        parse_if gas block (ID kw :: SYM "(" :: ts)
        = (if type_is tok' "ID" then
             letp (then_b, ts6) <- block rest';
             match ts6 with
             | [] => fail IndexError
             | t :: _ =>
                 if type_is t "ID"
                    && String.eqb (lower (value_str t)) "else"
                 then
                   letp (_, ts7) <- eat "ID" None ts6;
                   letp (else_b, ts8) <- block ts7;
                   pure (IfStmt expr then_b (Some else_b)) ts8
                 else pure (IfStmt expr then_b None) ts6
             end
           else fail (ParseExpected "ID" None tok'))).
Proof.
  intros Hexpr. repeat split.
  - unfold parse_mix.
    change (eat "ID" None (ID kw :: ts)) with (pure (ID kw) ts).
    cbn [pbind pure]. rewrite Hexpr.
    cbn [pbind]. rewrite eat_ID_view by done.
    by destruct (type_is tok "ID").
  - unfold parse_ask.
    change (eat "ID" None (ID kw :: ts)) with (pure (ID kw) ts).
    cbn [pbind pure]. rewrite Hexpr.
    cbn [pbind]. rewrite eat_ID_view by done.
    by destruct (type_is tok "ID").
  - unfold parse_repeat.
    change (eat "ID" None (ID kw :: ts)) with (pure (ID kw) ts).
    cbn [pbind pure]. rewrite Hexpr.
    cbn [pbind]. rewrite eat_ID_view by done.
    by destruct (type_is tok "ID").
  - intros tok' rest' -> ->. unfold parse_if.
    change (eat "ID" None (ID kw :: SYM "(" :: ts))
      with (pure (ID kw) (SYM "(" :: ts)).
    cbn [pbind pure].
    change (eat "(" None (SYM "(" :: ts)) with (pure (SYM "(") ts).
    cbn [pbind pure]. rewrite Hexpr. cbn [pbind].
    change (eat ")" None (SYM ")" :: tok' :: rest'))
      with (pure (SYM ")") (tok' :: rest')).
    cbn [pbind pure]. rewrite eat_ID_view by done.
    by destruct (type_is tok' "ID").
Qed.

Lemma keyword_positions_take_any_ID_witness :
  parse_mix 5 [ID "mix"; NUMBER 1; ID "banana"; ID "x"; SYM ";"; EOF]
  = Some (Ok (MixStmt (Number 1) "x", [EOF])).
Proof.
  destruct (keyword_positions_take_any_ID 5
              (parse_block (parse_stmt 5) 5) "mix"
              [NUMBER 1; ID "banana"; ID "x"; SYM ";"; EOF]
              (Number 1) (ID "banana") [ID "x"; SYM ";"; EOF] eq_refl)
    as [Hmix _].
  rewrite Hmix. reflexivity.
Defined.

(** C8 does not hold of the code, which misses a check it has the means
    for.  [Parser.eat] takes the value a token must have and raises the
    [SyntaxError] that names the expected and the actual token when the
    value differs: asked for [into], it refuses [banana].  No call passes a
    value, though.  The parser compares the head word of a statement,
    [else] and [recipe] by value before it eats them, but at the places of
    [into], [to] and [then] it names the word in a comment only
    ([self.eat('ID')  # into]), so that [mix 1 banana x;],
    [repeat 1 until 2 { }], [if (1) maybe { }] and [ask 0 in n;] parse as
    if the word was there. *)
Theorem other_words_parse :
  eat "ID" (Some "into") [ID "banana"; ID "x"; SYM ";"; EOF]
  = fail (ParseExpected "ID" (Some "into") (ID "banana"))
  /\ eat "ID" (Some "into") [ID "into"; ID "x"; SYM ";"; EOF]
     = pure (ID "into") [ID "x"; SYM ";"; EOF]
  /\ tokenize text_mix_banana
     = Some (Ok [ID "mix"; NUMBER 1; ID "banana"; ID "x"; SYM ";"; EOF])
  /\ parse_text 20 text_mix_banana
     = Some (Ok (mkProgram [] [MixStmt (Number 1) "x"]))
  /\ parse_text 20 text_repeat_until
     = Some (Ok (mkProgram [] [RepeatStmt (Number 1) (Number 2) []]))
  /\ parse_text 20 text_if_maybe
     = Some (Ok (mkProgram [] [IfStmt (Number 1) [] None]))
  /\ parse_text 20 text_ask_in
     = Some (Ok (mkProgram [] [AskStmt (Number 0) "n"])).
Proof. repeat split; reflexivity. Qed.

(** ** Whole runs *)

Example tokenize_precedence :
  tokenize text_precedence
  = Some (Ok [ID "serve"; NUMBER 1; OP "+"; NUMBER 7; OP "%"; NUMBER 4;
              OP "=="; NUMBER 4; SYM ";"; EOF]).
Proof. reflexivity. Qed.

Example parse_precedence :
  parse_text 20 text_precedence
  = Some (Ok (mkProgram []
       [ServeStmt (BinOp (BinOp (Number 1) "+"
                                (BinOp (Number 7) "%" (Number 4)))
                         "==" (Number 4))])).
Proof. reflexivity. Qed.

Example run_precedence :
  printed (run_file sample_host 20 8 text_precedence []) = Some [Printed "1"].
Proof. reflexivity. Qed.

Example run_sum :
  printed (run_file sample_host 20 8 text_sum []) = Some [Printed "5"].
Proof. reflexivity. Qed.

Example run_concat :
  printed (run_file sample_host 20 8 text_concat []) = Some [Printed "a1"].
Proof. reflexivity. Qed.

Example run_mod :
  printed (run_file sample_host 20 8 text_mod []) = Some [Printed "1"].
Proof. reflexivity. Qed.

Example run_eq :
  printed (run_file sample_host 20 8 text_eq_3_3 []) = Some [Printed "1"]
  /\ printed (run_file sample_host 20 8 text_eq_3_4 []) = Some [Printed "0"].
Proof. split; reflexivity. Qed.

Example tokenize_rejects_minus :
  tokenize "x - y" = Some (Raise (UnexpectedCharacter "-")).
Proof. reflexivity. Qed.

(** ** The bounds of the lexer and of the parser are enough *)

Lemma span_rest_length p s :
  (String.length (span p s).2 <= String.length s)%nat.
Proof.
  induction s as [|c s IH]; simpl; [lia|].
  destruct (p c); simpl; [|lia].
  destruct (span p s) as [run rest]. simpl in *. lia.
Qed.

Lemma span_rest_length_cons p c s :
  p c = true ->
  (String.length (span p (String c s)).2 <= String.length s)%nat.
Proof.
  intros Hc. simpl. rewrite Hc.
  pose proof (span_rest_length p s) as Hs.
  destruct (span p s) as [run rest]. simpl in *. lia.
Qed.

Lemma scan_total fuel : forall source tokens,
  (String.length source < fuel)%nat -> scan fuel source tokens <> None.
Proof.
  induction fuel as [|fuel IH]; intros source tokens Hlen; [lia|].
  destruct source as [|c after]; [done|]. cbn [scan].
  cbn [String.length] in Hlen.
  destruct (is_digit c) eqn:Hd.
  { pose proof (span_rest_length_cons is_digit c after Hd) as Hs.
    destruct (span is_digit (String c after)) as [val rest].
    apply IH. simpl in Hs. lia. }
  destruct (Ascii.eqb c quote).
  { pose proof (span_rest_length is_string_char after) as Hs.
    destruct (span is_string_char after) as [body rest]. simpl in Hs.
    destruct rest as [|c' rest']; [done|].
    destruct (Ascii.eqb c' quote); [|done].
    apply IH. cbn [String.length] in Hs. lia. }
  destruct (is_name_start c) eqn:Hn.
  { assert (is_word c = true) as Hw by (unfold is_word; by rewrite Hn).
    pose proof (span_rest_length_cons is_word c after Hw) as Hs.
    destruct (span is_word (String c after)) as [val rest].
    apply IH. simpl in Hs. lia. }
  destruct (Ascii.eqb c "=").
  { destruct after as [|c' rest]; [done|].
    destruct (Ascii.eqb c' "="); [|done].
    apply IH. cbn [String.length] in Hlen. lia. }
  destruct (Ascii.eqb c "%"); [apply IH; lia|].
  destruct (Ascii.eqb c "+"); [apply IH; lia|].
  destruct (is_symbol c); [apply IH; lia|].
  destruct (is_space c) eqn:Hsp; [|done].
  pose proof (span_rest_length_cons is_space c after Hsp) as Hs.
  destruct (span is_space (String c after)) as [skipped rest].
  apply IH. simpl in Hs. lia.
Qed.

Lemma tokenize_total source : tokenize source <> None.
Proof. apply scan_total. lia. Qed.

Lemma pbind_answers {A B : Type} (r : presult A)
    (k : A -> list Token -> presult B) :
  r <> None ->
  (forall a ts1, r = Some (Ok (a, ts1)) -> k a ts1 <> None) ->
  pbind r k <> None.
Proof.
  intros Hr Hk. destruct r as [[[a ts1]|e]|]; [by apply Hk|done|done].
Qed.

Lemma pbind_ok {A B : Type} (r : presult A)
    (k : A -> list Token -> presult B) b rest :
  pbind r k = Some (Ok (b, rest)) ->
  exists a ts1, r = Some (Ok (a, ts1)) /\ k a ts1 = Some (Ok (b, rest)).
Proof. destruct r as [[[a ts1]|e]|]; [eauto|done|done]. Qed.

Lemma eat_answers ttype tval ts : eat ttype tval ts <> None.
Proof. destruct ts as [|t ts]; [done|]. unfold eat. by destruct (_ && _). Qed.

Lemma eat_consumes ttype tval : consumes (eat ttype tval).
Proof.
  intros [|t ts] a rest; [done|]. unfold eat.
  destruct (_ && _); [|done]. intros [= <- <-]. simpl. lia.
Qed.

Lemma eat_name_answers ts : eat_name ts <> None.
Proof.
  unfold eat_name. apply pbind_answers; [apply eat_answers|done].
Qed.

Lemma eat_name_consumes : consumes eat_name.
Proof.
  intros ts a rest (tok & ts1 & He & Hp)%pbind_ok.
  apply eat_consumes in He. injection Hp as <- <-. done.
Qed.

(** A derivation of the grammar has at least one token. *)
Lemma G_Primary_nonempty pre e : G_Primary pre e -> (1 <= length pre)%nat.
Proof. destruct 1; simpl; lia. Qed.

Lemma G_Mod_nonempty pre e : G_Mod pre e -> (1 <= length pre)%nat.
Proof.
  induction 1 as [ts e Hp|ts1 e1 ts2 e2 _ IH _].
  - by eapply G_Primary_nonempty.
  - rewrite length_app. lia.
Qed.

Lemma G_Add_nonempty pre e : G_Add pre e -> (1 <= length pre)%nat.
Proof.
  induction 1 as [ts e Hp|ts1 e1 ts2 e2 _ IH _].
  - by eapply G_Mod_nonempty.
  - rewrite length_app. lia.
Qed.

Lemma G_Eq_nonempty pre e : G_Eq pre e -> (1 <= length pre)%nat.
Proof.
  induction 1 as [ts e Hp|ts1 e1 ts2 e2 _ IH _].
  - by eapply G_Add_nonempty.
  - rewrite length_app. lia.
Qed.

Lemma sound_consumes G p :
  (forall pre e, G pre e -> (1 <= length pre)%nat) ->
  sound_for G p -> consumes p.
Proof.
  intros Hne Hs ts e rest (pre & -> & Hg)%Hs.
  apply Hne in Hg. rewrite length_app. lia.
Qed.

Lemma parse_mod_sound sub gas :
  sound_for G_Eq sub -> sound_for G_Mod (parse_mod sub gas).
Proof.
  intros Hsub. unfold parse_mod.
  apply (level_sound G_Primary G_Mod); [by constructor|by constructor|].
  by apply parse_primary_sound.
Qed.

Lemma parse_add_sound sub gas :
  sound_for G_Eq sub -> sound_for G_Add (parse_add sub gas).
Proof.
  intros Hsub. unfold parse_add.
  apply (level_sound G_Mod G_Add); [by constructor|by constructor|].
  by apply parse_mod_sound.
Qed.

Lemma parse_expr_consumes gas : consumes (parse_expr gas).
Proof.
  apply (sound_consumes G_Eq); [apply G_Eq_nonempty|apply parse_expr_sound].
Qed.

Section Level_answers.

Variable opv : string.
Variable operand : list Token -> presult Expr.
Variable m : nat.
Hypothesis operand_answers : answers m operand.
Hypothesis operand_consumes : consumes operand.

Lemma binop_loop_answers gas : forall node ts,
  (length ts < gas)%nat -> (length ts <= m)%nat ->
  binop_loop opv operand gas node ts <> None.
Proof.
  induction gas as [|g IH]; intros node ts Hgas Hm; [lia|].
  rewrite binop_loop_view.
  destruct ts as [|[v|v|v|v|c|] ts']; try done.
  destruct (String.eqb v opv); [|done]. cbn [length] in *.
  apply pbind_answers; [apply operand_answers; lia|].
  intros rhs ts2 Hrhs%operand_consumes. apply IH; lia.
Qed.

Lemma level_answers gas :
  (m <= gas)%nat ->
  answers m (fun ts => letp (node, ts1) <- operand ts;
                       binop_loop opv operand gas node ts1).
Proof.
  intros Hgas ts Hm. apply pbind_answers; [by apply operand_answers|].
  intros node ts1 Hnode%operand_consumes. apply binop_loop_answers; lia.
Qed.

End Level_answers.

Lemma parse_primary_answers m sub :
  (forall ts, (length ts < m)%nat -> sub ts <> None) ->
  answers m (parse_primary sub).
Proof.
  intros Hsub ts Hm. rewrite parse_primary_view.
  destruct ts as [|[v|v|v|v|c|] ts']; try done.
  - by destruct (String.eqb v "(").
  - destruct (Ascii.eqb c "("); [|done]. cbn [length] in Hm.
    apply pbind_answers; [apply Hsub; lia|]. intros node ts2 _.
    apply pbind_answers; [apply eat_answers|done].
Qed.

Lemma parse_expr_answers gas : forall ts,
  (length ts < gas)%nat -> parse_expr gas ts <> None.
Proof.
  induction gas as [|g IH]; intros ts Hlen; [lia|].
  cbn [parse_expr].
  assert (sound_for G_Eq (parse_expr g)) as Hs by apply parse_expr_sound.
  apply (level_answers "==" (parse_add (parse_expr g) g) g); [| |lia|lia].
  - apply (level_answers "+" (parse_mod (parse_expr g) g) g); [| |lia].
    + apply (level_answers "%" (parse_primary (parse_expr g)) g); [| |lia].
      * by apply parse_primary_answers.
      * apply (sound_consumes G_Primary);
          [apply G_Primary_nonempty|by apply parse_primary_sound].
    + apply (sound_consumes G_Mod);
        [apply G_Mod_nonempty|by apply parse_mod_sound].
  - apply (sound_consumes G_Add);
      [apply G_Add_nonempty|by apply parse_add_sound].
Qed.

Ltac consumed E :=
  first [ apply eat_consumes in E
        | apply eat_name_consumes in E
        | apply parse_expr_consumes in E
        | match goal with
          | Hc : consumes ?p |- _ => apply Hc in E
          | Hc : shrinks ?p |- _ => apply Hc in E
          end ];
  cbn [length] in E.

Ltac len := cbn [length] in *; lia.

Ltac chain H :=
  repeat (let a := fresh "a" in let ts := fresh "ts" in
          let E := fresh "E" in
          apply pbind_ok in H as (a & ts & E & H); consumed E).

Ltac answer :=
  repeat (apply pbind_answers;
          [ first [ apply eat_answers | apply eat_name_answers
                  | apply parse_expr_answers; cbn [length] in *; lia ]
          | let E := fresh "E" in intros ? ? E; consumed E ]).

Section Statement_answers.

Variable gas : nat.
Variable block : list Token -> presult (list Stmt).
Hypothesis block_consumes : consumes block.

Lemma parse_decl_consumes : consumes parse_decl.
Proof.
  intros ts s rest H. unfold parse_decl in H. chain H.
  injection H as <- <-. len.
Qed.

Lemma parse_mix_consumes : consumes (parse_mix gas).
Proof.
  intros ts s rest H. unfold parse_mix in H. chain H.
  injection H as <- <-. len.
Qed.

Lemma parse_serve_consumes : consumes (parse_serve gas).
Proof.
  intros ts s rest H. unfold parse_serve in H. chain H.
  injection H as <- <-. len.
Qed.

Lemma parse_ask_consumes : consumes (parse_ask gas).
Proof.
  intros ts s rest H. unfold parse_ask in H. chain H.
  injection H as <- <-. len.
Qed.

Lemma parse_repeat_consumes : consumes (parse_repeat gas block).
Proof.
  intros ts s rest H. unfold parse_repeat in H. chain H.
  injection H as <- <-. len.
Qed.

Lemma parse_if_consumes : consumes (parse_if gas block).
Proof.
  intros ts s rest H. unfold parse_if in H. chain H.
  destruct ts5 as [|t ts5']; [done|].
  destruct (_ && _).
  - chain H. injection H as <- <-. len.
  - injection H as <- <-. len.
Qed.

Lemma args_loop_shrinks n : forall args, shrinks (args_loop gas n args).
Proof.
  induction n as [|n IH]; intros args ts a rest H; [done|].
  cbn [args_loop] in H. destruct ts as [|t ts']; [done|].
  destruct (value_is t ",").
  - chain H. apply IH in H. len.
  - injection H as <- <-. len.
Qed.

Lemma parse_make_consumes : consumes (parse_make gas).
Proof.
  intros ts s rest H. unfold parse_make in H. chain H.
  apply pbind_ok in H as (args & ts4 & Hargs & H). chain H.
  injection H as <- <-.
  assert (length ts4 <= length ts2)%nat; [|len].
  destruct ts2 as [|t ts2']; [done|].
  destruct (_ || _).
  - chain Hargs. apply args_loop_shrinks in Hargs. len.
  - injection Hargs as <- <-. len.
Qed.

Lemma parse_decl_answers ts : parse_decl ts <> None.
Proof. unfold parse_decl. answer. done. Qed.

Lemma parse_mix_answers ts :
  (length ts <= gas)%nat -> parse_mix gas ts <> None.
Proof. intros Hlen. unfold parse_mix. answer. done. Qed.

Lemma parse_serve_answers ts :
  (length ts <= gas)%nat -> parse_serve gas ts <> None.
Proof. intros Hlen. unfold parse_serve. answer. done. Qed.

Lemma parse_ask_answers ts :
  (length ts <= gas)%nat -> parse_ask gas ts <> None.
Proof. intros Hlen. unfold parse_ask. answer. done. Qed.

Lemma args_loop_answers n : forall args ts,
  (length ts < n)%nat -> (length ts <= gas)%nat ->
  args_loop gas n args ts <> None.
Proof.
  induction n as [|n IH]; intros args ts Hn Hgas; [len|].
  cbn [args_loop]. destruct ts as [|t ts']; [done|].
  destruct (value_is t ","); [|done]. cbn [length] in *.
  answer. apply IH; len.
Qed.

Lemma parse_make_answers ts :
  (length ts <= gas)%nat -> parse_make gas ts <> None.
Proof.
  intros Hlen. unfold parse_make. answer.
  apply pbind_answers.
  - destruct ts2 as [|t ts2']; [done|].
    destruct (_ || _); [|done]. answer. apply args_loop_answers; len.
  - intros args ts4 _. answer. done.
Qed.

Hypothesis block_answers : forall ts, (length ts < gas)%nat -> block ts <> None.

Lemma parse_repeat_answers ts :
  (length ts <= gas)%nat -> parse_repeat gas block ts <> None.
Proof.
  intros Hlen. unfold parse_repeat. answer.
  apply pbind_answers; [apply block_answers; len|]. by intros.
Qed.

Lemma parse_if_answers ts :
  (length ts <= gas)%nat -> parse_if gas block ts <> None.
Proof.
  intros Hlen. unfold parse_if. answer.
  apply pbind_answers; [apply block_answers; len|].
  intros then_b ts6 Ethen. consumed Ethen.
  destruct ts6 as [|t ts6']; [done|].
  destruct (_ && _); [|done]. answer.
  apply pbind_answers; [apply block_answers; len|]. by intros.
Qed.

End Statement_answers.

Section Block_answers.

Variable parse_one : list Token -> presult Stmt.
Hypothesis one_consumes : consumes parse_one.

Lemma block_loop_shrinks n :
  forall stmts, shrinks (block_loop parse_one n stmts).
Proof.
  induction n as [|n IH]; intros stmts ts a rest H; [done|].
  cbn [block_loop] in H. destruct ts as [|t ts']; [done|].
  destruct (negb _).
  - chain H. apply IH in H. len.
  - injection H as <- <-. len.
Qed.

Lemma parse_block_consumes n : consumes (parse_block parse_one n).
Proof.
  intros ts a rest H. unfold parse_block in H. chain H.
  apply pbind_ok in H as (stmts & ts2 & Hloop & H).
  apply block_loop_shrinks in Hloop. chain H.
  injection H as <- <-. len.
Qed.

Variable m : nat.
Hypothesis one_answers : forall ts, (length ts < m)%nat -> parse_one ts <> None.

Lemma block_loop_answers n : forall stmts ts,
  (length ts < n)%nat -> (length ts < m)%nat ->
  block_loop parse_one n stmts ts <> None.
Proof.
  induction n as [|n IH]; intros stmts ts Hn Hm; [len|].
  cbn [block_loop]. destruct ts as [|t ts']; [done|].
  destruct (negb _); [|done].
  apply pbind_answers; [by apply one_answers|].
  intros s ts1 Eone. consumed Eone. apply IH; len.
Qed.

Lemma parse_block_answers n ts :
  (length ts <= n)%nat -> (length ts <= m)%nat ->
  parse_block parse_one n ts <> None.
Proof.
  intros Hn Hm. unfold parse_block. answer.
  apply pbind_answers; [apply block_loop_answers; len|].
  intros stmts ts2 _. answer. done.
Qed.

End Block_answers.

Lemma parse_stmt_consumes gas : consumes (parse_stmt gas).
Proof.
  induction gas as [|g IH]; intros ts s rest H; [done|].
  cbn [parse_stmt] in H.
  pose proof (parse_block_consumes (parse_stmt g) IH g) as Hblock.
  destruct ts as [|tok ts']; [done|].
  destruct (type_is tok "ID"); [|done].
  repeat match type of H with
         | (if ?c then _ else _) = _ => destruct c
         end; try done.
  - by apply parse_mix_consumes in H.
  - by apply parse_serve_consumes in H.
  - by apply parse_ask_consumes in H.
  - by apply parse_if_consumes in H.
  - by apply parse_repeat_consumes in H.
  - by apply parse_make_consumes in H.
  - by apply parse_decl_consumes in H.
Qed.

Lemma parse_stmt_answers gas : forall ts,
  (length ts < gas)%nat -> parse_stmt gas ts <> None.
Proof.
  induction gas as [|g IH]; intros ts Hlen; [len|].
  cbn [parse_stmt].
  assert (forall ts', (length ts' < g)%nat ->
            parse_block (parse_stmt g) g ts' <> None) as Hblock.
  { intros ts' Hts'. apply (parse_block_answers _ (parse_stmt_consumes g) g);
      [done|len|len]. }
  pose proof (parse_block_consumes (parse_stmt g) (parse_stmt_consumes g) g)
    as Hblockc.
  destruct ts as [|tok ts']; [done|].
  destruct (type_is tok "ID"); [|done].
  repeat match goal with
         | |- (if ?c then _ else _) <> _ => destruct c
         end; try done.
  - apply parse_mix_answers. len.
  - apply parse_serve_answers. len.
  - apply parse_ask_answers. len.
  - apply (parse_if_answers g _ Hblockc Hblock). len.
  - apply (parse_repeat_answers g _ Hblock). len.
  - apply parse_make_answers. len.
  - apply parse_decl_answers.
Qed.

Lemma params_loop_shrinks n : forall params, shrinks (params_loop n params).
Proof.
  induction n as [|n IH]; intros params ts a rest H; [done|].
  cbn [params_loop] in H. destruct ts as [|t ts']; [done|].
  destruct (value_is t ",").
  - chain H. apply IH in H. len.
  - injection H as <- <-. len.
Qed.

Lemma params_loop_answers n : forall params ts,
  (length ts < n)%nat -> params_loop n params ts <> None.
Proof.
  induction n as [|n IH]; intros params ts Hn; [len|].
  cbn [params_loop]. destruct ts as [|t ts']; [done|].
  destruct (value_is t ","); [|done]. cbn [length] in *.
  answer. apply IH; len.
Qed.

Lemma parse_recipe_consumes gas : consumes (parse_recipe gas).
Proof.
  intros ts r rest H. unfold parse_recipe in H. chain H.
  apply pbind_ok in H as (params & ts4 & Hparams & H).
  pose proof (parse_block_consumes (parse_stmt gas)
                (parse_stmt_consumes gas) gas) as Hblock.
  chain H. injection H as <- <-.
  assert (length ts4 <= length ts2)%nat; [|len].
  destruct ts2 as [|t ts2']; [done|].
  destruct (type_is t "ID").
  - chain Hparams. apply params_loop_shrinks in Hparams. len.
  - injection Hparams as <- <-. len.
Qed.

Lemma parse_recipe_answers gas ts :
  (length ts <= gas)%nat -> parse_recipe gas ts <> None.
Proof.
  intros Hlen. unfold parse_recipe. answer.
  apply pbind_answers.
  - destruct ts2 as [|t ts2']; [done|].
    destruct (type_is t "ID"); [|done]. answer.
    apply params_loop_answers. cbn [length] in *. len.
  - intros params ts4 Hparams.
    assert (length ts4 <= length ts2)%nat.
    { destruct ts2 as [|t ts2']; [done|].
      destruct (type_is t "ID").
      - chain Hparams. apply params_loop_shrinks in Hparams. len.
      - injection Hparams as <- <-. len. }
    answer. apply pbind_answers; [|by intros].
    apply (parse_block_answers _ (parse_stmt_consumes gas) gas);
      [apply parse_stmt_answers|len|len].
Qed.

Lemma parse_loop_answers gas : forall rs ms ts,
  (length ts + 1 < gas)%nat -> parse_loop gas rs ms ts <> None.
Proof.
  induction gas as [|g IH]; intros rs ms ts Hlen; [len|].
  cbn [parse_loop]. destruct ts as [|t ts']; [done|].
  destruct (negb _); [|done]. destruct (_ && _).
  - pose proof (parse_recipe_answers g (t :: ts') ltac:(lia)) as Hr.
    destruct (parse_recipe g (t :: ts')) as [[[r ts1]|e]|] eqn:E; try done.
    apply parse_recipe_consumes in E. apply IH. len.
  - pose proof (parse_stmt_answers g (t :: ts') ltac:(lia)) as Hs.
    destruct (parse_stmt g (t :: ts')) as [[[s ts1]|e]|] eqn:E; try done.
    apply parse_stmt_consumes in E. apply IH. len.
Qed.

Theorem parse_answers tokens : parse (length tokens + 2) tokens <> None.
Proof. apply parse_loop_answers. len. Qed.

(** Every text has a run: the lexer always answers, and the parser answers
    with a bound two above the number of tokens. *)
Theorem run_answers H depth code stdin :
  exists gas, run_file H gas depth code stdin <> None.
Proof.
  unfold run_file, parse_text.
  destruct (tokenize code) as [[tokens|e]|] eqn:Et.
  - exists (length tokens + 2)%nat.
    pose proof (parse_answers tokens) as Hp.
    by destruct (parse (length tokens + 2) tokens) as [[ast|e]|].
  - by exists O.
  - by apply tokenize_total in Et.
Qed.

(** * Further properties of the evaluator *)

(** ** Frames *)

(** X1. A block changes only the names its statements store into: every
    other binding of the frame is after the block what it was before,
    whether the block returns or raises, and whatever the recipes it calls
    do.  In particular a [make] leaves the whole frame of its caller as it
    was, also when the call raises. *)
Theorem block_changes_only_its_targets H R call l w :
  (forall x, existsb (assigns x) l = false ->
     w_env (outcome_world (exec_block (exec_stmt H R call) l w)) !! x
     = w_env w !! x)
  /\ (forall name args,
        w_env (outcome_world (exec_stmt H R call (MakeStmt name args) w))
        = w_env w).
Proof.
  split.
  - intros x Hx. apply exec_block_frame; [|done].
    apply Forall_forall. intros s _ w'. apply exec_stmt_frame.
  - intros name args. apply exec_MakeStmt_env.
Qed.

Lemma block_changes_only_its_targets_witness :
  let R : Recipes := {[ "F" := ([], [MixStmt (Number 9) "x"]) ]} in
  w_env (outcome_world
    (exec_block (exec_stmt sample_host R (call_recipe sample_host R 3))
       [MixStmt (Number 2) "y"; MakeStmt "F" []; ServeStmt (Var "z")]
       (set_var "x" (VInt 1) (start_world [])))) !! "x"
  = Some (VInt 1).
Proof.
  intros R.
  rewrite (proj1 (block_changes_only_its_targets sample_host R
                    (call_recipe sample_host R 3)
                    [MixStmt (Number 2) "y"; MakeStmt "F" [];
                     ServeStmt (Var "z")]
                    (set_var "x" (VInt 1) (start_world []))) "x" eq_refl).
  reflexivity.
Defined.

(** X2. What [mix e into x] stores is what reading [x] gives next: when
    [e] evaluates to [v], the statement returns, only the binding of [x]
    has changed, and [Var x] evaluates to [v] in the new frame (the value
    of an expression is never the [None] that [ingredient] stores).  When
    [e] raises, the statement raises the same exception and the world is
    untouched. *)
Theorem MixStmt_eval_then_Var H R call e x w :
  match eval H R e (w_env w) with
  | Ok v =>
      exists w',
        exec_stmt H R call (MixStmt e x) w = Done w'
        /\ eval H R (Var x) (w_env w') = Ok v
        /\ (forall y, y <> x -> w_env w' !! y = w_env w !! y)
        /\ w_in w' = w_in w /\ w_out w' = w_out w
  | Raise ex => exec_stmt H R call (MixStmt e x) w = Raised ex w
  end.
Proof.
  cbn [exec_stmt]. destruct (eval H R e (w_env w)) as [v|ex] eqn:E; [|done].
  eexists. split; [done|]. split; [|split; [|done]].
  - cbn [eval set_var w_env]. rewrite lookup_insert_eq.
    destruct v; try done. by apply eval_not_None in E.
  - intros y Hy. cbn [set_var w_env]. by rewrite lookup_insert_ne.
Qed.

(** ** The operator [%] on integers *)

(** X3. [a % b] on two integers: a zero divisor raises
    [ZeroDivisionError]; otherwise the result [r] is the remainder of the
    floored division, [a = q * b + r] with [r] between zero and the
    divisor, so that it has the sign of the divisor. *)
Theorem BinOp_eval_mod_int H R lhs rhs env a b :
  eval H R lhs env = Ok (VInt a) ->
  eval H R rhs env = Ok (VInt b) ->
  (b = 0 -> eval H R (BinOp lhs "%" rhs) env = Raise ZeroDivisionError)
  /\ (b <> 0 ->
      exists q r,
        eval H R (BinOp lhs "%" rhs) env = Ok (VInt r)
        /\ a = q * b + r
        /\ (0 < b -> 0 <= r < b)
        /\ (b < 0 -> b < r <= 0)).
Proof.
  intros Ha Hb. cbn [eval]. rewrite Ha, Hb. cbn [bind].
  unfold apply_op. cbn [String.eqb Ascii.eqb Bool.eqb]. cbn [py_mod].
  split.
  - intros ->. done.
  - intros Hne. apply Z.eqb_neq in Hne as Hne'. rewrite Hne'.
    exists (a `div` b), (a `mod` b). split; [done|]. split.
    + rewrite Z.mul_comm. by apply Z.div_mod.
    + split; intros Hs.
      * by apply Z.mod_pos_bound.
      * by apply Z.mod_neg_bound.
Qed.

Lemma BinOp_eval_mod_int_witness :
  exists q r,
    eval sample_host ∅ (BinOp (Number (-7)) "%" (Number 3)) fresh_env
    = Ok (VInt r)
    /\ -7 = q * 3 + r /\ (0 < 3 -> 0 <= r < 3) /\ (3 < 0 -> 3 < r <= 0).
Proof.
  apply (proj2 (BinOp_eval_mod_int sample_host ∅ (Number (-7)) (Number 3)
                  fresh_env (-7) 3 eq_refl eq_refl)).
  lia.
Defined.

(** ** Expressions that cannot fail *)


Lemma exceeds_on m len : exceeds m len = true -> (0 < m < len)%nat.
Proof.
  unfold exceeds. intros [Hm Hl]%andb_true_iff.
  apply Nat.ltb_lt in Hm, Hl. lia.
Qed.

(** Without the digit limit [str] is [py_str]. *)
Lemma str_limited_off H R v : str_limited H R 0 v = Ok (py_str H R v).
Proof. by destruct v. Qed.


Lemma apply_op_limited_off H R op a b :
  apply_op_limited H R 0 op a b = apply_op H R op a b.
Proof.
  unfold apply_op_limited, apply_op. by rewrite !str_limited_off.
Qed.

(** The evaluator without limits is the one with the digit limit off and
    a stack as high as the expression. *)
Lemma eval_limited_off H R env e : forall stack,
  (height e <= stack)%nat -> eval_limited H R 0 stack e env = eval H R e env.
Proof.
  induction e as [n|s|x|lhs IHl op rhs IHr]; intros [|stack] Hs;
    simpl in Hs; try lia; try done.
  cbn [eval_limited eval]. rewrite IHl, IHr by lia.
  destruct (eval H R lhs env) as [a|]; [|done].
  destruct (eval H R rhs env) as [b|]; [|done].
  cbn [bind]. apply apply_op_limited_off.
Qed.



(** The two ways the runtime stops such an expression: [(1 + 2) + 3] with
    two frames left where it takes three, and the [str] of an integer of
    641 digits under a limit of 640, the lowest the runtime can be set to;
    [==] turns no integer into a string and returns. *)
Lemma safe_expr_stopped :
  eval_limited sample_host ∅ 4300 2
    (BinOp (BinOp (Number 1) "+" (Number 2)) "+" (Number 3)) fresh_env
  = Raise RecursionError
  /\ eval_limited sample_host ∅ 640 1000
       (BinOp (StringLit "a") "+" (Var "n"))
       (<["n" := VInt (10 ^ 640)]> fresh_env)
     = Raise ValueError
  /\ eval_limited sample_host ∅ 640 1000
       (BinOp (StringLit "a") "==" (Var "n"))
       (<["n" := VInt (10 ^ 640)]> fresh_env)
     = Ok (VInt 0).
Proof. split; [|split]; vm_compute; reflexivity. Qed.

(** ** The recipe table *)

(** X5. After the registration pass the table maps a name to the
    parameters and body of the last definition of that name in the program
    text, and has no entry for a name without definition: a later
    [recipe] of the same name silently replaces an earlier one. *)
Theorem recipe_table_holds_last_definition (rs : list RecipeDef) name :
  foldl register ∅ rs !! name
  = (fun d => (rd_params d, rd_body d))
    <$> last (filter (fun d => rd_name d = name) rs).
Proof.
  induction rs as [|d rs IH] using rev_ind; [done|].
  rewrite foldl_app, filter_app. cbn [foldl]. unfold register at 1.
  destruct (decide (rd_name d = name)) as [E|E].
  - rewrite filter_cons_True by done. rewrite filter_nil.
    rewrite last_snoc. rewrite E. by rewrite lookup_insert_eq.
  - rewrite filter_cons_False by done. rewrite filter_nil, app_nil_r.
    by rewrite lookup_insert_ne.
Qed.

(** ** Arguments and parameters *)

Lemma bind_args_lookup H R env : forall params args vals local,
  NoDup params ->
  Forall2 (fun arg v => eval H R arg env = Ok v) args vals ->
  length params = length args ->
  exists local',
    bind_args H R env (combine params args) local = Ok local'
    /\ (forall i p v, params !! i = Some p -> vals !! i = Some v ->
          local' !! p = Some v)
    /\ (forall x, x ∉ params -> local' !! x = local !! x).
Proof.
  induction params as [|p params IH]; intros args vals local Hnd Hev Hlen.
  - destruct args; [|done]. exists local. split; [done|]. split; [|done].
    intros i p v Hp. by rewrite lookup_nil in Hp.
  - destruct args as [|arg args]; [done|].
    apply Forall2_cons_inv_l in Hev as (v & vals' & Hv & Hev & ->).
    apply NoDup_cons in Hnd as [Hp Hnd]. simpl in Hlen.
    destruct (IH args vals' (<[p := v]> local) Hnd Hev) as
      (local' & Hb & Hget & Hother); [lia|].
    exists local'. cbn [combine bind_args]. rewrite Hv. cbn [bind].
    split; [done|]. split.
    + intros [|i] q u Hq Hu; simpl in Hq, Hu.
      * injection Hq as <-. injection Hu as <-.
        rewrite Hother by done. apply lookup_insert_eq.
      * by eapply Hget.
    + intros x Hx. apply not_elem_of_cons in Hx as [Hne Hx].
      rewrite Hother by done. by apply lookup_insert_ne.
Qed.

(** X6. Arguments are bound by position.  When a recipe with pairwise
    distinct parameter names is called with as many arguments, each of
    which evaluates in the frame of the caller, the body runs in a frame
    that binds the i-th parameter to the value of the i-th argument and,
    beside the parameters, only the table entry; the caller gets back its
    own frame with the streams as the body left them. *)
Theorem MakeStmt_eval_binds_by_position H R call name params body args vals w :
  w_env w !! recipes_key = Some VRecipes ->
  R !! name = Some (params, body) ->
  NoDup params ->
  length params = length args ->
  Forall2 (fun arg v => eval H R arg (w_env w) = Ok v) args vals ->
  exists local,
    (forall i p v, params !! i = Some p -> vals !! i = Some v ->
       local !! p = Some v)
    /\ (forall x, x ∉ params -> local !! x = fresh_env !! x)
    /\ exec_stmt H R call (MakeStmt name args) w
       = match call body (mkWorld local (w_in w) (w_out w)) with
         | Done wl => Done (mkWorld (w_env w) (w_in wl) (w_out wl))
         | Raised e wl => Raised e (mkWorld (w_env w) (w_in wl) (w_out wl))
         end.
Proof.
  intros Hk Hname Hnd Hlen Hev.
  destruct (bind_args_lookup H R (w_env w) params args vals fresh_env
              Hnd Hev Hlen) as (local & Hb & Hget & Hother).
  exists local. split; [done|]. split; [done|].
  rewrite (exec_MakeStmt_lookup _ _ _ _ _ _ _ _ Hk Hname). unfold invoke.
  rewrite Hlen, Nat.eqb_refl. cbn [negb]. by rewrite Hb.
Qed.

Lemma MakeStmt_eval_binds_by_position_witness :
  let R : Recipes :=
    {[ "F" := (["a"; "b"], [ServeStmt (BinOp (Var "a") "+" (Var "b"))]) ]} in
  exists local,
    (forall i p v,
       ["a"; "b"] !! i = Some p -> [VInt 1; VStr "x"] !! i = Some v ->
       local !! p = Some v)
    /\ (forall x, x ∉ ["a"; "b"] -> local !! x = fresh_env !! x)
    /\ exec_stmt sample_host R (call_recipe sample_host R 2)
         (MakeStmt "F" [Number 1; StringLit "x"]) (start_world [])
       = match call_recipe sample_host R 2
                 [ServeStmt (BinOp (Var "a") "+" (Var "b"))]
                 (mkWorld local [] []) with
         | Done wl => Done (mkWorld fresh_env (w_in wl) (w_out wl))
         | Raised e wl => Raised e (mkWorld fresh_env (w_in wl) (w_out wl))
         end.
Proof.
  intros R.
  apply (MakeStmt_eval_binds_by_position sample_host R
           (call_recipe sample_host R 2) "F" ["a"; "b"]
           [ServeStmt (BinOp (Var "a") "+" (Var "b"))]
           [Number 1; StringLit "x"] [VInt 1; VStr "x"] (start_world [])).
  - reflexivity.
  - reflexivity.
  - apply NoDup_cons. split; [|apply NoDup_singleton].
    intros Hin%list_elem_of_singleton. discriminate Hin.
  - reflexivity.
  - repeat constructor.
Defined.

(** ** The depth of the Python stack *)

Lemma exec_block_deeper (exec1 exec2 : Stmt -> World -> outcome) l :
  Forall (fun s => forall w, raised_RecursionError (exec1 s w) = false ->
                     exec2 s w = exec1 s w) l ->
  forall w, raised_RecursionError (exec_block exec1 l w) = false ->
            exec_block exec2 l w = exec_block exec1 l w.
Proof.
  induction 1 as [|s l Hs _ IH]; intros w Hre; [done|].
  rewrite !exec_block_cons in *.
  destruct (exec1 s w) as [w1|e w1] eqn:E1.
  - rewrite Hs by (by rewrite E1). rewrite E1. by apply IH.
  - rewrite Hs by (by rewrite E1). by rewrite E1.
Qed.

Lemma for_range_deeper (body1 body2 : World -> outcome) r :
  (forall w, raised_RecursionError (body1 w) = false -> body2 w = body1 w) ->
  forall w, raised_RecursionError (for_range body1 r w) = false ->
            for_range body2 r w = for_range body1 r w.
Proof.
  intros Hbody. induction r as [|i r IH]; intros w Hre; [done|].
  simpl in *.
  destruct (body1 (set_var "i" (VInt i) w)) as [w1|e w1] eqn:E1.
  - rewrite Hbody by (by rewrite E1). rewrite E1. by apply IH.
  - rewrite Hbody by (by rewrite E1). by rewrite E1.
Qed.

Lemma invoke_deeper H R (call1 call2 : list Stmt -> World -> outcome)
    name params body args w :
  (forall b w0, raised_RecursionError (call1 b w0) = false ->
                call2 b w0 = call1 b w0) ->
  raised_RecursionError (invoke H R call1 name params body args w) = false ->
  invoke H R call2 name params body args w
  = invoke H R call1 name params body args w.
Proof.
  intros Hcall. unfold invoke. destruct (negb _); [done|].
  destruct (bind_args _ _ _ _ _) as [local|e]; [|done].
  destruct (call1 body _) as [wl|e wl] eqn:E1; intros Hre.
  - rewrite Hcall by (by rewrite E1). by rewrite E1.
  - rewrite Hcall; [by rewrite E1|]. rewrite E1. by destruct e.
Qed.

Lemma exec_stmt_deeper H R (call1 call2 : list Stmt -> World -> outcome) :
  (forall b w0, raised_RecursionError (call1 b w0) = false ->
                call2 b w0 = call1 b w0) ->
  forall s w, raised_RecursionError (exec_stmt H R call1 s w) = false ->
              exec_stmt H R call2 s w = exec_stmt H R call1 s w.
Proof.
  intros Hcall s.
  induction s as [name t|expr target|expr|prompt target
                 |cond then_s else_s IHt IHe|start end_ body IHb|name args]
    using Stmt_nested_ind; intros w Hre; try reflexivity.
  - cbn [exec_stmt] in *. destruct (eval H R cond (w_env w)) as [c|]; [|done].
    destruct (py_bool R c).
    + by apply exec_block_deeper.
    + destruct else_s as [[|s0 else_b]|]; [done| |done].
      by apply exec_block_deeper.
  - cbn [exec_stmt] in *.
    destruct (eval H R start _) as [[| lo | |]|]; try done;
      destruct (eval H R end_ _) as [[| hi | |]|]; try done.
    apply for_range_deeper; [|done]. intros w0. by apply exec_block_deeper.
  - cbn [exec_stmt] in *.
    destruct (w_env w !! recipes_key) as [[| | |]|]; try done.
    destruct (R !! name) as [[params body]|]; [|done].
    by apply invoke_deeper.
Qed.

Lemma call_recipe_deeper H R d k : forall body w,
  raised_RecursionError (call_recipe H R d body w) = false ->
  call_recipe H R (d + k) body w = call_recipe H R d body w.
Proof.
  induction d as [|d IH]; intros body w Hre; [done|].
  cbn [call_recipe Nat.add] in *.
  apply exec_block_deeper; [|done].
  apply Forall_forall. intros s _ w0. by apply exec_stmt_deeper.
Qed.

(** X7. The depth of the stack matters only when it is used up: a run that
    does not end in [RecursionError] ends in the same outcome, with the
    same frame, input and output, under every deeper stack.  So every
    other outcome of a program is its outcome whatever the recursion limit
    of the Python at hand. *)
Theorem Program_eval_deeper_stack H d k p stdin :
  raised_RecursionError (Program_eval H d p stdin) = false ->
  Program_eval H (d + k) p stdin = Program_eval H d p stdin.
Proof.
  unfold Program_eval. intros Hre.
  apply exec_block_deeper; [|done].
  apply Forall_forall. intros s _ w0. apply exec_stmt_deeper.
  intros b w1. apply call_recipe_deeper.
Qed.

Lemma Program_eval_deeper_stack_witness :
  let p := mkProgram [mkRecipeDef "F" ["n"] [ServeStmt (Var "n")]]
                     [MakeStmt "F" [Number 7]] in
  Program_eval sample_host (1 + 5) p [] = Program_eval sample_host 1 p [].
Proof.
  intros p. apply (Program_eval_deeper_stack sample_host 1 5 p []).
  reflexivity.
Defined.

(** ** The table entry of a frame *)

Lemma exec_block_inv (P : World -> Prop) (E : exn -> Prop)
    (exec : Stmt -> World -> outcome) l :
  Forall (fun s => forall w, P w ->
            P (outcome_world (exec s w))
            /\ forall e w', exec s w = Raised e w' -> E e) l ->
  forall w, P w ->
    P (outcome_world (exec_block exec l w))
    /\ forall e w', exec_block exec l w = Raised e w' -> E e.
Proof.
  induction 1 as [|s l Hs _ IH]; intros w Hw; [done|].
  rewrite exec_block_cons. destruct (Hs w Hw) as [Hp He].
  destruct (exec s w) as [w1|e1 w1].
  - by apply IH.
  - split; [done|]. intros e w' [= <- <-]. by eapply He.
Qed.

Lemma for_range_inv (P : World -> Prop) (E : exn -> Prop)
    (body : World -> outcome) r :
  (forall i w, P w -> P (set_var "i" (VInt i) w)) ->
  (forall w, P w ->
     P (outcome_world (body w))
     /\ forall e w', body w = Raised e w' -> E e) ->
  forall w, P w ->
    P (outcome_world (for_range body r w))
    /\ forall e w', for_range body r w = Raised e w' -> E e.
Proof.
  intros Hset Hbody. induction r as [|i r IH]; intros w Hw; [done|].
  simpl. destruct (Hbody _ (Hset i w Hw)) as [Hp He].
  destruct (body _) as [w1|e1 w1].
  - by apply IH.
  - split; [done|]. intros e w' [= <- <-]. by eapply He.
Qed.

Lemma eval_not_KeyError H R e env ex :
  eval H R e env = Raise ex -> is_KeyError ex = false.
Proof.
  intros [[n ->]|[->|[->|[->|[op ->]]]]]%eval_raises; reflexivity.
Qed.

Lemma bind_args_keeps_key H R env k : forall pas local local',
  bind_args H R env pas local = Ok local' ->
  is_Some (local !! k) -> is_Some (local' !! k).
Proof.
  induction pas as [|[p arg] pas IH]; intros local local'; cbn [bind_args].
  - by intros [= <-].
  - destruct (eval H R arg env) as [v|]; [|done]. cbn [bind].
    intros Hb Hk. apply (IH _ _ Hb).
    destruct (decide (p = k)) as [->|Hne].
    + rewrite lookup_insert_eq. eauto.
    + by rewrite lookup_insert_ne.
Qed.

Lemma invoke_not_KeyError H R call name params body args w :
  (forall b w0 e w', has_table w0 -> call b w0 = Raised e w' ->
                     is_KeyError e = false) ->
  forall e w', invoke H R call name params body args w = Raised e w' ->
               is_KeyError e = false.
Proof.
  intros Hcall e w'. unfold invoke. destruct (negb _).
  { by intros [= <- <-]. }
  destruct (bind_args _ _ _ _ _) as [local|ex] eqn:Eb.
  - destruct (call body _) as [wl|ex wl] eqn:Ec; [done|].
    intros [= <- <-]. eapply Hcall; [|exact Ec]. unfold has_table. cbn [w_env].
    apply (bind_args_keeps_key _ _ _ _ _ _ _ Eb). unfold fresh_env.
    rewrite lookup_singleton_eq. eauto.
  - intros [= <- <-]. apply bind_args_raises in Eb as (arg & _ & Harg).
    by eapply eval_not_KeyError.
Qed.

Lemma exec_stmt_keeps_table H R call :
  (forall b w0 e w', has_table w0 -> call b w0 = Raised e w' ->
                     is_KeyError e = false) ->
  forall s w, has_table w ->
    has_table (outcome_world (exec_stmt H R call s w))
    /\ forall e w', exec_stmt H R call s w = Raised e w' ->
                    is_KeyError e = false.
Proof.
  intros Hcall s.
  assert (forall x v w, has_table w -> has_table (set_var x v w)) as Hset.
  { intros x v w Hw. unfold has_table in *. cbn [set_var w_env].
    destruct (decide (x = recipes_key)) as [->|Hne].
    - rewrite lookup_insert_eq. eauto.
    - by rewrite lookup_insert_ne. }
  induction s as [name t|expr target|expr|prompt target
                 |cond then_s else_s IHt IHe|start end_ body IHb|name args]
    using Stmt_nested_ind; intros w Hw.
  - cbn [exec_stmt outcome_world]. split; [by apply Hset|done].
  - cbn [exec_stmt]. destruct (eval H R expr (w_env w)) as [v|ex] eqn:E.
    + split; [by apply Hset|done].
    + split; [done|]. intros e w' [= <- <-]. by eapply eval_not_KeyError.
  - cbn [exec_stmt]. destruct (eval H R expr (w_env w)) as [v|ex] eqn:E.
    + done.
    + split; [done|]. intros e w' [= <- <-]. by eapply eval_not_KeyError.
  - cbn [exec_stmt]. destruct (eval H R prompt (w_env w)) as [v|ex] eqn:E.
    + cbn [write w_in]. destruct (w_in w) as [|raw rest].
      * split; [done|]. by intros e w' [= <- <-].
      * split; [|done]. by apply Hset.
    + split; [done|]. intros e w' [= <- <-]. by eapply eval_not_KeyError.
  - cbn [exec_stmt]. destruct (eval H R cond (w_env w)) as [c|ex] eqn:E.
    + destruct (py_bool R c).
      * by apply (exec_block_inv has_table (fun e => is_KeyError e = false)).
      * destruct else_s as [[|s0 else_b]|]; [done| |done].
        by apply (exec_block_inv has_table (fun e => is_KeyError e = false)).
    + split; [done|]. intros e w' [= <- <-]. by eapply eval_not_KeyError.
  - cbn [exec_stmt].
    destruct (eval H R start (w_env w)) as [lo|ex] eqn:El.
    2:{ split; [done|]. intros e w' [= <- <-]. by eapply eval_not_KeyError. }
    destruct (eval H R end_ (w_env w)) as [hi|ex] eqn:Eh.
    2:{ split; [done|]. intros e w' [= <- <-]. by eapply eval_not_KeyError. }
    destruct lo as [| lo | |]; try (split; [done|]; by intros e w' [= <- <-]).
    destruct hi as [| hi | |]; try (split; [done|]; by intros e w' [= <- <-]).
    apply (for_range_inv has_table (fun e => is_KeyError e = false));
      [| |done].
    + intros i w0. apply Hset.
    + intros w0.
      by apply (exec_block_inv has_table (fun e => is_KeyError e = false)).
  - split; [unfold has_table; by rewrite exec_MakeStmt_env|].
    intros e w'. cbn [exec_stmt]. destruct Hw as [k Hk]. rewrite Hk.
    destruct k as [| n | s |].
    + by intros [= <- <-].
    + by intros [= <- <-].
    + destruct (py_contains name s); by intros [= <- <-].
    + destruct (R !! name) as [[params body]|].
      * by apply invoke_not_KeyError.
      * by intros [= <- <-].
Qed.

Lemma call_recipe_not_KeyError H R d : forall b w0 e w',
  has_table w0 ->
  call_recipe H R d b w0 = Raised e w' -> is_KeyError e = false.
Proof.
  induction d as [|d IH]; intros b w0 e w' Hw0.
  - by intros [= <- <-].
  - cbn [call_recipe]. intros Hr.
    eapply (exec_block_inv has_table (fun e => is_KeyError e = false));
      [|exact Hw0|exact Hr].
    apply Forall_forall. intros s _ w Hw.
    by apply exec_stmt_keeps_table.
Qed.

(** X8. The lookup [env['__recipes__']] of a [make] never fails.  Every
    frame is created with the entry [__recipes__], the top-level one by
    [Program.eval] and that of a call by [MakeStmt.eval], and a statement
    stores into a frame but removes nothing from it.  So whatever a
    program does, rebinding the name included, the entry is there when the
    run ends, and no run raises [KeyError], the exception of that lookup
    (the failure of a [%]-formatting, whatever its class, is
    [FormatError]). *)
Theorem Program_eval_never_KeyError H depth p stdin :
  has_table (outcome_world (Program_eval H depth p stdin))
  /\ forall e w key,
       Program_eval H depth p stdin = Raised e w -> e <> KeyError key.
Proof.
  unfold Program_eval.
  destruct (exec_block_inv has_table (fun e => is_KeyError e = false)
              (exec_stmt H (foldl register ∅ (recipes p))
                 (call_recipe H (foldl register ∅ (recipes p)) depth))
              (main p)) with (w := mkWorld fresh_env stdin [])
    as [Hkey Hexn].
  - apply Forall_forall. intros s _ w0 Hw0.
    apply exec_stmt_keeps_table; [|done].
    intros b w1 e1 w1'. apply call_recipe_not_KeyError.
  - unfold has_table. cbn [w_env]. unfold fresh_env.
    rewrite lookup_singleton_eq. eauto.
  - split; [done|]. intros e w key Hr ->. by apply Hexn in Hr.
Qed.

(** ** Input and output *)

Lemma prompts_app out1 out2 :
  prompts (out1 ++ out2)%list = (prompts out1 + prompts out2)%nat.
Proof.
  induction out1 as [|[line|text] out1 IH]; simpl; [done|done|].
  by rewrite IH.
Qed.

Lemma io_step_stay w w' :
  w_in w' = w_in w -> w_out w' = w_out w -> io_step w (Done w').
Proof.
  intros Hi Ho. exists [], []. cbn [outcome_world].
  rewrite Hi, Ho, app_nil_r. done.
Qed.

Lemma io_step_raise w e :
  e <> EOFError -> io_step w (Raised e w).
Proof.
  intros He. exists [], []. cbn [outcome_world]. rewrite app_nil_r.
  split; [done|]. split; [done|]. by destruct e.
Qed.

Lemma io_step_trans w w1 o :
  io_step w (Done w1) -> io_step w1 o -> io_step w o.
Proof.
  intros (u1 & m1 & Hi1 & Ho1 & Hp1) (u2 & m2 & Hi2 & Ho2 & Hp2).
  cbn [outcome_world] in *.
  exists (u1 ++ u2)%list, (m1 ++ m2)%list.
  rewrite Hi1, Hi2, Ho2, Ho1, !app_assoc. split; [done|]. split; [done|].
  rewrite prompts_app, length_app.
  destruct o as [w2|e w2]; [lia|].
  destruct e; try lia. destruct Hp2 as [Hp2 Hin]. split; [lia|done].
Qed.

Lemma io_step_streams w1 w2 o1 o2 :
  w_in w1 = w_in w2 -> w_out w1 = w_out w2 ->
  w_in (outcome_world o1) = w_in (outcome_world o2) ->
  w_out (outcome_world o1) = w_out (outcome_world o2) ->
  match o1, o2 with
  | Done _, Done _ => True
  | Raised e1 _, Raised e2 _ => e1 = e2
  | _, _ => False
  end ->
  io_step w1 o1 -> io_step w2 o2.
Proof.
  intros Hi Ho Hi' Ho' Hk (u & m & Hu & Hm & Hp). exists u, m.
  rewrite <- Hi, <- Ho, <- Hi', <- Ho'. split; [done|]. split; [done|].
  destruct o1 as [w1'|e1 w1'], o2 as [w2'|e2 w2']; try done.
  subst e2. destruct e1; try done. cbn [outcome_world] in Hi'.
  by rewrite <- Hi'.
Qed.

Lemma exec_block_io (exec : Stmt -> World -> outcome) l :
  Forall (fun s => forall w, io_step w (exec s w)) l ->
  forall w, io_step w (exec_block exec l w).
Proof.
  induction 1 as [|s l Hs _ IH]; intros w.
  - by apply io_step_stay.
  - rewrite exec_block_cons. specialize (Hs w).
    destruct (exec s w) as [w1|e w1]; [|done].
    eapply io_step_trans; [exact Hs|apply IH].
Qed.

Lemma for_range_io (body : World -> outcome) r :
  (forall w, io_step w (body w)) ->
  forall w, io_step w (for_range body r w).
Proof.
  intros Hbody. induction r as [|i r IH]; intros w.
  - by apply io_step_stay.
  - simpl. pose proof (Hbody (set_var "i" (VInt i) w)) as Hb.
    destruct (body _) as [w1|e w1].
    + eapply io_step_trans; [|apply IH].
      eapply io_step_streams; [..|exact Hb]; done.
    + eapply io_step_streams; [..|exact Hb]; done.
Qed.

Lemma exec_stmt_io H R call :
  (forall b w0, io_step w0 (call b w0)) ->
  forall s w, io_step w (exec_stmt H R call s w).
Proof.
  intros Hcall s.
  induction s as [name t|expr target|expr|prompt target
                 |cond then_s else_s IHt IHe|start end_ body IHb|name args]
    using Stmt_nested_ind; intros w.
  - by apply io_step_stay.
  - cbn [exec_stmt]. destruct (eval H R expr (w_env w)) as [v|ex] eqn:E.
    + by apply io_step_stay.
    + apply io_step_raise. intros ->.
      by apply eval_raises in E as [[n ?]|[?|[?|[?|[op ?]]]]].
  - cbn [exec_stmt]. destruct (eval H R expr (w_env w)) as [v|ex] eqn:E.
    + exists [], [Printed (py_str H R v)]. done.
    + apply io_step_raise. intros ->.
      by apply eval_raises in E as [[n ?]|[?|[?|[?|[op ?]]]]].
  - cbn [exec_stmt]. destruct (eval H R prompt (w_env w)) as [v|ex] eqn:E.
    + cbn [write w_in w_out w_env]. destruct (w_in w) as [|raw rest] eqn:Ei.
      * exists [], [Prompted (py_str H R v +:+ " ")].
        cbn [outcome_world w_in w_out]. done.
      * exists [raw], [Prompted (py_str H R v +:+ " ")].
        cbn [outcome_world set_var w_in w_out]. done.
    + apply io_step_raise. intros ->.
      by apply eval_raises in E as [[n ?]|[?|[?|[?|[op ?]]]]].
  - cbn [exec_stmt]. destruct (eval H R cond (w_env w)) as [c|ex] eqn:E.
    + destruct (py_bool R c).
      * by apply exec_block_io.
      * destruct else_s as [[|s0 else_b]|]; [by apply io_step_stay|
                                              |by apply io_step_stay].
        by apply exec_block_io.
    + apply io_step_raise. intros ->.
      by apply eval_raises in E as [[n ?]|[?|[?|[?|[op ?]]]]].
  - cbn [exec_stmt].
    destruct (eval H R start (w_env w)) as [lo|ex] eqn:El.
    2:{ apply io_step_raise. intros ->.
        by apply eval_raises in El as [[n ?]|[?|[?|[?|[op ?]]]]]. }
    destruct (eval H R end_ (w_env w)) as [hi|ex] eqn:Eh.
    2:{ apply io_step_raise. intros ->.
        by apply eval_raises in Eh as [[n ?]|[?|[?|[?|[op ?]]]]]. }
    destruct lo as [| lo | |]; try by apply io_step_raise.
    destruct hi as [| hi | |]; try by apply io_step_raise.
    apply for_range_io. intros w0. by apply exec_block_io.
  - cbn [exec_stmt].
    destruct (w_env w !! recipes_key) as [[| n | s |]|];
      try by apply io_step_raise.
    + destruct (py_contains name s); by apply io_step_raise.
    + destruct (R !! name) as [[params body]|]; [|by apply io_step_raise].
      unfold invoke. destruct (negb _); [by apply io_step_raise|].
      destruct (bind_args _ _ _ _ _) as [local|ex] eqn:Eb.
      * pose proof (Hcall body (mkWorld local (w_in w) (w_out w))) as Hb.
        destruct (call body _) as [wl|e wl];
          (eapply io_step_streams; [..|exact Hb]; done).
      * apply io_step_raise. intros ->.
        apply bind_args_raises in Eb as (arg & _ & Harg).
        by apply eval_raises in Harg as [[n ?]|[?|[?|[?|[op ?]]]]].
Qed.

Lemma call_recipe_io H R d : forall b w0,
  io_step w0 (call_recipe H R d b w0).
Proof.
  induction d as [|d IH]; intros b w0.
  - by apply io_step_raise.
  - cbn [call_recipe]. apply exec_block_io.
    apply Forall_forall. intros s _ w. by apply exec_stmt_io.
Qed.

(** X9. The streams of a run.  Whatever a block does, under any table of
    recipes, the input left afterwards is a suffix of the input before it,
    and the output afterwards is the output before it with events added
    at its end, nothing being taken back; every line read was asked for by
    one prompt, so a block that returns, or raises anything but
    [EOFError], has written as many prompts as it has read lines; and a
    block that ends in [EOFError] has used up the input and written one
    prompt more, that of the [ask] which found no line. *)
Theorem block_reads_and_writes_in_order H R depth l w :
  let o := exec_block (exec_stmt H R (call_recipe H R depth)) l w in
  exists used more,
    w_in w = (used ++ w_in (outcome_world o))%list
    /\ w_out (outcome_world o) = (w_out w ++ more)%list
    /\ match o with
       | Raised EOFError w' => prompts more = S (length used) /\ w_in w' = []
       | _ => prompts more = length used
       end.
Proof.
  intros o. apply exec_block_io. apply Forall_forall. intros s _ w0.
  apply exec_stmt_io. apply call_recipe_io.
Qed.

(** ** Programs that do not ask *)

Lemma foldl_register_bodies (Q : list Stmt -> Prop) rs :
  (forall d, d ∈ rs -> Q (rd_body d)) ->
  forall name params body,
    foldl register ∅ rs !! name = Some (params, body) -> Q body.
Proof.
  induction rs as [|d rs IH] using rev_ind; intros HQ name params body.
  - simpl. by rewrite lookup_empty.
  - rewrite foldl_app. cbn [foldl]. unfold register at 1.
    destruct (decide (rd_name d = name)) as [E|E].
    + rewrite E, lookup_insert_eq. intros [= _ <-]. apply HQ.
      apply elem_of_app. right. by apply list_elem_of_singleton.
    + rewrite lookup_insert_ne by done. apply IH.
      intros d' Hd'. apply HQ. apply elem_of_app. by left.
Qed.

Lemma existsb_false_Forall {A} (f : A -> bool) l :
  existsb f l = false -> Forall (fun a => f a = false) l.
Proof.
  induction l as [|a l IH]; simpl; [done|].
  intros [Ha Hl]%orb_false_elim. constructor; [done|by apply IH].
Qed.

Lemma exec_block_quiet (exec : Stmt -> World -> outcome) l :
  Forall (fun s => asks s = false -> forall w,
            exec s w <> Raised EOFError (outcome_world (exec s w))
            /\ w_in (outcome_world (exec s w)) = w_in w) l ->
  existsb asks l = false ->
  forall w,
    exec_block exec l w
    <> Raised EOFError (outcome_world (exec_block exec l w))
    /\ w_in (outcome_world (exec_block exec l w)) = w_in w.
Proof.
  induction 1 as [|s l Hs _ IH]; intros Hl w; [done|].
  simpl in Hl. apply orb_false_elim in Hl as [Has Hal].
  rewrite exec_block_cons. destruct (Hs Has w) as [He Hi].
  destruct (exec s w) as [w1|e w1]; [|done].
  cbn [outcome_world] in Hi. rewrite <- Hi. by apply IH.
Qed.

Lemma for_range_quiet (body : World -> outcome) r :
  (forall w, body w <> Raised EOFError (outcome_world (body w))
             /\ w_in (outcome_world (body w)) = w_in w) ->
  forall w,
    for_range body r w <> Raised EOFError (outcome_world (for_range body r w))
    /\ w_in (outcome_world (for_range body r w)) = w_in w.
Proof.
  intros Hbody. induction r as [|i r IH]; intros w; [done|].
  simpl. destruct (Hbody (set_var "i" (VInt i) w)) as [He Hi].
  destruct (body _) as [w1|e w1]; [|done].
  cbn [outcome_world] in Hi. destruct (IH w1) as [He1 Hi1].
  split; [done|]. by rewrite Hi1, Hi.
Qed.

Lemma eval_not_EOFError H R e env : eval H R e env <> Raise EOFError.
Proof.
  intros E. by apply eval_raises in E as [[n ?]|[?|[?|[?|[op ?]]]]].
Qed.

Lemma exec_stmt_quiet H R call :
  (forall name params body, R !! name = Some (params, body) ->
     forall w, call body w <> Raised EOFError (outcome_world (call body w))
               /\ w_in (outcome_world (call body w)) = w_in w) ->
  forall s, asks s = false -> forall w,
    exec_stmt H R call s w
    <> Raised EOFError (outcome_world (exec_stmt H R call s w))
    /\ w_in (outcome_world (exec_stmt H R call s w)) = w_in w.
Proof.
  intros Hcall s.
  induction s as [name t|expr target|expr|prompt target
                 |cond then_s else_s IHt IHe|start end_ body IHb|name args]
    using Stmt_nested_ind; intros Hs w; cbn [asks] in Hs.
  - done.
  - cbn [exec_stmt]. destruct (eval H R expr (w_env w)) as [v|ex] eqn:E.
    + done.
    + split; [|done]. intros [= ->]. by apply eval_not_EOFError in E.
  - cbn [exec_stmt]. destruct (eval H R expr (w_env w)) as [v|ex] eqn:E.
    + done.
    + split; [|done]. intros [= ->]. by apply eval_not_EOFError in E.
  - done.
  - apply orb_false_elim in Hs as [Ht He]. cbn [exec_stmt].
    destruct (eval H R cond (w_env w)) as [c|ex] eqn:E.
    + destruct (py_bool R c).
      * by apply exec_block_quiet.
      * destruct else_s as [[|s0 else_b]|]; [done| |done].
        by apply exec_block_quiet.
    + split; [|done]. intros [= ->]. by apply eval_not_EOFError in E.
  - cbn [exec_stmt].
    destruct (eval H R start (w_env w)) as [lo|ex] eqn:El.
    2:{ split; [|done]. intros [= ->]. by apply eval_not_EOFError in El. }
    destruct (eval H R end_ (w_env w)) as [hi|ex] eqn:Eh.
    2:{ split; [|done]. intros [= ->]. by apply eval_not_EOFError in Eh. }
    destruct lo as [| lo | |]; try done.
    destruct hi as [| hi | |]; try done.
    apply for_range_quiet. intros w0. by apply exec_block_quiet.
  - cbn [exec_stmt].
    destruct (w_env w !! recipes_key) as [[| n | s |]|]; try done.
    { by destruct (py_contains name s). }
    destruct (R !! name) as [[params body]|] eqn:En; [|done].
    unfold invoke. destruct (negb _); [done|].
    destruct (bind_args _ _ _ _ _) as [local|ex] eqn:Eb.
    + destruct (Hcall _ _ _ En (mkWorld local (w_in w) (w_out w)))
        as [He Hi].
      destruct (call body _) as [wl|e wl]; [done|].
      split; [|done]. intros [= ->]. by apply He.
    + split; [|done]. intros [= ->].
      apply bind_args_raises in Eb as (arg & _ & Harg).
      by apply eval_not_EOFError in Harg.
Qed.

Lemma call_recipe_quiet H R :
  (forall name params body, R !! name = Some (params, body) ->
     existsb asks body = false) ->
  forall d name params body, R !! name = Some (params, body) ->
    forall w,
      call_recipe H R d body w
      <> Raised EOFError (outcome_world (call_recipe H R d body w))
      /\ w_in (outcome_world (call_recipe H R d body w)) = w_in w.
Proof.
  intros HR. induction d as [|d IH]; intros name params body Hn w; [done|].
  cbn [call_recipe]. apply exec_block_quiet; [|by eapply HR].
  apply Forall_forall. intros s _ Hs w0. by apply exec_stmt_quiet.
Qed.

(** X10. A program without [ask], neither at top level nor in the body of
    any of its recipes, reads nothing: whatever it does and however it
    ends, the input is afterwards what it was, and the run does not end in
    [EOFError]. *)
Theorem Program_eval_without_ask H depth p stdin :
  existsb asks (main p) = false ->
  (forall d, d ∈ recipes p -> existsb asks (rd_body d) = false) ->
  w_in (outcome_world (Program_eval H depth p stdin)) = stdin
  /\ forall w, Program_eval H depth p stdin <> Raised EOFError w.
Proof.
  intros Hmain Hrec. unfold Program_eval.
  set (R := foldl register ∅ (recipes p)).
  assert (forall name params body, R !! name = Some (params, body) ->
            existsb asks body = false) as HR.
  { apply (foldl_register_bodies (fun b => existsb asks b = false)), Hrec. }
  destruct (exec_block_quiet (exec_stmt H R (call_recipe H R depth)) (main p))
    with (w := mkWorld fresh_env stdin []) as [He Hi]; [|done|].
  { apply Forall_forall. intros s _ Hs w0. apply exec_stmt_quiet; [|done].
    by apply call_recipe_quiet. }
  split; [done|]. intros w Hw. apply He. by rewrite Hw.
Qed.

Lemma Program_eval_without_ask_witness :
  let p := mkProgram [mkRecipeDef "F" ["n"] [ServeStmt (Var "n")]]
                     [MakeStmt "F" [Number 7]; ServeStmt (Var "x")] in
  w_in (outcome_world (Program_eval sample_host 4 p ["1"; "2"])) = ["1"; "2"]
  /\ forall w, Program_eval sample_host 4 p ["1"; "2"] <> Raised EOFError w.
Proof.
  intros p. apply (Program_eval_without_ask sample_host 4 p ["1"; "2"]).
  - reflexivity.
  - intros d ->%list_elem_of_singleton. reflexivity.
Defined.

(** ** An argument that raises *)

Lemma bind_args_first_failure H R env ex : forall params pre a post local,
  length params = length (pre ++ a :: post)%list ->
  Forall (fun arg => exists v, eval H R arg env = Ok v) pre ->
  eval H R a env = Raise ex ->
  bind_args H R env (combine params (pre ++ a :: post)%list) local = Raise ex.
Proof.
  intros params pre. revert params.
  induction pre as [|arg pre IH]; intros [|p params] a post local Hlen Hpre Ha;
    try done.
  - cbn [app combine bind_args]. by rewrite Ha.
  - apply Forall_cons in Hpre as [[v Hv] Hpre].
    cbn [app combine bind_args]. rewrite Hv. cbn [bind].
    apply IH; [|done|done]. simpl in Hlen. lia.
Qed.

(** X24. Arguments are evaluated from left to right, in the frame of the
    caller, before the body runs: when the arguments before some argument
    evaluate and that argument raises, the call raises the same exception
    and nothing else has happened: the frame, the input and the output
    are as they were, no statement of the body has run and no later
    argument was evaluated. *)
Theorem MakeStmt_eval_failing_argument H R call name params body
    pre a post w ex :
  w_env w !! recipes_key = Some VRecipes ->
  R !! name = Some (params, body) ->
  length params = length (pre ++ a :: post)%list ->
  Forall (fun arg => exists v, eval H R arg (w_env w) = Ok v) pre ->
  eval H R a (w_env w) = Raise ex ->
  exec_stmt H R call (MakeStmt name (pre ++ a :: post)%list) w = Raised ex w.
Proof.
  intros Hk Hname Hlen Hpre Ha.
  rewrite (exec_MakeStmt_lookup _ _ _ _ _ _ _ _ Hk Hname). unfold invoke.
  rewrite Hlen, Nat.eqb_refl. cbn [negb].
  by rewrite (bind_args_first_failure H R (w_env w) ex params pre a post).
Qed.

Lemma MakeStmt_eval_failing_argument_witness :
  let R : Recipes := {[ "F" := (["a"; "b"; "c"], [ServeStmt (Var "a")]) ]} in
  exec_stmt sample_host R (call_recipe sample_host R 2)
    (MakeStmt "F" ([Number 1] ++ Var "y" :: [BinOp (Number 1) "%" (Number 0)]))
    (start_world [])
  = Raised (UndefinedVariable "y") (start_world []).
Proof.
  intros R.
  apply (MakeStmt_eval_failing_argument sample_host R
           (call_recipe sample_host R 2) "F" ["a"; "b"; "c"]
           [ServeStmt (Var "a")] [Number 1] (Var "y")
           [BinOp (Number 1) "%" (Number 0)] (start_world [])).
  - reflexivity.
  - reflexivity.
  - reflexivity.
  - repeat constructor. by exists (VInt 1).
  - reflexivity.
Defined.

(** * Further properties of the lexer *)

(** ** One turn of the loop *)

(** A turn of [tokenize], by the kind of the character it stands at. *)
Lemma scan_unfold fuel c after tokens :
  scan (S fuel) (String c after) tokens =
  match classify c with
  | Digit =>
      let (val, rest) := span is_digit (String c after) in
      scan fuel rest (tokens ++ [NUMBER (int_of_digits val)])%list
  | Quote =>
      let (body, rest) := span is_string_char after in
      match rest with
      | String c' rest' =>
          if Ascii.eqb c' quote
          then scan fuel rest' (tokens ++ [STRING body])%list
          else Some (Raise (UnexpectedCharacter c))
      | EmptyString => Some (Raise (UnexpectedCharacter c))
      end
  | NameStart =>
      let (val, rest) := span is_word (String c after) in
      scan fuel rest (tokens ++ [ID val])%list
  | Equals =>
      match after with
      | String c' rest =>
          if Ascii.eqb c' "="
          then scan fuel rest (tokens ++ [OP "=="])%list
          else Some (Raise (UnexpectedCharacter c))
      | EmptyString => Some (Raise (UnexpectedCharacter c))
      end
  | Percent => scan fuel after (tokens ++ [OP "%"])%list
  | Plus => scan fuel after (tokens ++ [OP "+"])%list
  | Symbol => scan fuel after (tokens ++ [SYM c])%list
  | Space =>
      let (_, rest) := span is_space (String c after) in
      scan fuel rest tokens
  | Other => Some (Raise (UnexpectedCharacter c))
  end.
Proof.
  unfold classify. cbn [scan].
  destruct (is_digit c); [done|]. destruct (Ascii.eqb c quote); [done|].
  destruct (is_name_start c); [done|]. destruct (Ascii.eqb c "="); [done|].
  destruct (Ascii.eqb c "%"); [done|]. destruct (Ascii.eqb c "+"); [done|].
  destruct (is_symbol c); [done|]. by destruct (is_space c).
Qed.

Lemma classify_spec c :
  match classify c with
  | Digit => is_digit c = true
  | Quote => c = quote
  | NameStart => is_name_start c = true
  | Equals => c = "="%char
  | Percent => c = "%"%char
  | Plus => c = "+"%char
  | Symbol => is_symbol c = true
  | Space => is_space c = true
  | Other => True
  end.
Proof.
  unfold classify.
  destruct (is_digit c); [done|].
  destruct (Ascii.eqb_spec c quote); [done|].
  destruct (is_name_start c); [done|].
  destruct (Ascii.eqb_spec c "="); [done|].
  destruct (Ascii.eqb_spec c "%"); [done|].
  destruct (Ascii.eqb_spec c "+"); [done|].
  destruct (is_symbol c); [done|]. by destruct (is_space c).
Qed.

(** ** Runs of characters *)

Lemma span_spec p s run rest :
  span p s = (run, rest) ->
  s = run +:+ rest
  /\ forallb p (chars run) = true
  /\ match rest with String c _ => p c = false | EmptyString => True end.
Proof.
  revert run rest. induction s as [|c s IH]; intros run rest; simpl.
  - by intros [= <- <-].
  - destruct (p c) eqn:Hc.
    + destruct (span p s) as [run' rest'] eqn:E. intros [= <- <-].
      destruct (IH _ _ eq_refl) as (-> & Hrun & Hrest).
      split; [done|]. split; [|done]. simpl. by rewrite Hc.
    + intros [= <- <-]. by rewrite Hc.
Qed.

Lemma span_cons p c s run rest :
  p c = true -> span p (String c s) = (run, rest) ->
  exists run', run = String c run' /\ span p s = (run', rest).
Proof.
  intros Hc. simpl. rewrite Hc. destruct (span p s) as [run' rest'].
  intros [= <- <-]. eauto.
Qed.

Lemma chars_app s t : chars (s +:+ t) = (chars s ++ chars t)%list.
Proof.
  unfold chars. induction s as [|c s IH]; simpl; [done|]. by rewrite IH.
Qed.

Lemma length_append s t :
  String.length (s +:+ t) = (String.length s + String.length t)%nat.
Proof. induction s as [|c s IH]; simpl; [done|]. by rewrite IH. Qed.

Lemma int_of_digits_from acc l :
  0 <= acc ->
  0 <= fold_left (fun acc c => 10 * acc + Z.of_nat (nat_of_ascii c - 48)) l acc.
Proof.
  revert acc. induction l as [|c l IH]; intros acc Hacc; simpl; [done|].
  apply IH. lia.
Qed.

Lemma is_word_name_start c : is_name_start c = true -> is_word c = true.
Proof. unfold is_word. by intros ->. Qed.

(** ** The tokens of a text *)

Lemma scan_tokens fuel : forall source tokens ts,
  scan fuel source tokens = Some (Ok ts) ->
  exists new, ts = (tokens ++ new ++ [EOF])%list
              /\ forallb token_ok new = true.
Proof.
  induction fuel as [|fuel IH]; intros source tokens ts; [done|].
  assert (forall t s ts, token_ok t = true ->
            scan fuel s (tokens ++ [t])%list = Some (Ok ts) ->
            exists new, ts = (tokens ++ new ++ [EOF])%list
                        /\ forallb token_ok new = true) as Hnext.
  { intros t s ts' Ht (new & -> & Hnew)%IH. exists (t :: new).
    split; [by rewrite <- app_assoc|]. simpl. by rewrite Ht. }
  destruct source as [|c after].
  { intros [= <-]. by exists []. }
  rewrite scan_unfold. pose proof (classify_spec c) as Hc.
  destruct (classify c).
  - destruct (span is_digit (String c after)) as [val rest].
    apply Hnext. apply Z.leb_le. by apply int_of_digits_from.
  - destruct (span is_string_char after) as [body rest] eqn:Es.
    destruct rest as [|c' rest']; [done|].
    destruct (Ascii.eqb c' quote); [|done].
    apply Hnext. by apply span_spec in Es as (_ & Hbody & _).
  - destruct (span is_word (String c after)) as [val rest] eqn:Es.
    apply span_cons in Es as (val' & -> & Es);
      [|by apply is_word_name_start].
    apply Hnext. simpl. rewrite Hc.
    by apply span_spec in Es as (_ & Hval & _).
  - destruct after as [|c' rest]; [done|].
    destruct (Ascii.eqb c' "="); [|done]. by apply Hnext.
  - by apply Hnext.
  - by apply Hnext.
  - by apply Hnext.
  - destruct (span is_space (String c after)) as [skipped rest].
    intros (new & -> & Hnew)%IH. eauto.
  - done.
Qed.

(** X11. The tokens of a text that lexes: they end with the one [EOF]
    token, and every token before it is a number that is not negative, a
    string literal without backslash or double quote, a name (a letter or
    underscore followed by letters, digits and underscores), one of the
    operators [==], [%], [+], or one of the symbols [; : { } ( ) ,].  In
    particular no token before the last is [EOF], and no name is empty. *)
Theorem tokenize_tokens source ts :
  tokenize source = Some (Ok ts) ->
  exists body, ts = (body ++ [EOF])%list /\ forallb token_ok body = true.
Proof. intros (new & -> & Hnew)%scan_tokens. eauto. Qed.

Lemma tokenize_tokens_witness :
  exists body,
    [ID "serve"; ID "x1"; OP "+"; NUMBER 2; SYM ";"; EOF]
    = (body ++ [EOF])%list
    /\ forallb token_ok body = true.
Proof. apply (tokenize_tokens "serve x1+2;"). reflexivity. Defined.

(** ** The characters the lexer stops at *)

Lemma scan_raises fuel : forall source tokens e,
  scan fuel source tokens = Some (Raise e) ->
  exists c, e = UnexpectedCharacter c
            /\ c ∈ chars source /\ lexable c = false.
Proof.
  induction fuel as [|fuel IH]; intros source tokens e; [done|].
  destruct source as [|c after]; [done|].
  assert (forall s acc,
            (forall x, x ∈ chars s -> x ∈ chars (String c after)) ->
            scan fuel s acc = Some (Raise e) ->
            exists c0, e = UnexpectedCharacter c0
                       /\ c0 ∈ chars (String c after) /\ lexable c0 = false)
    as Hnext.
  { intros s acc Hsub (c0 & -> & Hin & Hc0)%IH. eauto. }
  assert (forall p run rest, span p (String c after) = (run, rest) ->
            forall x, x ∈ chars rest -> x ∈ chars (String c after))
    as Hspan.
  { intros p run rest (-> & _)%span_spec x Hx. rewrite chars_app.
    apply elem_of_app. by right. }
  assert (forall x, x ∈ chars after -> x ∈ chars (String c after))
    as Hafter.
  { intros x Hx. by apply list_elem_of_further. }
  assert (lexable c = false ->
            exists c0, UnexpectedCharacter c = UnexpectedCharacter c0
                       /\ c0 ∈ chars (String c after) /\ lexable c0 = false)
    as Hhere.
  { intros Hbad. exists c. split; [done|]. split; [by left|done]. }
  rewrite scan_unfold. unfold lexable in Hhere.
  destruct (classify c) eqn:Hk.
  - destruct (span is_digit (String c after)) as [val rest] eqn:Es.
    apply Hnext. by eapply Hspan.
  - destruct (span is_string_char after) as [body rest] eqn:Es.
    destruct rest as [|c' rest'].
    { intros [= <-]. by apply Hhere. }
    destruct (Ascii.eqb c' quote).
    + apply Hnext. intros x Hx. apply Hafter.
      apply span_spec in Es as (-> & _). rewrite chars_app.
      apply elem_of_app. right. by apply list_elem_of_further.
    + intros [= <-]. by apply Hhere.
  - destruct (span is_word (String c after)) as [val rest] eqn:Es.
    apply Hnext. by eapply Hspan.
  - destruct after as [|c' rest].
    { intros [= <-]. by apply Hhere. }
    destruct (Ascii.eqb c' "=").
    + apply Hnext. intros x Hx. apply Hafter. by apply list_elem_of_further.
    + intros [= <-]. by apply Hhere.
  - by apply Hnext.
  - by apply Hnext.
  - by apply Hnext.
  - destruct (span is_space (String c after)) as [skipped rest] eqn:Es.
    apply Hnext. by eapply Hspan.
  - intros [= <-]. by apply Hhere.
Qed.

(** ** The lexer under the digit limit *)

Lemma scan_limited_unfold m fuel c after tokens :
  scan_limited m (S fuel) (String c after) tokens =
  match classify c with
  | Digit =>
      let (val, rest) := span is_digit (String c after) in
      match int_limited m val with
      | Ok n => scan_limited m fuel rest (tokens ++ [NUMBER n])%list
      | Raise e => Some (Raise e)
      end
  | Quote =>
      let (body, rest) := span is_string_char after in
      match rest with
      | String c' rest' =>
          if Ascii.eqb c' quote
          then scan_limited m fuel rest' (tokens ++ [STRING body])%list
          else Some (Raise (UnexpectedCharacter c))
      | EmptyString => Some (Raise (UnexpectedCharacter c))
      end
  | NameStart =>
      let (val, rest) := span is_word (String c after) in
      scan_limited m fuel rest (tokens ++ [ID val])%list
  | Equals =>
      match after with
      | String c' rest =>
          if Ascii.eqb c' "="
          then scan_limited m fuel rest (tokens ++ [OP "=="])%list
          else Some (Raise (UnexpectedCharacter c))
      | EmptyString => Some (Raise (UnexpectedCharacter c))
      end
  | Percent => scan_limited m fuel after (tokens ++ [OP "%"])%list
  | Plus => scan_limited m fuel after (tokens ++ [OP "+"])%list
  | Symbol => scan_limited m fuel after (tokens ++ [SYM c])%list
  | Space =>
      let (_, rest) := span is_space (String c after) in
      scan_limited m fuel rest tokens
  | Other => Some (Raise (UnexpectedCharacter c))
  end.
Proof.
  unfold classify. cbn [scan_limited].
  destruct (is_digit c); [done|]. destruct (Ascii.eqb c quote); [done|].
  destruct (is_name_start c); [done|]. destruct (Ascii.eqb c "="); [done|].
  destruct (Ascii.eqb c "%"); [done|]. destruct (Ascii.eqb c "+"); [done|].
  destruct (is_symbol c); [done|]. by destruct (is_space c).
Qed.

Lemma prefix_run_span p s : forall run rest,
  span p s = (run, rest) -> String.length run = prefix_run p s.
Proof.
  induction s as [|c s IH]; intros run rest; simpl.
  - by intros [= <- <-].
  - destruct (p c).
    + destruct (span p s) as [run' rest']. intros [= <- <-]. simpl.
      f_equal. by eapply IH.
    + by intros [= <- <-].
Qed.

Lemma prefix_run_longest p s : (prefix_run p s <= longest_run p s)%nat.
Proof. destruct s; cbn [longest_run]; [done|]. apply Nat.le_max_l. Qed.

Lemma longest_run_cons p c s :
  (longest_run p s <= longest_run p (String c s))%nat.
Proof. cbn [longest_run]. apply Nat.le_max_r. Qed.

Lemma longest_run_app p pre s :
  (longest_run p s <= longest_run p (pre +:+ s))%nat.
Proof.
  induction pre as [|c pre IH]; [done|].
  change (String c pre +:+ s) with (String c (pre +:+ s)).
  etransitivity; [exact IH|apply longest_run_cons].
Qed.

(** The lexer under the limit does what the lexer without it does, unless
    it stops at a numeral that is over the limit. *)
Lemma scan_limited_cases m fuel : forall source tokens,
  scan_limited m fuel source tokens = scan fuel source tokens
  \/ (scan_limited m fuel source tokens = Some (Raise ValueError)
      /\ (0 < m < longest_run is_digit source)%nat).
Proof.
  induction fuel as [|fuel IH]; intros source tokens; [by left|].
  destruct source as [|c after]; [by left|].
  assert (forall s acc,
            (longest_run is_digit s
             <= longest_run is_digit (String c after))%nat ->
            scan_limited m fuel s acc = scan fuel s acc
            \/ (scan_limited m fuel s acc = Some (Raise ValueError)
                /\ (0 < m < longest_run is_digit (String c after))%nat))
    as Hnext.
  { intros s acc Hle. destruct (IH s acc) as [->|[-> Hm]]; [by left|].
    right. split; [done|lia]. }
  assert (forall p run rest, span p (String c after) = (run, rest) ->
            (longest_run is_digit rest
             <= longest_run is_digit (String c after))%nat) as Hspan.
  { intros p run rest (-> & _)%span_spec. apply longest_run_app. }
  rewrite scan_limited_unfold, scan_unfold.
  destruct (classify c).
  - destruct (span is_digit (String c after)) as [val rest] eqn:Es.
    unfold int_limited.
    destruct (exceeds m (String.length val)) eqn:Ex.
    + right. split; [done|]. apply exceeds_on in Ex.
      rewrite (prefix_run_span _ _ _ _ Es) in Ex.
      pose proof (prefix_run_longest is_digit (String c after)). lia.
    + apply Hnext. by eapply Hspan.
  - destruct (span is_string_char after) as [body rest] eqn:Es.
    destruct rest as [|c' rest']; [by left|].
    destruct (Ascii.eqb c' quote); [|by left].
    apply Hnext. apply span_spec in Es as (-> & _).
    etransitivity; [|apply longest_run_cons].
    etransitivity; [|apply longest_run_app]. apply longest_run_cons.
  - destruct (span is_word (String c after)) as [val rest] eqn:Es.
    apply Hnext. by eapply Hspan.
  - destruct after as [|c' rest]; [by left|].
    destruct (Ascii.eqb c' "="); [|by left].
    apply Hnext. etransitivity; apply longest_run_cons.
  - apply Hnext, longest_run_cons.
  - apply Hnext, longest_run_cons.
  - apply Hnext, longest_run_cons.
  - destruct (span is_space (String c after)) as [skipped rest] eqn:Es.
    apply Hnext. by eapply Hspan.
  - by left.
Qed.

(** With the limit switched off the two lexers are one. *)
Lemma tokenize_limited_off source :
  tokenize_limited 0 source = tokenize source.
Proof.
  unfold tokenize_limited, tokenize.
  destruct (scan_limited_cases 0 (S (String.length source)) source [])
    as [E|[_ Hm]]; [done|lia].
Qed.

(** X12. The two ways the lexer fails.  It raises the [SyntaxError] for a
    character [c] of the text that is a double quote (of a string that is
    not closed, or holds a backslash), an equals sign (that is not
    doubled), or a character no token starts with; or [int(val)] raises
    [ValueError], which takes the digit limit switched on and a run of
    more digits than the limit in the text.  Hence a text made of digits,
    letters, underscores, blanks, the seven symbols, [%] and [+] lexes
    when the limit is off or no run of digits in it is longer than the
    limit, and the tokens are those of the lexer without the limit. *)
Theorem tokenize_limited_failures m source :
  (forall e, tokenize_limited m source = Some (Raise e) ->
     (exists c, e = UnexpectedCharacter c
                /\ c ∈ chars source
                /\ (c = quote \/ c = "="%char \/ classify c = Other))
     \/ (e = ValueError /\ (0 < m < longest_run is_digit source)%nat))
  /\ (forallb lexable (chars source) = true ->
      (m = 0 \/ longest_run is_digit source <= m)%nat ->
      exists ts, tokenize_limited m source = Some (Ok ts)
                 /\ tokenize source = Some (Ok ts)).
Proof.
  unfold tokenize_limited.
  destruct (scan_limited_cases m (S (String.length source)) source [])
    as [->|[-> Hm]]; fold (tokenize source).
  - split.
    + intros e (c & -> & Hin & Hc)%scan_raises. left. exists c.
      split; [done|]. split; [done|]. unfold lexable in Hc.
      pose proof (classify_spec c) as Hk.
      destruct (classify c); try done; auto.
    + intros Hall _. pose proof (tokenize_total source) as Ht.
      destruct (tokenize source) as [[ts|e]|] eqn:E; [eauto| |done].
      apply scan_raises in E as (c & _ & Hin & Hc).
      rewrite forallb_forall in Hall. apply list_elem_of_In in Hin.
      apply Hall in Hin. congruence.
  - split.
    + intros e [= <-]. by right.
    + intros _ Hle. lia.
Qed.

Lemma tokenize_limited_failures_witness :
  exists ts, tokenize_limited 4300 "mix a+1 into b_2;" = Some (Ok ts)
             /\ tokenize "mix a+1 into b_2;" = Some (Ok ts).
Proof.
  apply (proj2 (tokenize_limited_failures 4300 "mix a+1 into b_2;")).
  - reflexivity.
  - right. vm_compute. lia.
Defined.

(** A numeral of 4301 digits under the limit of 4300, and the same digits
    in a name. *)
Lemma tokenize_limited_numeral :
  tokenize_limited 4300 ("serve " +:+ replicate_char 4301 "7" +:+ ";")
  = Some (Raise ValueError)
  /\ tokenize_limited 4300 ("serve x" +:+ replicate_char 4301 "7" +:+ ";")
     = Some (Ok [ID "serve"; ID ("x" +:+ replicate_char 4301 "7");
                 SYM ";"; EOF]).
Proof. split; vm_compute; reflexivity. Qed.

(** ** Blanks separate tokens *)

Lemma space_kind c :
  is_space c = true ->
  classify c = Space /\ is_digit c = false /\ is_word c = false.
Proof.
  destruct c as [[] [] [] [] [] [] [] []]; vm_compute; intros E; done.
Qed.

Lemma span_app_stop p s t run rest :
  span p s = (run, rest) ->
  rest <> ""
  \/ match t with String c _ => p c = false | EmptyString => True end ->
  span p (s +:+ t) = (run, rest +:+ t).
Proof.
  revert run rest. induction s as [|c s IH]; intros run rest; simpl.
  - intros [= <- <-] [Hr|Ht]; [done|]. destruct t as [|c t]; [done|].
    simpl. by rewrite Ht.
  - destruct (p c).
    + destruct (span p s) as [run' rest'] eqn:E. intros [= <- <-] Hstop.
      by rewrite (IH _ _ eq_refl Hstop).
    + by intros [= <- <-] _.
Qed.

Lemma span_app_through p s t run :
  span p s = (run, "") -> (span p (s +:+ t)).2 = (span p t).2.
Proof.
  revert run. induction s as [|c s IH]; intros run; simpl; [done|].
  destruct (p c); [|done].
  destruct (span p s) as [run' rest'] eqn:E. intros [= <- ->].
  specialize (IH _ eq_refl). by destruct (span p (s +:+ t)).
Qed.

(** The bound of [scan] does not matter once it is large enough. *)
Lemma scan_fuel f1 : forall f2 source tokens,
  (String.length source < f1)%nat -> (String.length source < f2)%nat ->
  scan f1 source tokens = scan f2 source tokens.
Proof.
  induction f1 as [|f1 IH]; intros f2 source tokens H1 H2; [lia|].
  destruct f2 as [|f2]; [lia|].
  destruct source as [|c after]; [done|].
  rewrite !scan_unfold. cbn [String.length] in H1, H2.
  pose proof (classify_spec c) as Hc.
  destruct (classify c); try done; try (apply IH; lia).
  - pose proof (span_rest_length_cons is_digit c after Hc) as Hs.
    destruct (span is_digit (String c after)) as [val rest].
    simpl in Hs. apply IH; lia.
  - pose proof (span_rest_length is_string_char after) as Hs.
    destruct (span is_string_char after) as [body rest]. simpl in Hs.
    destruct rest as [|c' rest']; [done|].
    destruct (Ascii.eqb c' quote); [|done].
    cbn [String.length] in Hs. apply IH; lia.
  - pose proof (span_rest_length_cons is_word c after
                  (is_word_name_start c Hc)) as Hs.
    destruct (span is_word (String c after)) as [val rest].
    simpl in Hs. apply IH; lia.
  - destruct after as [|c' rest]; [done|].
    destruct (Ascii.eqb c' "="); [|done].
    cbn [String.length] in H1, H2. apply IH; lia.
  - pose proof (span_rest_length_cons is_space c after Hc) as Hs.
    destruct (span is_space (String c after)) as [skipped rest].
    simpl in Hs. apply IH; lia.
Qed.

(** The tokens found so far are only added to. *)
Lemma scan_acc fuel : forall source acc tokens,
  scan fuel source (acc ++ tokens)%list
  = match scan fuel source tokens with
    | Some (Ok ts) => Some (Ok (acc ++ ts)%list)
    | r => r
    end.
Proof.
  induction fuel as [|fuel IH]; intros source acc tokens; [done|].
  destruct source as [|c after].
  { cbn [scan]. by rewrite app_assoc. }
  rewrite !scan_unfold.
  destruct (classify c); try done; rewrite <- ?app_assoc; try apply IH.
  - destruct (span is_digit (String c after)) as [val rest].
    rewrite <- ?app_assoc. apply IH.
  - destruct (span is_string_char after) as [body rest].
    destruct rest as [|c' rest']; [done|].
    destruct (Ascii.eqb c' quote); [|done]. rewrite <- ?app_assoc. apply IH.
  - destruct (span is_word (String c after)) as [val rest].
    rewrite <- ?app_assoc. apply IH.
  - destruct after as [|c' rest]; [done|].
    destruct (Ascii.eqb c' "="); [|done]. rewrite <- ?app_assoc. apply IH.
  - destruct (span is_space (String c after)) as [skipped rest]. apply IH.
Qed.

(** Blanks at the start of a text are skipped. *)
Lemma scan_skip_blanks f f' source tokens :
  (String.length source < f)%nat -> (String.length source < f')%nat ->
  scan f (span is_space source).2 tokens = scan f' source tokens.
Proof.
  intros Hf Hf'. destruct source as [|c after]; [by apply scan_fuel|].
  destruct (is_space c) eqn:Hc.
  - destruct f' as [|f']; [lia|]. rewrite scan_unfold.
    destruct (space_kind c Hc) as (-> & _).
    pose proof (span_rest_length_cons is_space c after Hc) as Hs.
    destruct (span is_space (String c after)) as [skipped rest].
    cbn [String.length] in *. simpl in *. apply scan_fuel; lia.
  - simpl. rewrite Hc. by apply scan_fuel.
Qed.

Ltac len_s := cbn [String.length] in *; lia.

Lemma scan_app f1 : forall s1 acc b1,
  scan f1 s1 acc = Some (Ok (b1 ++ [EOF])%list) ->
  forall sep s2 f f', is_space sep = true ->
    (String.length (s1 +:+ String sep s2) < f)%nat ->
    (String.length (String sep s2) < f')%nat ->
    scan f (s1 +:+ String sep s2) acc = scan f' (String sep s2) b1.
Proof.
  induction f1 as [|f1 IH]; intros s1 acc b1 Hs1 sep s2 f f' Hsep Hf Hf';
    [done|].
  destruct (space_kind sep Hsep) as (Hk & Hnd & Hnw).
  destruct s1 as [|c after].
  { injection Hs1 as Hs1. apply app_inj_tail in Hs1 as [-> _].
    by apply scan_fuel. }
  destruct f as [|f]; [simpl in Hf; lia|].
  change (String c after +:+ String sep s2)
    with (String c (after +:+ String sep s2)) in *.
  rewrite scan_unfold in Hs1. rewrite scan_unfold.
  cbn [String.length] in Hf. rewrite length_append in Hf.
  pose proof (classify_spec c) as Hc.
  destruct (classify c); try done.
  - pose proof (span_rest_length_cons is_digit c after Hc) as Hl.
    destruct (span is_digit (String c after)) as [val rest] eqn:Es.
    change (String c (after +:+ String sep s2))
      with (String c after +:+ String sep s2).
    rewrite (span_app_stop _ _ (String sep s2) _ _ Es) by (by right).
    simpl in Hl. eapply IH; [done|done| |done]. rewrite length_append. len_s.
  - pose proof (span_rest_length is_string_char after) as Hl.
    destruct (span is_string_char after) as [body rest] eqn:Es.
    destruct rest as [|c' rest']; [done|].
    rewrite (span_app_stop _ _ (String sep s2) _ _ Es) by (by left).
    change (String c' rest' +:+ String sep s2)
      with (String c' (rest' +:+ String sep s2)).
    cbv iota. destruct (Ascii.eqb c' quote); [|done].
    simpl in Hl. eapply IH; [done|done| |done]. rewrite length_append. len_s.
  - pose proof (span_rest_length_cons is_word c after
                  (is_word_name_start c Hc)) as Hl.
    destruct (span is_word (String c after)) as [val rest] eqn:Es.
    change (String c (after +:+ String sep s2))
      with (String c after +:+ String sep s2).
    rewrite (span_app_stop _ _ (String sep s2) _ _ Es) by (by right).
    simpl in Hl. eapply IH; [done|done| |done]. rewrite length_append. len_s.
  - destruct after as [|c' rest]; [done|].
    change (String c' rest +:+ String sep s2)
      with (String c' (rest +:+ String sep s2)).
    cbv iota. destruct (Ascii.eqb c' "="); [|done].
    cbn [String.length] in Hf.
    eapply IH; [done|done| |done]. rewrite length_append. len_s.
  - eapply IH; [done|done| |done]. rewrite length_append. len_s.
  - eapply IH; [done|done| |done]. rewrite length_append. len_s.
  - eapply IH; [done|done| |done]. rewrite length_append. len_s.
  - pose proof (span_rest_length_cons is_space c after Hc) as Hl.
    destruct (span is_space (String c after)) as [skipped rest] eqn:Es.
    change (String c (after +:+ String sep s2))
      with (String c after +:+ String sep s2).
    destruct rest as [|c' rest'].
    + destruct f1 as [|f1]; [done|]. injection Hs1 as Hs1.
      apply app_inj_tail in Hs1 as [-> _].
      pose proof (span_app_through _ _ (String sep s2) _ Es) as Et.
      destruct (span is_space (String c after +:+ String sep s2))
        as [skipped' rest'']. cbn [snd] in Et. subst rest''.
      apply scan_skip_blanks; cbn [String.length] in *; lia.
    + rewrite (span_app_stop _ _ (String sep s2) _ _ Es) by (by left).
      simpl in Hl. eapply IH; [done|done| |done].
      rewrite length_append. cbn [String.length] in *. lia.
Qed.

Lemma tokenize_join s1 s2 sep b1 b2 :
  is_space sep = true ->
  tokenize s1 = Some (Ok (b1 ++ [EOF])%list) ->
  tokenize s2 = Some (Ok (b2 ++ [EOF])%list) ->
  tokenize (s1 +:+ String sep s2) = Some (Ok (b1 ++ b2 ++ [EOF])%list).
Proof.
  intros Hsep H1 H2. unfold tokenize.
  rewrite (scan_app _ _ _ _ H1 sep s2 _ (S (S (String.length s2))) Hsep)
    by (simpl; lia).
  rewrite scan_unfold. destruct (space_kind sep Hsep) as (-> & _).
  assert ((let (_, rest) := span is_space (String sep s2) in
           scan (S (String.length s2)) rest b1)
          = scan (S (String.length s2)) (span is_space s2).2 b1) as ->.
  { simpl. rewrite Hsep. by destruct (span is_space s2). }
  rewrite (scan_skip_blanks _ (S (String.length s2))) by lia.
  rewrite <- (app_nil_r b1) at 1. rewrite scan_acc.
  unfold tokenize in H2. by rewrite H2.
Qed.

(** X13. Lexing is compositional across a blank.  When two texts lex, to
    the tokens [b1] and [b2] before their [EOF], then the two texts with a
    space, a tab or a newline between them lex to [b1] followed by [b2]:
    a blank ends the token before it, and what stands before a blank does
    not change how the rest is read. *)
Theorem tokenize_app s1 s2 sep b1 b2 :
  is_space sep = true ->
  tokenize s1 = Some (Ok (b1 ++ [EOF])%list) ->
  tokenize s2 = Some (Ok (b2 ++ [EOF])%list) ->
  tokenize (s1 +:+ String sep s2) = Some (Ok (b1 ++ b2 ++ [EOF])%list).
Proof. apply tokenize_join. Qed.

Lemma tokenize_app_witness :
  tokenize ("serve 1;" +:+ String " " "serve x;")
  = Some (Ok ([ID "serve"; NUMBER 1; SYM ";"]
              ++ [ID "serve"; ID "x"; SYM ";"] ++ [EOF])%list).
Proof. apply tokenize_app; reflexivity. Defined.

(** ** Numerals *)

Lemma pretty_N_char_digit d :
  is_digit (pretty_N_char d) = true
  /\ ((d < 10)%N ->
      Z.of_nat (nat_of_ascii (pretty_N_char d) - 48) = Z.of_N d).
Proof.
  split.
  - unfold pretty_N_char. by repeat case_match.
  - intros Hd.
    assert (d = 0 \/ d = 1 \/ d = 2 \/ d = 3 \/ d = 4 \/ d = 5 \/ d = 6
            \/ d = 7 \/ d = 8 \/ d = 9)%N as Hcases by lia.
    by repeat (destruct Hcases as [->|Hcases]); [..|subst d].
Qed.

Lemma fold_digits_from l acc :
  fold_left (fun acc c => 10 * acc + Z.of_nat (nat_of_ascii c - 48)) l acc
  = acc * 10 ^ Z.of_nat (length l)
    + fold_left (fun acc c => 10 * acc + Z.of_nat (nat_of_ascii c - 48)) l 0.
Proof.
  revert acc. induction l as [|c l IH]; intros acc.
  - simpl. lia.
  - cbn [fold_left length]. rewrite IH.
    rewrite (IH (10 * 0 + _)). rewrite Nat2Z.inj_succ, Z.pow_succ_r by lia.
    lia.
Qed.

Lemma int_of_digits_cons c s :
  int_of_digits (String c s)
  = Z.of_nat (nat_of_ascii c - 48) * 10 ^ Z.of_nat (String.length s)
    + int_of_digits s.
Proof.
  unfold int_of_digits. cbn [list_ascii_of_string fold_left].
  rewrite fold_digits_from.
  assert (length (list_ascii_of_string s) = String.length s) as ->.
  { induction s as [|c' s IH]; simpl; [done|]. by rewrite IH. }
  ring.
Qed.

Lemma pretty_N_go_digits x : forall s,
  forallb is_digit (chars s) = true ->
  forallb is_digit (chars (pretty_N_go x s)) = true
  /\ int_of_digits (pretty_N_go x s)
     = Z.of_N x * 10 ^ Z.of_nat (String.length s) + int_of_digits s.
Proof.
  induction (N.lt_wf_0 x) as [x _ IH]; intros s Hs.
  assert (x = 0 \/ 0 < x)%N as [->|Hx] by lia.
  - rewrite pretty_N_go_0. split; [done|]. lia.
  - rewrite pretty_N_go_step by done.
    destruct (pretty_N_char_digit (x `mod` 10)%N) as [Hd Hv].
    destruct (IH (x `div` 10)%N) with
      (s := String (pretty_N_char (x `mod` 10)) s) as [Hall Hval].
    { by apply N.div_lt. }
    { simpl. by rewrite Hd. }
    split; [done|]. rewrite Hval, int_of_digits_cons.
    rewrite Hv by (by apply N.mod_lt).
    cbn [String.length]. rewrite Nat2Z.inj_succ, Z.pow_succ_r by lia.
    rewrite (N.div_mod x 10) at 3 by done. lia.
Qed.

Lemma span_all p s : forallb p (chars s) = true -> span p s = (s, "").
Proof.
  induction s as [|c s IH]; simpl; [done|].
  intros [-> Hs]%andb_true_iff. by rewrite (IH Hs).
Qed.

Lemma tokenize_pretty n :
  0 <= n -> tokenize (pretty n) = Some (Ok [NUMBER n; EOF]).
Proof.
  intros Hn. destruct n as [|p|p]; [done| |lia].
  change (pretty (Z.pos p)) with (pretty (N.pos p)).
  unfold pretty, pretty_N. rewrite decide_False by done.
  destruct (pretty_N_go_digits (N.pos p) "" eq_refl) as [Hall Hval].
  destruct (pretty_N_go (N.pos p) "") as [|c after] eqn:E.
  { vm_compute in Hval. lia. }
  unfold tokenize. rewrite scan_unfold.
  assert (is_digit c = true) as Hc.
  { simpl in Hall. by apply andb_true_iff in Hall as [? _]. }
  unfold classify. rewrite Hc. rewrite (span_all _ _ Hall).
  cbn [String.length scan app]. rewrite Hval.
  change (int_of_digits "") with 0.
  change (Z.of_nat (String.length "")) with 0.
  rewrite Z.pow_0_r, Z.mul_1_r, Z.add_0_r. done.
Qed.

(** X14. The numeral that [serve] prints for an integer, read back by the
    lexer.  For an integer that is not negative the decimal numeral lexes
    to the one token [NUMBER n], so that [str] and the lexer are inverse
    on them; for a negative integer the numeral does not lex, the minus
    sign being no character of the language: there are no negative
    literals. *)
Theorem tokenize_numeral H R n :
  (0 <= n ->
   tokenize (py_str H R (VInt n)) = Some (Ok [NUMBER n; EOF]))
  /\ (n < 0 ->
      tokenize (py_str H R (VInt n))
      = Some (Raise (UnexpectedCharacter "-"))).
Proof.
  cbn [py_str]. split; intros Hn.
  - by apply tokenize_pretty.
  - destruct n as [|p|p]; [lia|lia|]. reflexivity.
Qed.

Lemma tokenize_numeral_witness :
  tokenize (py_str sample_host ∅ (VInt 2026))
  = Some (Ok [NUMBER 2026; EOF]).
Proof. apply (proj1 (tokenize_numeral sample_host ∅ 2026)). lia. Defined.

(** ** From tokens to text and back *)

Lemma name_start_kind c : is_name_start c = true -> classify c = NameStart.
Proof.
  destruct c as [[] [] [] [] [] [] [] []]; vm_compute; intros E; done.
Qed.

Lemma symbol_kind c : is_symbol c = true -> classify c = Symbol.
Proof.
  destruct c as [[] [] [] [] [] [] [] []]; vm_compute; intros E; done.
Qed.

Lemma tokenize_render_token t :
  token_ok t = true -> tokenize (render_token t) = Some (Ok [t; EOF]).
Proof.
  destruct t as [v|v|v|v|c|]; cbn [token_ok render_token]; [..|done].
  - intros Hv%Z.leb_le. by apply tokenize_pretty.
  - intros Hv. unfold tokenize. rewrite scan_unfold.
    change (classify quote) with Quote. cbv iota.
    rewrite (span_app_stop _ _ (String quote "") _ _ (span_all _ _ Hv))
      by (by right).
    change ("" +:+ String quote "") with (String quote "").
    cbv iota. change (Ascii.eqb quote quote) with true. cbv iota.
    by cbn [String.length scan app].
  - destruct v as [|c v]; [done|].
    intros [Hc Hv]%andb_true_iff. unfold tokenize. rewrite scan_unfold.
    rewrite (name_start_kind c Hc).
    assert (forallb is_word (chars (String c v)) = true) as Hall.
    { cbn [chars list_ascii_of_string forallb].
      by rewrite (is_word_name_start c Hc). }
    by rewrite (span_all _ _ Hall).
  - intros [[->%String.eqb_eq| ->%String.eqb_eq]%orb_true_iff
           | ->%String.eqb_eq]%orb_true_iff; reflexivity.
  - intros Hc. unfold tokenize. rewrite scan_unfold.
    by rewrite (symbol_kind c Hc).
Qed.

Lemma render_lexes body :
  forallb token_ok body = true ->
  tokenize (render body) = Some (Ok (body ++ [EOF])%list).
Proof.
  induction body as [|t body IH]; [done|].
  cbn [forallb render]. intros [Ht Hbody]%andb_true_iff.
  apply (tokenize_join _ _ " " [t] body); [done| |by apply IH].
  by apply tokenize_render_token.
Qed.

(** X22. Every list of well-formed tokens is the lexing of a text: writing
    the tokens one after the other, a number as its decimal numeral, a
    string between double quotes, a name, an operator and a symbol as they
    are, each followed by a space, gives a text that lexes back to exactly
    these tokens and [EOF].  With the shape of the lexer's results this
    makes the well-formed lists exactly the lists the lexer can return. *)
Theorem tokenize_render body :
  forallb token_ok body = true ->
  tokenize (render body) = Some (Ok (body ++ [EOF])%list)
  /\ exists source, tokenize source = Some (Ok (body ++ [EOF])%list).
Proof.
  intros Hbody. pose proof (render_lexes body Hbody) as Hlex.
  split; [done|]. by exists (render body).
Qed.

Lemma tokenize_render_witness :
  tokenize (render [ID "mix"; NUMBER 12; OP "+"; STRING "a b"; ID "into";
                    ID "x_1"; SYM ";"])
  = Some (Ok ([ID "mix"; NUMBER 12; OP "+"; STRING "a b"; ID "into";
               ID "x_1"; SYM ";"] ++ [EOF])%list).
Proof.
  apply (proj1 (tokenize_render [ID "mix"; NUMBER 12; OP "+"; STRING "a b";
                                 ID "into"; ID "x_1"; SYM ";"] eq_refl)).
Defined.

(** * Further properties of the parser *)

(** ** The words that start a statement *)

Lemma parse_stmt_head gas kw kw' ts :
  lower kw = lower kw' ->
  parse_stmt gas (ID kw :: ts) = parse_stmt gas (ID kw' :: ts)
  \/ (parse_stmt gas (ID kw :: ts) = fail (ParseUnknownStatement (ID kw))
      /\ parse_stmt gas (ID kw' :: ts)
         = fail (ParseUnknownStatement (ID kw'))).
Proof.
  intros Hlow. destruct gas as [|g]; [by left|]. cbn [parse_stmt].
  change (type_is (ID kw) "ID") with true.
  change (type_is (ID kw') "ID") with true.
  change (value_str (ID kw)) with kw. change (value_str (ID kw')) with kw'.
  cbv iota. rewrite <- Hlow.
  destruct (_ || _); [by left|].
  destruct (String.eqb (lower kw) "serve"); [by left|].
  destruct (String.eqb (lower kw) "ask"); [by left|].
  destruct (String.eqb (lower kw) "if"); [by left|].
  destruct (String.eqb (lower kw) "repeat"); [by left|].
  destruct (String.eqb (lower kw) "make"); [by left|].
  destruct (String.eqb (lower kw) "ingredient"); [by left|].
  by right.
Qed.

(** X15. The words that start a statement or a recipe are recognised
    whatever their case: when two words agree after [lower], a statement
    that parses with the one at its head parses to the same tree, with
    the same tokens left, with the other, and so does a whole program.
    (Only the head word is compared in lower case; the names of variables
    and recipes are taken as they are written.) *)
Theorem keywords_ignore_case gas kw kw' ts :
  lower kw = lower kw' ->
  (forall s rest,
     parse_stmt gas (ID kw :: ts) = Some (Ok (s, rest)) ->
     parse_stmt gas (ID kw' :: ts) = Some (Ok (s, rest)))
  /\ (forall p,
        parse gas (ID kw :: ts) = Some (Ok p) ->
        parse gas (ID kw' :: ts) = Some (Ok p)).
Proof.
  intros Hlow. split.
  - intros s rest Hs.
    destruct (parse_stmt_head gas kw kw' ts Hlow) as [<-|[Hu _]]; [done|].
    rewrite Hu in Hs. discriminate Hs.
  - intros p. unfold parse. destruct gas as [|g]; [done|].
    cbn [parse_loop].
    change (type_is (ID kw) "EOF") with false.
    change (type_is (ID kw') "EOF") with false.
    change (type_is (ID kw) "ID") with true.
    change (type_is (ID kw') "ID") with true.
    change (value_str (ID kw)) with kw. change (value_str (ID kw')) with kw'.
    cbv iota. rewrite <- Hlow. cbn [negb andb].
    destruct (String.eqb (lower kw) "recipe"); [done|].
    destruct (parse_stmt_head g kw kw' ts Hlow) as [<-|[Hu _]]; [done|].
    by rewrite Hu.
Qed.

Lemma keywords_ignore_case_witness :
  parse_stmt 9 [ID "SERVE"; NUMBER 1; SYM ";"; EOF]
  = Some (Ok (ServeStmt (Number 1), [EOF])).
Proof.
  apply (proj1 (keywords_ignore_case 9 "serve" "SERVE"
                  [NUMBER 1; SYM ";"; EOF] eq_refl)).
  reflexivity.
Defined.



(** ** Parentheses *)

Lemma G_Eq_primaries op ts1 a ts2 b :
  op ∈ operators ->
  G_Primary ts1 a -> G_Primary ts2 b ->
  G_Eq (ts1 ++ OP op :: ts2)%list (BinOp a op b).
Proof.
  unfold operators. rewrite !elem_of_cons, elem_of_nil.
  intros [->|[->|[->|[]]]] Ha Hb.
  - apply G_eq_op; [|apply G_add_operand];
      by apply G_eq_operand, G_add_operand, G_mod_operand
      || by apply G_mod_operand.
  - apply G_eq_operand, G_add_op; [|by apply G_mod_operand].
    by apply G_add_operand, G_mod_operand.
  - apply G_eq_operand, G_add_operand, G_mod_op; [|done].
    by apply G_mod_operand.
Qed.

(** X17. Parentheses group and leave no node of their own.  For every
    expression [pre] with tree [e], the tokens [( pre )] parse to [e]
    itself; and a parenthesised expression is an operand like a name or a
    literal, whatever it contains and whatever the operator: [( pre ) op
    t] parses to [BinOp(e, op, c)] and [t op ( pre )] to [BinOp(c, op,
    e)], where [c] is the tree of the token [t].  So parentheses override
    the precedence of the operators. *)
Theorem parentheses_group gas pre e op t c rest :
  G_Eq pre e ->
  atom t = Some c ->
  op ∈ operators ->
  follows operators rest ->
  (length pre + 6 <= gas)%nat ->
  parse_expr gas (parenthesised pre ++ rest)%list = Some (Ok (e, rest))
  /\ parse_expr gas (parenthesised pre ++ OP op :: t :: rest)%list
     = Some (Ok (BinOp e op c, rest))
  /\ parse_expr gas (t :: OP op :: parenthesised pre ++ rest)%list
     = Some (Ok (BinOp c op e, rest)).
Proof.
  intros He Ht Hop Hrest Hgas.
  assert (G_Primary (parenthesised pre) e) as Hp by (by constructor).
  assert (length (parenthesised pre) = length pre + 2)%nat as Hlen.
  { unfold parenthesised. cbn [length]. rewrite length_app. simpl. lia. }
  pose proof (G_atom _ _ Ht) as Hc.
  split; [|split].
  - apply (parse_expr_complete (length (parenthesised pre)) gas);
      [lia| |done|done].
    by apply G_eq_operand, G_add_operand, G_mod_operand.
  - replace (parenthesised pre ++ OP op :: t :: rest)%list
      with ((parenthesised pre ++ OP op :: [t]) ++ rest)%list
      by (by rewrite <- app_assoc).
    apply (parse_expr_complete (length pre + 4) gas); [lia| |  |done].
    + by apply G_Eq_primaries.
    + rewrite length_app, Hlen. cbn [length]. lia.
  - change (t :: OP op :: parenthesised pre ++ rest)%list
      with (([t] ++ OP op :: parenthesised pre) ++ rest)%list.
    apply (parse_expr_complete (length pre + 4) gas); [lia| |  |done].
    + by apply G_Eq_primaries.
    + rewrite length_app. cbn [length]. rewrite Hlen. lia.
Qed.

Lemma parentheses_group_witness :
  parse_expr 9 (parenthesised [ID "a"; OP "+"; ID "b"]
                ++ OP "%" :: ID "c" :: [SYM ";"])%list
  = Some (Ok (BinOp (BinOp (Var "a") "+" (Var "b")) "%" (Var "c"),
              [SYM ";"])).
Proof.
  apply (parentheses_group 9 [ID "a"; OP "+"; ID "b"]
           (BinOp (Var "a") "+" (Var "b")) "%" (ID "c") (Var "c")
           [SYM ";"]).
  - apply G_Eq_2; [|reflexivity|reflexivity].
    unfold operators. rewrite !elem_of_cons. auto.
  - reflexivity.
  - unfold operators. rewrite !elem_of_cons. auto.
  - by apply follows_not_OP.
  - simpl. lia.
Defined.

(** ** The lexer and the parser always finish *)

(** X18. The lexer finishes on every text, and the parser on every list
    of tokens, with a result or an exception: no text makes [tokenize]
    loop, since every turn of its loop takes at least one character, and
    no list of tokens makes the parser loop or recurse without end, since
    every statement, every operand and every turn of a loop takes at
    least one token.  In the model: the bound of the lexer is always
    enough, and for the parser every bound that exceeds the number of
    tokens by two is. *)
Theorem tokenize_and_parse_finish code tokens gas :
  tokenize code <> None
  /\ ((length tokens + 2 <= gas)%nat -> parse gas tokens <> None).
Proof.
  split; [apply tokenize_total|]. intros Hgas. apply parse_loop_answers. lia.
Qed.

Lemma tokenize_and_parse_finish_witness :
  parse 5 [ID "serve"; SYM ";"; EOF] <> None.
Proof.
  apply (proj2 (tokenize_and_parse_finish "" [ID "serve"; SYM ";"; EOF] 5)).
  simpl. lia.
Defined.

(** * The command line *)

Lemma ends_with_spec s suffix :
  ends_with s suffix = true <-> exists stem, s = stem +:+ suffix.
Proof.
  induction s as [|c s IH]; cbn [ends_with].
  - rewrite orb_false_r. split.
    + intros ->%String.eqb_eq. by exists "".
    + intros [[|c stem] E]; [|done].
      change ("" +:+ suffix) with suffix in E. subst. apply String.eqb_refl.
  - rewrite orb_true_iff, IH. split.
    + intros [->%String.eqb_eq|[stem ->]]; [by exists ""|].
      by exists (String c stem).
    + intros [[|c' stem] E].
      * left. change ("" +:+ suffix) with suffix in E. subst.
        apply String.eqb_refl.
      * right. change (String c' stem +:+ suffix)
          with (String c' (stem +:+ suffix)) in E.
        injection E as -> ->. eauto.
Qed.

(** X19. The command line.  [main] runs a file exactly when it is given
    one argument and that argument ends in [.bl] (as written, in lower
    case; the argument [.bl] alone qualifies): then the file at that path
    is read and run.  With no argument, with more than one, or with an argument of
    another ending, nothing is read or run, the usage line is printed and
    the exit status is 1. *)
Theorem main_runs_bl_files H gas depth files argv stdin :
  (cli_main H gas depth files argv stdin = UsageExit usage 1
   <-> ~ exists script stem, argv = [script; stem +:+ ".bl"])
  /\ (forall script stem code,
        argv = [script; stem +:+ ".bl"] ->
        files (stem +:+ ".bl") = Some code ->
        cli_main H gas depth files argv stdin
        = Ran (run_file H gas depth code stdin)).
Proof.
  split.
  - unfold cli_main. split.
    + intros Hu (script & stem & ->).
      assert (ends_with (stem +:+ ".bl") ".bl" = true) as E.
      { apply ends_with_spec. eauto. }
      rewrite E in Hu. by destruct (files _).
    + intros Hno. destruct argv as [|script [|path [|extra argv]]]; try done.
      destruct (ends_with path ".bl") eqn:E; [|done].
      apply ends_with_spec in E as [stem ->]. destruct Hno. eauto.
  - intros script stem code -> Hfile. unfold cli_main.
    assert (ends_with (stem +:+ ".bl") ".bl" = true) as E.
    { apply ends_with_spec. eauto. }
    by rewrite E, Hfile.
Qed.

Lemma main_runs_bl_files_witness :
  cli_main sample_host 20 8 (fun _ => Some text_sum)
    ["BakeLangInterpret.py"; "cake" +:+ ".bl"] []
  = Ran (run_file sample_host 20 8 text_sum []).
Proof.
  apply (proj2 (main_runs_bl_files sample_host 20 8 (fun _ => Some text_sum)
                  ["BakeLangInterpret.py"; "cake" +:+ ".bl"] [])
           "BakeLangInterpret.py" "cake" text_sum); reflexivity.
Defined.

(** * What the parser keeps *)

Section Keeps.

(** [C] is kept by taking a token that is not [EOF] from the front;
    [E] holds of the exceptions of the parser, and of [IndexError] when
    the empty list satisfies [C]. *)
Variable C : list Token -> Prop.
Variable E : exn -> Prop.
Hypothesis C_nil : C [] -> E IndexError.
Hypothesis C_eat : forall ttype tok rest,
  ttype <> "EOF" -> C (tok :: rest) -> type_is tok ttype = true -> C rest.
Hypothesis E_expected : forall ttype tval tok, E (ParseExpected ttype tval tok).
Hypothesis E_statement : forall tok, E (ParseUnknownStatement tok).
Hypothesis E_token : forall tok, E (ParseUnexpectedToken tok).

Lemma pbind_post {A B : Type} (Q : A -> Prop) (Q' : B -> Prop)
    (r : presult A) (k : A -> list Token -> presult B) :
  post C E Q r ->
  (forall a rest, C rest -> Q a -> post C E Q' (k a rest)) ->
  post C E Q' (pbind r k).
Proof.
  destruct r as [[[a rest]|e]|]; cbn [post pbind]; [|done|done].
  intros [Hc Hq] Hk. by apply Hk.
Qed.

Lemma pure_post {A : Type} (Q : A -> Prop) a ts :
  C ts -> Q a -> post C E Q (pure a ts).
Proof. by split. Qed.

Lemma eat_post ttype ts :
  ttype <> "EOF" -> C ts -> post C E (fun _ => True) (eat ttype None ts).
Proof.
  intros Ht Hc. destruct ts as [|tok rest]; [by apply C_nil|].
  unfold eat. rewrite andb_true_r.
  destruct (type_is tok ttype) eqn:Et; [|apply E_expected].
  split; [|done]. by eapply C_eat.
Qed.

Lemma eat_name_post ts : C ts -> post C E (fun _ => True) (eat_name ts).
Proof.
  intros Hc. unfold eat_name.
  eapply pbind_post; [by apply eat_post|]. intros tok rest Hr _.
  by apply pure_post.
Qed.

Lemma parse_primary_keeps sub :
  keeps C E (fun e => known_ops e = true) sub ->
  keeps C E (fun e => known_ops e = true) (parse_primary sub).
Proof.
  intros Hsub ts Hc. rewrite parse_primary_view.
  destruct ts as [|[v|v|v|v|c|] ts']; [by apply C_nil|..].
  - apply pure_post; [|done]. by apply (C_eat "NUMBER" (NUMBER v)).
  - apply pure_post; [|done]. by apply (C_eat "STRING" (STRING v)).
  - apply pure_post; [|done]. by apply (C_eat "ID" (ID v)).
  - destruct (String.eqb v "("); [apply E_expected|apply E_token].
  - destruct (Ascii.eqb c "(") eqn:Ec; [|apply E_token].
    eapply pbind_post.
    + apply Hsub. apply (C_eat "(" (SYM c)); [done|done|].
      by rewrite type_is_SYM.
    + intros node ts2 Hc2 Hnode.
      eapply pbind_post; [by apply eat_post|]. intros tok ts3 Hc3 _.
      by apply pure_post.
  - apply E_token.
Qed.

Lemma binop_loop_keeps opv operand :
  known_op opv = true ->
  keeps C E (fun e => known_ops e = true) operand ->
  forall gas node, known_ops node = true ->
    keeps C E (fun e => known_ops e = true) (binop_loop opv operand gas node).
Proof.
  intros Hop Hoperand. induction gas as [|g IH]; intros node Hnode ts Hc;
    [done|].
  rewrite binop_loop_view.
  destruct ts as [|[v|v|v|v|c|] ts']; [by apply C_nil|..];
    try by apply pure_post.
  destruct (String.eqb v opv) eqn:Ev; [|by apply pure_post].
  apply String.eqb_eq in Ev as ->.
  eapply pbind_post.
  - apply Hoperand. by apply (C_eat "OP" (OP opv)).
  - intros rhs ts2 Hc2 Hrhs. apply IH; [|done].
    cbn [known_ops]. by rewrite Hop, Hnode, Hrhs.
Qed.

Lemma level_keeps opv operand gas :
  known_op opv = true ->
  keeps C E (fun e => known_ops e = true) operand ->
  keeps C E (fun e => known_ops e = true)
    (fun ts => letp (node, ts1) <- operand ts;
               binop_loop opv operand gas node ts1).
Proof.
  intros Hop Hoperand ts Hc.
  eapply pbind_post; [by apply Hoperand|].
  intros node ts1 Hc1 Hnode. by apply binop_loop_keeps.
Qed.

Lemma parse_expr_keeps gas :
  keeps C E (fun e => known_ops e = true) (parse_expr gas).
Proof.
  induction gas as [|g IH]; [done|]. cbn [parse_expr].
  unfold parse_eq. apply level_keeps; [done|].
  unfold parse_add. apply level_keeps; [done|].
  unfold parse_mod. apply level_keeps; [done|].
  by apply parse_primary_keeps.
Qed.

(** One step of a statement parser. *)
Ltac keep :=
  eapply pbind_post;
  [ first [ apply eat_post; [discriminate|assumption]
          | apply eat_name_post; assumption
          | apply parse_expr_keeps; assumption
          | match goal with Hb : keeps _ _ _ ?p |- post _ _ _ (?p _) =>
              apply Hb; assumption
            end ]
  | intros ? ? ? ?; cbv beta in * ].

Ltac kept :=
  apply pure_post; [assumption|];
  cbn [stmt_known_ops forallb];
  repeat match goal with
         | Hk : _ = true |- _ => rewrite Hk; clear Hk
         end;
  reflexivity.

Lemma parse_decl_keeps :
  keeps C E (fun s => stmt_known_ops s = true) parse_decl.
Proof. intros ts Hc. unfold parse_decl. do 5 keep. kept. Qed.

Lemma parse_mix_keeps gas :
  keeps C E (fun s => stmt_known_ops s = true) (parse_mix gas).
Proof. intros ts Hc. unfold parse_mix. do 5 keep. kept. Qed.

Lemma parse_serve_keeps gas :
  keeps C E (fun s => stmt_known_ops s = true) (parse_serve gas).
Proof. intros ts Hc. unfold parse_serve. do 3 keep. kept. Qed.

Lemma parse_ask_keeps gas :
  keeps C E (fun s => stmt_known_ops s = true) (parse_ask gas).
Proof. intros ts Hc. unfold parse_ask. do 5 keep. kept. Qed.

Lemma args_loop_keeps gas n : forall args,
  forallb known_ops args = true ->
  keeps C E (fun l => forallb known_ops l = true) (args_loop gas n args).
Proof.
  induction n as [|n IH]; intros args Hargs ts Hc; [done|].
  cbn [args_loop]. destruct ts as [|t ts']; [by apply C_nil|].
  destruct (value_is t ","); [|by apply pure_post].
  do 2 keep. apply IH; [|assumption].
  rewrite forallb_app, Hargs. cbn [forallb]. by rewrite andb_true_r.
Qed.

Lemma parse_make_keeps gas :
  keeps C E (fun s => stmt_known_ops s = true) (parse_make gas).
Proof.
  intros ts Hc. unfold parse_make. do 3 keep.
  eapply pbind_post with (Q := fun l => forallb known_ops l = true).
  - destruct rest1 as [|t ts3]; [by apply C_nil|].
    destruct (_ || _); [|by apply pure_post].
    keep. apply args_loop_keeps; [|assumption].
    cbn [forallb]. by rewrite andb_true_r.
  - intros args ts4 Hc4 Hargs. do 2 keep. kept.
Qed.

Section Blocks_keep.

Variable gas : nat.
Variable block : list Token -> presult (list Stmt).
Hypothesis block_keeps :
  keeps C E (fun l => forallb stmt_known_ops l = true) block.

Lemma parse_repeat_keeps :
  keeps C E (fun s => stmt_known_ops s = true) (parse_repeat gas block).
Proof. intros ts Hc. unfold parse_repeat. do 5 keep. kept. Qed.

Lemma parse_if_keeps :
  keeps C E (fun s => stmt_known_ops s = true) (parse_if gas block).
Proof.
  intros ts Hc. unfold parse_if. do 6 keep.
  destruct rest4 as [|t ts6]; [by apply C_nil|].
  destruct (_ && _).
  - do 2 keep. kept.
  - kept.
Qed.

End Blocks_keep.

Lemma block_loop_keeps stmt n :
  keeps C E (fun s => stmt_known_ops s = true) stmt ->
  forall stmts, forallb stmt_known_ops stmts = true ->
    keeps C E (fun l => forallb stmt_known_ops l = true)
      (block_loop stmt n stmts).
Proof.
  intros Hstmt. induction n as [|n IH]; intros stmts Hstmts ts Hc; [done|].
  cbn [block_loop]. destruct ts as [|t ts']; [by apply C_nil|].
  destruct (negb _); [|by apply pure_post].
  eapply pbind_post; [by apply Hstmt|]. intros s ts1 Hc1 Hs.
  apply IH; [|done]. rewrite forallb_app, Hstmts. cbn [forallb].
  by rewrite Hs.
Qed.

Lemma parse_block_keeps stmt n :
  keeps C E (fun s => stmt_known_ops s = true) stmt ->
  keeps C E (fun l => forallb stmt_known_ops l = true) (parse_block stmt n).
Proof.
  intros Hstmt ts Hc. unfold parse_block. keep.
  eapply pbind_post; [by apply block_loop_keeps|]. intros stmts ts2 Hc2 Hs.
  keep. by apply pure_post.
Qed.

Lemma parse_stmt_keeps gas :
  keeps C E (fun s => stmt_known_ops s = true) (parse_stmt gas).
Proof.
  induction gas as [|g IH]; [done|]. intros ts Hc. cbn [parse_stmt].
  destruct ts as [|tok ts']; [by apply C_nil|].
  destruct (type_is tok "ID"); [|apply E_statement].
  destruct (_ || _); [by apply parse_mix_keeps|].
  destruct (String.eqb _ "serve"); [by apply parse_serve_keeps|].
  destruct (String.eqb _ "ask"); [by apply parse_ask_keeps|].
  destruct (String.eqb _ "if").
  { apply parse_if_keeps; [|done]. by apply parse_block_keeps. }
  destruct (String.eqb _ "repeat").
  { apply parse_repeat_keeps; [|done]. by apply parse_block_keeps. }
  destruct (String.eqb _ "make"); [by apply parse_make_keeps|].
  destruct (String.eqb _ "ingredient"); [by apply parse_decl_keeps|].
  apply E_statement.
Qed.

Lemma params_loop_keeps n : forall params,
  keeps C E (fun _ => True) (params_loop n params).
Proof.
  induction n as [|n IH]; intros params ts Hc; [done|].
  cbn [params_loop]. destruct ts as [|t ts']; [by apply C_nil|].
  destruct (value_is t ","); [|by apply pure_post].
  do 2 keep. by apply IH.
Qed.

Lemma parse_recipe_keeps gas :
  keeps C E (fun r => forallb stmt_known_ops (rd_body r) = true)
    (parse_recipe gas).
Proof.
  intros ts Hc. unfold parse_recipe. do 3 keep.
  eapply pbind_post with (Q := (fun _ => True)).
  - destruct rest1 as [|t ts3]; [by apply C_nil|].
    destruct (type_is t "ID"); [|by apply pure_post].
    keep. by apply params_loop_keeps.
  - intros params ts4 Hc4 _. keep.
    eapply pbind_post.
    + apply parse_block_keeps; [apply parse_stmt_keeps|assumption].
    + intros body ts6 Hc6 Hbody. by apply pure_post.
Qed.

Lemma parse_loop_keeps gas : forall rs ms ts,
  forallb (fun r => forallb stmt_known_ops (rd_body r)) rs = true ->
  forallb stmt_known_ops ms = true ->
  C ts ->
  match parse_loop gas rs ms ts with
  | None => True
  | Some (Raise e) => E e
  | Some (Ok p) => program_known_ops p = true
  end.
Proof.
  induction gas as [|g IH]; intros rs ms ts Hrs Hms Hc; [done|].
  cbn [parse_loop]. destruct ts as [|t ts']; [by apply C_nil|].
  destruct (negb _).
  2:{ unfold program_known_ops. cbn [recipes main]. by rewrite Hrs, Hms. }
  destruct (_ && _).
  - pose proof (parse_recipe_keeps g _ Hc) as Hr.
    destruct (parse_recipe g (t :: ts')) as [[[r ts1]|e]|]; [|done|done].
    destruct Hr as [Hc1 Hr]. apply IH; [|done|done].
    rewrite forallb_app, Hrs. cbn [forallb]. by rewrite Hr.
  - pose proof (parse_stmt_keeps g _ Hc) as Hs.
    destruct (parse_stmt g (t :: ts')) as [[[s ts1]|e]|]; [|done|done].
    destruct Hs as [Hc1 Hs]. apply IH; [done| |done].
    rewrite forallb_app, Hms. cbn [forallb]. by rewrite Hs.
Qed.

End Keeps.

(** ** Programs come with the three operators only *)

Lemma parse_known_ops gas tokens p :
  parse gas tokens = Some (Ok p) -> program_known_ops p = true.
Proof.
  intros Hp.
  pose proof (parse_loop_keeps (fun _ => True) (fun _ => True)
                ltac:(done) ltac:(done) ltac:(done) ltac:(done) ltac:(done)
                gas [] [] tokens eq_refl eq_refl I) as Hk.
  unfold parse in Hp. by rewrite Hp in Hk.
Qed.

Lemma apply_op_known H R o a b op :
  known_op o = true -> apply_op H R o a b <> Raise (UnknownOperator op).
Proof.
  unfold apply_op, known_op.
  destruct (String.eqb o "+").
  { intros _. destruct (is_str a || is_str b); [done|]. by destruct a, b. }
  destruct (String.eqb o "%").
  { intros _. unfold py_mod. destruct a, b; try done; by repeat case_match. }
  by destruct (String.eqb o "==").
Qed.

Lemma eval_known_ops H R env e op :
  known_ops e = true -> eval H R e env <> Raise (UnknownOperator op).
Proof.
  induction e as [n|s|x|lhs IHl o rhs IHr]; cbn [known_ops eval].
  - done.
  - done.
  - by destruct (env !! x) as [[| n | s |]|].
  - intros [[Ho Hl]%andb_true_iff Hr]%andb_true_iff.
    destruct (eval H R lhs env) as [a|ea]; [|by apply IHl].
    destruct (eval H R rhs env) as [b|eb]; [|by apply IHr].
    cbn [bind]. by apply apply_op_known.
Qed.

Lemma forallb_Forall_impl {A} (f : A -> bool) (P : A -> Prop) l :
  Forall (fun a => f a = true -> P a) l -> forallb f l = true -> Forall P l.
Proof.
  induction 1 as [|a l Ha _ IH]; cbn [forallb]; [done|].
  intros [Hfa Hl]%andb_true_iff. constructor; [by apply Ha|by apply IH].
Qed.

Lemma exec_block_known (exec : Stmt -> World -> outcome) l :
  Forall (fun s => stmt_known_ops s = true -> forall w e w' op,
            exec s w = Raised e w' -> e <> UnknownOperator op) l ->
  forallb stmt_known_ops l = true ->
  forall w e w' op,
    exec_block exec l w = Raised e w' -> e <> UnknownOperator op.
Proof.
  intros Hl Hk w e w' op Hr.
  eapply (exec_block_inv (fun _ => True)
            (fun e => forall op, e <> UnknownOperator op)); [|done|exact Hr].
  eapply Forall_impl; [exact (forallb_Forall_impl _ _ _ Hl Hk)|].
  intros s Hs w0 _. split; [done|]. intros e0 w0' Hr0 op0. by eapply Hs.
Qed.

Lemma bind_args_known H R env op : forall pas local,
  forallb known_ops pas.*2 = true ->
  bind_args H R env pas local <> Raise (UnknownOperator op).
Proof.
  induction pas as [|[p arg] pas IH]; intros local; cbn [bind_args]; [done|].
  cbn [fmap list_fmap snd forallb]. intros [Harg Hpas]%andb_true_iff.
  pose proof (eval_known_ops H R env arg op Harg) as He.
  destruct (eval H R arg env) as [v|ex]; cbn [bind].
  - by apply IH.
  - intros [= ->]. by apply He.
Qed.

Lemma forallb_combine_snd {A B} (f : B -> bool) (l1 : list A) (l2 : list B) :
  forallb f l2 = true -> forallb f (combine l1 l2).*2 = true.
Proof.
  revert l2. induction l1 as [|a l1 IH]; intros [|b l2]; try done.
  cbn [forallb combine fmap list_fmap snd].
  intros [Hb Hl]%andb_true_iff. rewrite Hb. by apply IH.
Qed.

Lemma exec_stmt_known H R call :
  (forall name params body, R !! name = Some (params, body) ->
     forall w e w' op, call body w = Raised e w' -> e <> UnknownOperator op) ->
  forall s, stmt_known_ops s = true -> forall w e w' op,
    exec_stmt H R call s w = Raised e w' -> e <> UnknownOperator op.
Proof.
  intros Hcall s.
  induction s as [name t|expr target|expr|prompt target
                 |cond then_s else_s IHt IHe|start end_ body IHb|name args]
    using Stmt_nested_ind; intros Hs w e w' op; cbn [stmt_known_ops] in Hs;
    cbn [exec_stmt].
  - done.
  - pose proof (eval_known_ops H R (w_env w) expr op Hs) as He.
    destruct (eval H R expr (w_env w)); [done|]. intros [= <- <-]. congruence.
  - pose proof (eval_known_ops H R (w_env w) expr op Hs) as He.
    destruct (eval H R expr (w_env w)); [done|]. intros [= <- <-]. congruence.
  - pose proof (eval_known_ops H R (w_env w) prompt op Hs) as He.
    destruct (eval H R prompt (w_env w)).
    + cbn [write w_in]. destruct (w_in w); [|done]. by intros [= <- <-].
    + intros [= <- <-]. congruence.
  - apply andb_true_iff in Hs as [[Hc Ht]%andb_true_iff He].
    pose proof (eval_known_ops H R (w_env w) cond op Hc) as Hev.
    destruct (eval H R cond (w_env w)) as [c|ex].
    2:{ intros [= <- <-]. congruence. }
    destruct (py_bool R c).
    + by apply exec_block_known.
    + destruct else_s as [[|s0 else_b]|]; [done| |done].
      by apply exec_block_known.
  - apply andb_true_iff in Hs as [[Hlo Hhi]%andb_true_iff Hb].
    pose proof (eval_known_ops H R (w_env w) start op Hlo) as Hel.
    pose proof (eval_known_ops H R (w_env w) end_ op Hhi) as Heh.
    destruct (eval H R start (w_env w)) as [lo|ex].
    2:{ intros [= <- <-]. congruence. }
    destruct (eval H R end_ (w_env w)) as [hi|ex].
    2:{ intros [= <- <-]. congruence. }
    destruct lo as [| lo | |]; try by intros [= <- <-].
    destruct hi as [| hi | |]; try by intros [= <- <-].
    intros Hr.
    eapply (for_range_inv (fun _ => True)
              (fun e => forall op, e <> UnknownOperator op));
      [done| |done|exact Hr].
    intros w0 _. split; [done|]. intros e0 w0' Hr0 op0.
    by eapply exec_block_known.
  - destruct (w_env w !! recipes_key) as [[| n | s |]|];
      try by intros [= <- <-].
    { destruct (py_contains name s); by intros [= <- <-]. }
    destruct (R !! name) as [[params body]|] eqn:En; [|by intros [= <- <-]].
    unfold invoke. destruct (negb _); [by intros [= <- <-]|].
    pose proof (bind_args_known H R (w_env w) op (combine params args)
                  fresh_env (forallb_combine_snd _ _ _ Hs)) as Hb.
    destruct (bind_args _ _ _ _ _) as [local|ex].
    + destruct (call body _) as [wl|ex wl] eqn:Ec; [done|].
      intros [= <- <-]. by eapply Hcall.
    + intros [= <- <-]. congruence.
Qed.

Lemma call_recipe_known H R :
  (forall name params body, R !! name = Some (params, body) ->
     forallb stmt_known_ops body = true) ->
  forall d name params body, R !! name = Some (params, body) ->
    forall w e w' op,
      call_recipe H R d body w = Raised e w' -> e <> UnknownOperator op.
Proof.
  intros HR. induction d as [|d IH]; intros name params body Hn w e w' op.
  - by intros [= <- <-].
  - cbn [call_recipe]. apply exec_block_known; [|by eapply HR].
    apply Forall_forall. intros s _ Hs. by apply exec_stmt_known.
Qed.

(** X20. The exception [UnknownOperator] of [BinOp.eval] cannot occur in a
    run of a program text.  The parser builds [BinOp] nodes with the
    operators [==], [+] and [%] only, in every expression of every
    statement and recipe; and a program all of whose operators are among
    these three never raises [UnknownOperator], whatever it does. *)
Theorem run_file_never_UnknownOperator H gas depth code stdin :
  (forall tokens p,
     parse gas tokens = Some (Ok p) -> program_known_ops p = true)
  /\ (forall p e w op,
        program_known_ops p = true ->
        Program_eval H depth p stdin = Raised e w ->
        e <> UnknownOperator op)
  /\ (forall e w op,
        run_file H gas depth code stdin = Some (Ok (Raised e w)) ->
        e <> UnknownOperator op).
Proof.
  assert (forall p e w op,
            program_known_ops p = true ->
            Program_eval H depth p stdin = Raised e w ->
            e <> UnknownOperator op) as Hrun.
  { intros p e w op [Hrs Hms]%andb_true_iff. unfold Program_eval.
    apply exec_block_known; [|done].
    apply Forall_forall. intros s _ Hs. apply exec_stmt_known; [|done].
    apply call_recipe_known.
    apply (foldl_register_bodies
             (fun b => forallb stmt_known_ops b = true)).
    intros d Hd. rewrite forallb_forall in Hrs. apply Hrs.
    by apply list_elem_of_In. }
  split; [intros tokens p; apply parse_known_ops|]. split; [done|].
  intros e w op. unfold run_file, parse_text.
  destruct (tokenize code) as [[tokens|ex]|]; [|done|done].
  destruct (parse gas tokens) as [[p|ex]|] eqn:Ep; [|done|done].
  intros [= Hr]. eapply Hrun; [|exact Hr]. by eapply parse_known_ops.
Qed.

Lemma run_file_never_UnknownOperator_witness :
  program_known_ops
    (mkProgram [] [ServeStmt (BinOp (Number 1) "+" (Number 2))]) = true.
Proof.
  apply (proj1 (run_file_never_UnknownOperator sample_host 9 1 "" [])
           [ID "serve"; NUMBER 1; OP "+"; NUMBER 2; SYM ";"; EOF]).
  reflexivity.
Defined.

(** ** The parser does not run past the end *)

Lemma ends_with_EOF_eat ttype tok rest :
  ttype <> "EOF" -> ends_with_EOF (tok :: rest) ->
  type_is tok ttype = true -> ends_with_EOF rest.
Proof.
  unfold ends_with_EOF. intros Ht Hl Hty. destruct rest as [|t rest].
  - injection Hl as ->. unfold type_is in Hty. cbn [type_] in Hty.
    apply String.eqb_eq in Hty. congruence.
  - done.
Qed.

(** X21. The parser never reads past the end of the tokens of a text.
    [self.cur()] indexes the token list without a test, but on every list
    that ends with [EOF], as the lists of [tokenize] do, no method takes
    the final [EOF]: whatever the tokens, the parser does not raise
    [IndexError], and so neither does parsing a text. *)
Theorem parser_never_IndexError gas :
  (forall tokens,
     ends_with_EOF tokens -> parse gas tokens <> Some (Raise IndexError))
  /\ (forall code, parse_text gas code <> Some (Raise IndexError)).
Proof.
  assert (forall tokens, ends_with_EOF tokens ->
            parse gas tokens <> Some (Raise IndexError)) as Hparse.
  { intros tokens Hc Hp.
    pose proof (parse_loop_keeps ends_with_EOF (fun e => e <> IndexError)
                  ltac:(done) ends_with_EOF_eat
                  ltac:(done) ltac:(done) ltac:(done)
                  gas [] [] tokens eq_refl eq_refl Hc) as Hk.
    unfold parse in Hp. by rewrite Hp in Hk. }
  split; [done|]. intros code. unfold parse_text.
  destruct (tokenize code) as [[tokens|ex]|] eqn:Et; [| |done].
  - apply Hparse. apply scan_tokens in Et as (new & -> & _).
    unfold ends_with_EOF. cbn [app]. apply last_snoc.
  - intros [= ->]. by apply scan_raises in Et as (c & ? & _).
Qed.

Lemma parser_never_IndexError_witness :
  parse 4 [ID "serve"; EOF] <> Some (Raise IndexError).
Proof.
  apply (proj1 (parser_never_IndexError 4) [ID "serve"; EOF]). reflexivity.
Defined.

(** * From trees to tokens and back *)

(** ** Expressions *)

Lemma expr_tokens_G e :
  known_ops e = true ->
  G_Eq (expr_tokens e) e /\ G_Primary (wrap e (expr_tokens e)) e.
Proof.
  induction e as [n|s|x|lhs IHl op rhs IHr]; cbn [known_ops expr_tokens wrap].
  - intros _. split; [apply G_eq_operand, G_add_operand, G_mod_operand|];
      constructor.
  - intros _. split; [apply G_eq_operand, G_add_operand, G_mod_operand|];
      constructor.
  - intros _. split; [apply G_eq_operand, G_add_operand, G_mod_operand|];
      constructor.
  - intros [[Hop Hl]%andb_true_iff Hr]%andb_true_iff.
    destruct (IHl Hl) as [_ Gl]. destruct (IHr Hr) as [_ Gr].
    assert (G_Eq (wrap lhs (expr_tokens lhs)
                  ++ OP op :: wrap rhs (expr_tokens rhs))%list
              (BinOp lhs op rhs)) as Ge.
    { apply G_Eq_primaries; [|done|done]. unfold operators, known_op in *.
      rewrite !elem_of_cons.
      apply orb_true_iff in Hop as [[Hop|Hop]%orb_true_iff|Hop];
        apply String.eqb_eq in Hop; auto. }
    split; [done|]. by constructor.
Qed.

Lemma expr_tokens_head e :
  exists t tl,
    expr_tokens e = t :: tl
    /\ (type_is t "NUMBER" || type_is t "STRING" || type_is t "ID"
        || type_is t "(") = true
    /\ type_is t "OP" = false.
Proof.
  destruct e as [n|s|x|lhs op rhs]; cbn [expr_tokens]; try by eauto.
  destruct lhs as [n|s|x|l1 o1 r1]; cbn [wrap expr_tokens app parenthesised];
    by eauto.
Qed.

Lemma parse_expr_tokens e gas rest :
  known_ops e = true ->
  follows operators rest ->
  (length (expr_tokens e) + 2 <= gas)%nat ->
  parse_expr gas (expr_tokens e ++ rest)%list = Some (Ok (e, rest)).
Proof.
  intros He Hrest Hgas.
  apply (parse_expr_complete (length (expr_tokens e)) gas);
    [done| |done|done].
  by apply expr_tokens_G.
Qed.

(** ** Taking a token that is there *)

Lemma eat_ID v ts : eat "ID" None (ID v :: ts) = pure (ID v) ts.
Proof. reflexivity. Qed.

Lemma eat_name_ID v ts : eat_name (ID v :: ts) = pure v ts.
Proof. reflexivity. Qed.

Lemma eat_SYM c ts : eat (String c "") None (SYM c :: ts) = pure (SYM c) ts.
Proof.
  unfold eat, type_is. cbn [type_]. by rewrite String.eqb_refl.
Qed.

Lemma pbind_pure {A B : Type} (a : A) ts
    (k : A -> list Token -> presult B) :
  pbind (pure a ts) k = k a ts.
Proof. reflexivity. Qed.

Lemma pbind_Ok {A B : Type} (a : A) ts
    (k : A -> list Token -> presult B) :
  pbind (Some (Ok (a, ts))) k = k a ts.
Proof. reflexivity. Qed.

(** One step through a statement parser on the tokens written out. *)
Ltac through :=
  repeat first
    [ rewrite eat_ID | rewrite eat_name_ID | rewrite eat_SYM
    | rewrite pbind_pure | rewrite pbind_Ok ].

(** ** Statements *)

Lemma stmt_tokens_head s :
  exists kw tl,
    stmt_tokens s = ID kw :: tl
    /\ String.eqb kw "}" = false
    /\ String.eqb (lower kw) "else" = false
    /\ String.eqb (lower kw) "recipe" = false.
Proof. destruct s; cbn [stmt_tokens]; by eauto 10. Qed.

Lemma no_else_stmts l t rest :
  type_is t "ID" = false ->
  no_else (flat_map stmt_tokens l ++ t :: rest)%list.
Proof.
  intros Ht. destruct l as [|s l]; cbn [flat_map app no_else].
  - by rewrite Ht.
  - destruct (stmt_tokens_head s) as (kw & tl & -> & _ & He & _).
    cbn [app no_else]. change (value_str (ID kw)) with kw.
    by rewrite He, andb_false_r.
Qed.

Lemma length_flat_map_cons {A B} (f : A -> list B) a l :
  length (flat_map f (a :: l)) = (length (f a) + length (flat_map f l))%nat.
Proof. cbn [flat_map]. apply length_app. Qed.

Lemma block_loop_step stmt n stmts t ts :
  value_is t "}" = false ->
  block_loop stmt (S n) stmts (t :: ts)
  = letp (s, ts1) <- stmt (t :: ts); block_loop stmt n (stmts ++ [s]) ts1.
Proof. cbn [block_loop]. by intros ->. Qed.

Lemma block_loop_back gas l : forall n stmts rest,
  Forall parses_back l ->
  (length (flat_map stmt_tokens l) < gas)%nat ->
  (length (flat_map stmt_tokens l) < n)%nat ->
  block_loop (parse_stmt gas) n stmts
    (flat_map stmt_tokens l ++ SYM "}" :: rest)%list
  = pure (stmts ++ l)%list (SYM "}" :: rest).
Proof.
  induction l as [|s l IH]; intros n stmts rest Hl Hgas Hn.
  - destruct n as [|n]; [simpl in Hn; lia|]. cbn [flat_map app block_loop].
    rewrite value_is_SYM. cbn [Ascii.eqb Bool.eqb negb andb].
    by rewrite app_nil_r.
  - apply Forall_cons in Hl as [Hs Hl].
    rewrite length_flat_map_cons in Hgas, Hn.
    destruct (stmt_tokens_head s) as (kw & tl & Es & Hk & _).
    destruct n as [|n]; [lia|].
    cbn [flat_map]. rewrite <- app_assoc.
    assert (exists tl', (stmt_tokens s
                         ++ flat_map stmt_tokens l ++ SYM "}" :: rest)%list
                        = ID kw :: tl') as [tl' Etl].
    { rewrite Es. cbn [app]. eauto. }
    rewrite Etl, block_loop_step by done. rewrite <- Etl.
    rewrite Hs; [|lia|by apply no_else_stmts].
    through.
    rewrite IH; [|done|lia|rewrite Es in Hn; cbn [length] in Hn; lia].
    by rewrite <- app_assoc.
Qed.

Lemma parse_block_back gas n l rest :
  Forall parses_back l ->
  (length (flat_map stmt_tokens l) < gas)%nat ->
  (length (flat_map stmt_tokens l) < n)%nat ->
  parse_block (parse_stmt gas) n (block_of stmt_tokens l ++ rest)%list
  = pure l rest.
Proof.
  intros Hl Hgas Hn. unfold parse_block, block_of.
  cbn [app]. rewrite <- app_assoc. cbn [app]. through.
  rewrite block_loop_back by done. through. done.
Qed.

Lemma length_block_of l :
  length (block_of stmt_tokens l)
  = (length (flat_map stmt_tokens l) + 2)%nat.
Proof. unfold block_of. cbn [length]. rewrite length_app. simpl. lia. Qed.

Lemma args_loop_back gas more : forall n args rest t,
  forallb known_ops more = true ->
  type_is t "OP" = false -> value_is t "," = false ->
  (length (flat_map (fun ts => SYM "," :: ts) (map expr_tokens more)) + 2
   <= gas)%nat ->
  (length more < n)%nat ->
  args_loop gas n args
    (flat_map (fun ts => SYM "," :: ts) (map expr_tokens more)
     ++ t :: rest)%list
  = pure (args ++ more)%list (t :: rest).
Proof.
  induction more as [|a more IH]; intros n args rest t Hk Ht Hv Hgas Hn.
  - destruct n as [|n]; [simpl in Hn; lia|].
    cbn [map flat_map app args_loop]. by rewrite Hv, app_nil_r.
  - destruct n as [|n]; [simpl in Hn; lia|].
    cbn [forallb] in Hk. apply andb_true_iff in Hk as [Ha Hk].
    cbn [map flat_map app args_loop]. rewrite value_is_SYM.
    cbn [Ascii.eqb Bool.eqb andb]. through.
    cbn [map] in Hgas. rewrite length_flat_map_cons in Hgas.
    cbn [length] in Hgas, Hn.
    rewrite <- app_assoc.
    rewrite parse_expr_tokens; [|done| |lia].
    + through. rewrite IH; [|done|done|done|lia|lia].
      by rewrite <- app_assoc.
    + destruct more as [|a' more']; cbn [map flat_map app].
      * by apply follows_not_OP.
      * apply follows_not_OP. apply type_is_SYM_long.
Qed.

Lemma params_loop_back more : forall n params rest t,
  value_is t "," = false ->
  (length more < n)%nat ->
  params_loop n params
    (flat_map (fun ts => SYM "," :: ts) (map (fun p => [ID p]) more)
     ++ t :: rest)%list
  = pure (params ++ more)%list (t :: rest).
Proof.
  induction more as [|p more IH]; intros n params rest t Hv Hn.
  - destruct n as [|n]; [simpl in Hn; lia|].
    cbn [map flat_map app params_loop]. by rewrite Hv, app_nil_r.
  - destruct n as [|n]; [simpl in Hn; lia|]. cbn [length] in Hn.
    cbn [map flat_map app params_loop]. rewrite value_is_SYM.
    cbn [Ascii.eqb Bool.eqb andb]. through.
    rewrite IH; [|done|lia]. by rewrite <- app_assoc.
Qed.

Lemma parse_stmt_words g tl :
  parse_stmt (S g) (ID "ingredient" :: tl) = parse_decl (ID "ingredient" :: tl)
  /\ parse_stmt (S g) (ID "mix" :: tl) = parse_mix g (ID "mix" :: tl)
  /\ parse_stmt (S g) (ID "serve" :: tl) = parse_serve g (ID "serve" :: tl)
  /\ parse_stmt (S g) (ID "ask" :: tl) = parse_ask g (ID "ask" :: tl)
  /\ parse_stmt (S g) (ID "if" :: tl)
     = parse_if g (parse_block (parse_stmt g) g) (ID "if" :: tl)
  /\ parse_stmt (S g) (ID "repeat" :: tl)
     = parse_repeat g (parse_block (parse_stmt g) g) (ID "repeat" :: tl)
  /\ parse_stmt (S g) (ID "make" :: tl) = parse_make g (ID "make" :: tl).
Proof. repeat split. Qed.

Lemma length_comma_separated_args a more :
  length (comma_separated (map expr_tokens (a :: more)))
  = (length (expr_tokens a)
     + length (flat_map (fun ts => SYM "," :: ts) (map expr_tokens more)))%nat.
Proof. cbn [map comma_separated]. apply length_app. Qed.

Lemma length_flat_map_commas (more : list Expr) :
  (length more
   <= length (flat_map (fun ts => SYM "," :: ts) (map expr_tokens more)))%nat.
Proof.
  induction more as [|a more IH]; [done|].
  cbn [map]. rewrite length_flat_map_cons. cbn [length]. lia.
Qed.

(** The number of tokens of a statement, part by part. *)
Ltac measure Hm :=
  repeat (progress (rewrite ?length_app, ?length_block_of in Hm;
                    cbn [length] in Hm)).

Lemma stmt_parses_back s : stmt_known_ops s = true -> parses_back s.
Proof.
  induction s as [name t|expr target|expr|prompt target
                 |cond then_s else_s IHt IHe|start end_ body IHb|name args]
    using Stmt_nested_ind; intros Hs [|g] rest Hgas Hrest;
    try (simpl in Hgas; lia);
    cbn [stmt_known_ops] in Hs; cbn [stmt_tokens] in *.
  - reflexivity.
  - cbn [app]. rewrite (proj1 (proj2 (parse_stmt_words g _))).
    unfold parse_mix. through. rewrite <- app_assoc.
    measure Hgas.
    rewrite parse_expr_tokens; [|done|by apply follows_not_OP|lia].
    cbn [app]. by through.
  - cbn [app]. rewrite (proj1 (proj2 (proj2 (parse_stmt_words g _)))).
    unfold parse_serve. through. rewrite <- app_assoc.
    measure Hgas.
    rewrite parse_expr_tokens;
      [|done|apply follows_not_OP, type_is_SYM_long|lia].
    cbn [app]. by through.
  - cbn [app]. rewrite (proj1 (proj2 (proj2 (proj2 (parse_stmt_words g _))))).
    unfold parse_ask. through. rewrite <- app_assoc.
    measure Hgas.
    rewrite parse_expr_tokens; [|done|by apply follows_not_OP|lia].
    cbn [app]. by through.
  - apply andb_true_iff in Hs as [[Hc Ht]%andb_true_iff He].
    pose proof (forallb_Forall_impl _ _ _ IHt Ht) as Hthen.
    cbn [app].
    rewrite (proj1 (proj2 (proj2 (proj2 (proj2 (parse_stmt_words g _)))))).
    unfold parse_if. through. rewrite <- app_assoc.
    measure Hgas.
    rewrite parse_expr_tokens;
      [|done|apply follows_not_OP, type_is_SYM_long|lia].
    cbn [app]. through. rewrite <- app_assoc.
    rewrite parse_block_back; [|done|lia|lia]. through.
    destruct else_s as [else_b|].
    + pose proof (forallb_Forall_impl _ _ _ IHe He) as Helse.
      cbn [app]. measure Hgas.
      change (type_is (ID "else") "ID"
              && String.eqb (lower (value_str (ID "else"))) "else")
        with true.
      cbv iota. through.
      rewrite parse_block_back; [|done|lia|lia]. by through.
    + cbn [app]. destruct rest as [|t rest]; [done|].
      cbn [no_else] in Hrest. by rewrite Hrest.
  - apply andb_true_iff in Hs as [[Hlo Hhi]%andb_true_iff Hb].
    pose proof (forallb_Forall_impl _ _ _ IHb Hb) as Hbody.
    cbn [app].
    rewrite (proj1 (proj2 (proj2 (proj2 (proj2 (proj2
               (parse_stmt_words g _))))))).
    unfold parse_repeat. through. rewrite <- app_assoc.
    measure Hgas.
    rewrite parse_expr_tokens; [|done|by apply follows_not_OP|lia].
    cbn [app]. through. rewrite <- app_assoc.
    rewrite parse_expr_tokens;
      [|done|apply follows_not_OP, type_is_SYM_long|lia].
    through. rewrite parse_block_back; [|done|lia|lia]. by through.
  - cbn [app].
    rewrite (proj2 (proj2 (proj2 (proj2 (proj2 (proj2
               (parse_stmt_words g _))))))).
    unfold parse_make. through. rewrite <- app_assoc. cbn [app].
    measure Hgas.
    destruct args as [|a more].
    + cbn [map comma_separated app].
      rewrite !type_is_SYM_long, type_is_SYM. cbn [orb Ascii.eqb Bool.eqb andb].
      by through.
    + cbn [forallb] in Hs. apply andb_true_iff in Hs as [Ha Hmore].
      rewrite length_comma_separated_args in Hgas.
      pose proof (length_flat_map_commas more) as Hcount.
      cbn [map comma_separated]. rewrite <- app_assoc.
      destruct (expr_tokens_head a) as (t & tl & Ea & Hfirst & _).
      assert (exists tl', (expr_tokens a
                           ++ flat_map (fun ts => SYM "," :: ts)
                                (map expr_tokens more)
                           ++ SYM ")" :: SYM ";" :: rest)%list = t :: tl')
        as [tl' Etl].
      { rewrite Ea. cbn [app]. eauto. }
      rewrite Etl. cbv iota. rewrite Hfirst. rewrite <- Etl.
      rewrite parse_expr_tokens; [|done| |lia].
      * through.
        rewrite args_loop_back;
          [|done|apply type_is_SYM_long|by rewrite value_is_SYM|lia|lia].
        by through.
      * destruct more as [|a' more']; cbn [map flat_map app];
          apply follows_not_OP, type_is_SYM_long.
Qed.

(** ** Recipes and programs *)

Lemma recipe_parses_back r gas rest :
  forallb stmt_known_ops (rd_body r) = true ->
  (length (recipe_tokens r) <= gas)%nat ->
  parse_recipe gas (recipe_tokens r ++ rest)%list = Some (Ok (r, rest)).
Proof.
  destruct r as [name params body]. unfold recipe_tokens.
  cbn [rd_name rd_params rd_body]. intros Hbody Hgas.
  assert (Forall parses_back body) as Hback.
  { apply (forallb_Forall_impl stmt_known_ops); [|done].
    apply Forall_forall. intros s _. apply stmt_parses_back. }
  measure Hgas. unfold parse_recipe. cbn [app]. through.
  rewrite <- app_assoc. cbn [app].
  destruct params as [|p more].
  - cbn [map comma_separated app]. rewrite type_is_SYM_long. through.
    rewrite parse_block_back; [|done|lia|lia]. by through.
  - cbn [map comma_separated app length] in *.
    change (type_is (ID p) "ID") with true. cbv iota. through.
    assert (length more
            <= length (flat_map (fun ts => SYM "," :: ts)
                         (map (fun p => [ID p]) more)))%nat as Hcount.
    { clear. induction more as [|q more IH]; [done|].
      cbn [map]. rewrite length_flat_map_cons. cbn [length]. lia. }
    rewrite params_loop_back; [|by rewrite value_is_SYM|lia]. through.
    rewrite parse_block_back; [|done|lia|lia]. by through.
Qed.

Lemma stmt_tokens_length s : (1 <= length (stmt_tokens s))%nat.
Proof.
  destruct (stmt_tokens_head s) as (kw & tl & -> & _). cbn [length]. lia.
Qed.

Lemma parse_loop_main ms : forall gas rs acc,
  forallb stmt_known_ops ms = true ->
  (length (flat_map stmt_tokens ms) + 1 < gas)%nat ->
  parse_loop gas rs acc (flat_map stmt_tokens ms ++ [EOF])%list
  = Some (Ok (mkProgram rs (acc ++ ms)%list)).
Proof.
  induction ms as [|s ms IH]; intros [|g] rs acc Hms Hgas; try lia.
  - cbn [flat_map app parse_loop]. by rewrite app_nil_r.
  - cbn [forallb] in Hms. apply andb_true_iff in Hms as [Hs Hms].
    rewrite length_flat_map_cons in Hgas.
    pose proof (stmt_tokens_length s) as Hlen.
    destruct (stmt_tokens_head s) as (kw & tl & Es & _ & _ & Hr).
    cbn [flat_map]. rewrite <- app_assoc.
    assert (exists tl', (stmt_tokens s ++ flat_map stmt_tokens ms ++ [EOF])%list
                        = ID kw :: tl') as [tl' Etl].
    { rewrite Es. cbn [app]. eauto. }
    rewrite Etl. cbn [parse_loop].
    change (type_is (ID kw) "EOF") with false.
    change (type_is (ID kw) "ID") with true.
    change (value_str (ID kw)) with kw. rewrite Hr. cbn [negb andb].
    rewrite <- Etl.
    rewrite (stmt_parses_back s Hs g); [|lia|by apply no_else_stmts].
    rewrite IH; [|done|lia]. by rewrite <- app_assoc.
Qed.

Lemma recipe_tokens_length r : (6 <= length (recipe_tokens r))%nat.
Proof.
  unfold recipe_tokens. cbn [length]. rewrite length_app. cbn [length].
  rewrite length_block_of. lia.
Qed.

Lemma parse_loop_recipes rs ms : forall gas acc,
  forallb (fun r => forallb stmt_known_ops (rd_body r)) rs = true ->
  forallb stmt_known_ops ms = true ->
  (length (flat_map recipe_tokens rs ++ flat_map stmt_tokens ms) + 1
   < gas)%nat ->
  parse_loop gas acc []
    (flat_map recipe_tokens rs ++ flat_map stmt_tokens ms ++ [EOF])%list
  = Some (Ok (mkProgram (acc ++ rs)%list ms)).
Proof.
  induction rs as [|r rs IH]; intros gas acc Hrs Hms Hgas.
  - cbn [flat_map app] in *. rewrite app_nil_r.
    by rewrite parse_loop_main.
  - destruct gas as [|g]; [lia|].
    cbn [forallb] in Hrs. apply andb_true_iff in Hrs as [Hr Hrs].
    cbn [flat_map] in *. rewrite <- app_assoc in *.
    rewrite length_app in Hgas.
    pose proof (recipe_tokens_length r) as Hlen.
    unfold recipe_tokens at 1. cbn [app parse_loop].
    change (type_is (ID "recipe") "EOF") with false.
    change (type_is (ID "recipe") "ID"
            && String.eqb (lower (value_str (ID "recipe"))) "recipe")
      with true.
    cbn [negb].
    change (ID "recipe" :: ID (rd_name r) :: SYM "("
            :: (comma_separated (map (fun p => [ID p]) (rd_params r))
                ++ SYM ")" :: block_of stmt_tokens (rd_body r))
            ++ flat_map recipe_tokens rs
            ++ flat_map stmt_tokens ms ++ [EOF])%list
      with (recipe_tokens r
            ++ flat_map recipe_tokens rs
            ++ flat_map stmt_tokens ms ++ [EOF])%list.
    rewrite recipe_parses_back; [|done|lia].
    rewrite IH; [|done|done|lia]. by rewrite <- app_assoc.
Qed.

(** X23. The parser takes every program back from its concrete syntax.
    Write a program out as tokens: its recipes, then its statements, each
    statement with its words ([mix ... into x;], [if ( ... ) then { ... }
    else { ... }], [repeat ... to ... { ... }], [make F( ... , ... );],
    ...), every operand that is an operation in parentheses.  For every
    program whose operators are [==], [+] and [%] the parser returns
    exactly that program from these tokens; and when the tokens are
    well-formed (names are names, numbers are not negative, strings have
    no quote or backslash), lexing and parsing the text of the tokens
    gives the program back as well.  So every such tree is the tree of
    some program text. *)
Theorem parse_program_tokens p gas :
  program_known_ops p = true ->
  (length (program_tokens p) < gas)%nat ->
  parse gas (program_tokens p) = Some (Ok p)
  /\ (forallb token_ok (body_tokens p) = true ->
      parse_text gas (render (body_tokens p)) = Some (Ok p)).
Proof.
  intros [Hrs Hms]%andb_true_iff Hgas.
  assert (parse gas (program_tokens p) = Some (Ok p)) as Hparse.
  { unfold parse, program_tokens, body_tokens in *. rewrite length_app in Hgas.
    cbn [length] in Hgas. rewrite <- app_assoc.
    rewrite parse_loop_recipes; [|done|done|lia]. by destruct p. }
  split; [done|]. intros Hok. unfold parse_text.
  by rewrite render_lexes.
Qed.

Lemma parse_program_tokens_witness :
  let p := mkProgram
             [mkRecipeDef "F" ["a"; "b"]
                [IfStmt (BinOp (Var "a") "==" (Number 1))
                   [ServeStmt (BinOp (Var "a") "+"
                                 (BinOp (Var "b") "%" (Number 2)))]
                   None]]
             [RepeatStmt (Number 1) (Number 3)
                [MakeStmt "F" [Var "i"; StringLit "x"]]] in
  parse_text 60 (render (body_tokens p)) = Some (Ok p).
Proof.
  intros p. apply (parse_program_tokens p 60); reflexivity || (simpl; lia).
Defined.

(** ** Recipes among the statements *)

Lemma no_else_items items :
  no_else (flat_map item_tokens items ++ [EOF])%list.
Proof.
  destruct items as [|[r|s] items]; cbn [flat_map item_tokens app no_else].
  - done.
  - done.
  - destruct (stmt_tokens_head s) as (kw & tl & -> & _ & He & _).
    cbn [app no_else]. change (value_str (ID kw)) with kw.
    by rewrite He, andb_false_r.
Qed.

Lemma item_tokens_length i : (1 <= length (item_tokens i))%nat.
Proof.
  destruct i as [r|s]; cbn [item_tokens].
  - pose proof (recipe_tokens_length r). lia.
  - apply stmt_tokens_length.
Qed.

Lemma parse_loop_items items : forall gas rs ms,
  forallb item_known_ops items = true ->
  (length (flat_map item_tokens items) + 1 < gas)%nat ->
  parse_loop gas rs ms (flat_map item_tokens items ++ [EOF])%list
  = Some (Ok (mkProgram (rs ++ recipes_of items)%list
                        (ms ++ statements_of items)%list)).
Proof.
  induction items as [|i items IH]; intros [|g] rs ms Hk Hgas; try lia.
  - cbn [flat_map app parse_loop recipes_of statements_of].
    by rewrite !app_nil_r.
  - cbn [forallb] in Hk. apply andb_true_iff in Hk as [Hi Hk].
    rewrite length_flat_map_cons in Hgas.
    pose proof (item_tokens_length i) as Hlen.
    cbn [flat_map]. rewrite <- app_assoc.
    destruct i as [r|s]; cbn [item_tokens item_known_ops] in *.
    + unfold recipe_tokens at 1. cbn [app parse_loop].
      change (type_is (ID "recipe") "EOF") with false.
      change (type_is (ID "recipe") "ID"
              && String.eqb (lower (value_str (ID "recipe"))) "recipe")
        with true.
      cbn [negb].
      change (ID "recipe" :: ID (rd_name r) :: SYM "("
              :: (comma_separated (map (fun p => [ID p]) (rd_params r))
                  ++ SYM ")" :: block_of stmt_tokens (rd_body r))
              ++ flat_map item_tokens items ++ [EOF])%list
        with (recipe_tokens r ++ flat_map item_tokens items ++ [EOF])%list.
      rewrite recipe_parses_back; [|done|lia].
      rewrite IH; [|done|lia]. cbn [recipes_of statements_of].
      by rewrite <- app_assoc.
    + destruct (stmt_tokens_head s) as (kw & tl & Es & _ & _ & Hr).
      assert (exists tl', (stmt_tokens s
                           ++ flat_map item_tokens items ++ [EOF])%list
                          = ID kw :: tl') as [tl' Etl].
      { rewrite Es. cbn [app]. eauto. }
      rewrite Etl. cbn [parse_loop].
      change (type_is (ID kw) "EOF") with false.
      change (type_is (ID kw) "ID") with true.
      change (value_str (ID kw)) with kw. rewrite Hr. cbn [negb andb].
      rewrite <- Etl.
      rewrite (stmt_parses_back s Hi g); [|lia|apply no_else_items].
      rewrite IH; [|done|lia]. cbn [recipes_of statements_of].
      by rewrite <- app_assoc.
Qed.

(** X25. Recipes may stand anywhere among the top-level statements.  For
    recipes and statements written out in any order, the parser returns
    the program whose recipes are the recipes written, in their order,
    and whose statements are the statements written, in theirs: where a
    recipe stands between the statements leaves no trace in the program,
    which is why a recipe can be called before the place of its
    definition. *)
Theorem parse_items_anywhere items gas :
  forallb item_known_ops items = true ->
  (length (flat_map item_tokens items) + 1 < gas)%nat ->
  parse gas (flat_map item_tokens items ++ [EOF])%list
  = Some (Ok (mkProgram (recipes_of items) (statements_of items))).
Proof. intros Hk Hgas. unfold parse. by rewrite parse_loop_items. Qed.

Lemma parse_items_anywhere_witness :
  parse 30 [ID "make"; ID "F"; SYM "("; SYM ")"; SYM ";";
            ID "recipe"; ID "F"; SYM "("; SYM ")"; SYM "{";
            ID "serve"; NUMBER 1; SYM ";"; SYM "}";
            ID "serve"; NUMBER 2; SYM ";"; EOF]
  = Some (Ok (mkProgram [mkRecipeDef "F" [] [ServeStmt (Number 1)]]
                        [MakeStmt "F" []; ServeStmt (Number 2)])).
Proof.
  apply (parse_items_anywhere
           [inr (MakeStmt "F" []);
            inl (mkRecipeDef "F" [] [ServeStmt (Number 1)]);
            inr (ServeStmt (Number 2))] 30).
  - reflexivity.
  - simpl. lia.
Defined.

